(** * eslhelp: the text chunker, the translation adapter and the document
      pipeline of [src/lib/translation.ts], the language registry of
      [src/lib/languages.ts], the earlier pipeline of
      [src/lib/translation.js], the two versions of the route
      [POST /api/translateFile] and the handlers of the page, embedded in
      Rocq.

    Conventions of the embedding.

    - A JavaScript string is a sequence of UTF-16 code units; it is a
      list of code units, each an [N].  Lengths, [substring], [trim],
      [join] and the regular expressions all work on code units, as they
      do in the source (no regular expression carries the [u] flag).
    - Sizes and lengths are natural numbers.
    - An [async] function is a function from the history of the calls
      that have left the process to the extended history and an outcome,
      fulfilled or rejected.  The PDF reader, the generative model and
      the translation service are oracles of the environment; their
      answer may depend on the whole history, so two calls with the same
      request may be answered differently.
    - Every remote call of this code is issued before the calling [async]
      function first suspends, so the calls started by one [Promise.all]
      enter the history in the order of the array, whatever the outcomes.
      Which rejection a failing [Promise.all] reports is a choice of the
      environment.
    - Values are typed as the TypeScript source types them.  Built-ins
      that are not spelled out ([String.prototype.toLowerCase],
      [JSON.parse], the clock) are fields of the environment. *)

From Stdlib Require Import String Ascii.
From Stdlib Require Import List NArith Arith Bool Lia Permutation.
Import ListNotations.

Set Implicit Arguments.
Set Warnings "-abstract-large-number".

(** ** Strings *)

Module JsString.

Definition char16 := N.
Definition jsstring := list char16.

(** [str] turns an ASCII literal into its code units. *)
Fixpoint str (s : string) : jsstring :=
  match s with
  | EmptyString => []
  | String c s' => N_of_ascii c :: str s'
  end.

Definition char_eqb (a b : char16) : bool := N.eqb a b.

(** Strict equality [===] of two strings. *)
Fixpoint jseqb (a b : jsstring) : bool :=
  match a, b with
  | [], [] => true
  | x :: a', y :: b' => char_eqb x y && jseqb a' b'
  | _, _ => false
  end.

(** [a.startsWith(b)] and [a.includes(b)]. *)
Fixpoint startsWith (a b : jsstring) : bool :=
  match b, a with
  | [], _ => true
  | y :: b', x :: a' => char_eqb x y && startsWith a' b'
  | _ :: _, [] => false
  end.

Fixpoint includes (a b : jsstring) : bool :=
  startsWith a b ||
  match a with
  | [] => false
  | _ :: a' => includes a' b
  end.

(** A string is truthy when it is not empty. *)
Definition truthy (s : jsstring) : bool :=
  match s with [] => false | _ :: _ => true end.

(** [String.prototype.substring] with in-range integer arguments. *)
Definition substring (s : jsstring) (from to : nat) : jsstring :=
  firstn (to - from) (skipn from s).

Definition substring_from (s : jsstring) (from : nat) : jsstring :=
  skipn from s.

(** ECMAScript WhiteSpace and LineTerminator code units, the ones that
    [trim] strips and that [\s] matches. *)
Definition is_space (c : char16) : bool :=
  ((9 <=? c) && (c <=? 13)
   || (c =? 32) || (c =? 160) || (c =? 5760)
   || ((8192 <=? c) && (c <=? 8202))
   || (c =? 8232) || (c =? 8233) || (c =? 8239) || (c =? 8287)
   || (c =? 12288) || (c =? 65279))%N.

Fixpoint trimStart (s : jsstring) : jsstring :=
  match s with
  | [] => []
  | c :: s' => if is_space c then trimStart s' else s
  end.

(** The code units of a string in reverse order, in one pass. *)
Definition reverse (s : jsstring) : jsstring := rev_append s [].

Definition trimEnd (s : jsstring) : jsstring :=
  reverse (trimStart (reverse s)).

Definition trim (s : jsstring) : jsstring := trimEnd (trimStart s).

(** [Array.prototype.join]. *)
Fixpoint join (sep : jsstring) (l : list jsstring) : jsstring :=
  match l with
  | [] => []
  | [x] => x
  | x :: l' => x ++ sep ++ join sep l'
  end.

Definition space : jsstring := [32%N].

End JsString.
Export JsString.

(** ** The sentence regular expression [/[^.!?]+[.!?]+/g] *)

Module Sentences.

Definition is_terminator (c : char16) : bool :=
  ((c =? 46) || (c =? 33) || (c =? 63))%N.

(** State of the left-to-right scan of [String.prototype.match] with the
    global flag: looking for the start of a match, inside the run
    [[^.!?]+], or inside the run [[.!?]+].  The accumulator holds the
    current match, last code unit first. *)
Inductive scan_state : Type :=
| Seeking
| InBody (acc : jsstring)
| InTerminators (acc : jsstring).

(** Both runs are greedy, and a body run that reaches the end of the text
    without a terminator matches nothing (no shorter body is followed by
    a terminator either), so the scan never backtracks. *)
Fixpoint scan (st : scan_state) (s : jsstring) : list jsstring :=
  match s with
  | [] =>
      match st with
      | InTerminators acc => [reverse acc]
      | _ => []
      end
  | c :: s' =>
      match st with
      | Seeking =>
          if is_terminator c then scan Seeking s' else scan (InBody [c]) s'
      | InBody acc =>
          if is_terminator c then scan (InTerminators (c :: acc)) s'
          else scan (InBody (c :: acc)) s'
      | InTerminators acc =>
          if is_terminator c then scan (InTerminators (c :: acc)) s'
          else reverse acc :: scan (InBody [c]) s'
      end
  end.

(** [text.match(/[^.!?]+[.!?]+/g)]: [None] is JavaScript's [null]. *)
Definition match_sentences (text : jsstring) : option (list jsstring) :=
  match scan Seeking text with
  | [] => None
  | ms => Some ms
  end.

(** [text.match(/[^.!?]+[.!?]+/g) || [text]] *)
Definition sentences (text : jsstring) : list jsstring :=
  match match_sentences text with
  | Some ms => ms
  | None => [text]
  end.

End Sentences.
Export Sentences.

(** ** [chunkText] of [src/lib/translation.ts] *)

Module Chunker.

(** One iteration of the [for (const sentence of sentences)] loop; the
    state is [(chunks, current)]. *)
Definition chunk_step (maxSize : nat) (st : list jsstring * jsstring)
    (sentence : jsstring) : list jsstring * jsstring :=
  let '(chunks, current) := st in
  if maxSize <? length (current ++ sentence) then
    if truthy current then
      (chunks ++ [trim current], sentence)
    else
      (chunks ++ [substring sentence 0 maxSize],
       substring_from sentence maxSize)
  else
    (chunks, current ++ sentence).

Definition chunk_loop (maxSize : nat) (ss : list jsstring)
    (st : list jsstring * jsstring) : list jsstring * jsstring :=
  fold_left (chunk_step maxSize) ss st.

Definition chunkText (text : jsstring) (maxSize : nat) : list jsstring :=
  let '(chunks, current) := chunk_loop maxSize (sentences text) ([], []) in
  if truthy (trim current) then chunks ++ [trim current] else chunks.

End Chunker.
Export Chunker.

(** ** Data model of [src/lib/translation.ts] and the outside world *)

Module World.

Inductive Priority : Type := high | medium | low.

(** [interface ActionItem]; [professionalType] is optional. *)
Record ActionItem : Type := mkActionItem {
  step : jsstring;
  description : jsstring;
  priority : Priority;
  professionalType : option jsstring
}.

(** A thrown [Error] object, or any other object with a [message] that
    is a string; only its [message] is ever read. *)
Record JsError : Type := mkError { message : jsstring }.

(** The two values on which reading a property throws a [TypeError]. *)
Inductive Nullish : Type :=
| js_undefined
| js_null.

(** What is thrown, or what a promise is rejected with.  The code of this
    repository and the platform under it (the engine, [JSON.parse], the
    file system, [fetch]) throw [Error] objects; a remote service may
    reject with anything: [ThrownOther] is a value other than [undefined]
    and [null] that has no [message], such as a string, so that reading
    [message] on it gives [undefined]. *)
Inductive Thrown : Type :=
| ThrownError (e : JsError)
| ThrownOther
| ThrownNullish (v : Nullish).

Coercion ThrownError : JsError >-> Thrown.

Inductive Outcome (A : Type) : Type :=
| Fulfilled (a : A)
| Rejected (e : Thrown).
Arguments Fulfilled {A} a.
Arguments Rejected {A} e.

(** The value passed as [targetLanguageCode].  The TypeScript code always
    passes a string; the earlier JavaScript code reads it from an object
    literal with a caller-chosen key, so it may be [undefined] or a
    property inherited from [Object.prototype]. *)
Inductive LangValue : Type :=
| LangString (s : jsstring)
| LangUndefined
| LangInherited (name : jsstring).

(** The argument of [translationClient.translateText]. *)
Record TranslateRequest : Type := mkTranslateRequest {
  parent : jsstring;
  contents : list jsstring;
  mimeType : jsstring;
  sourceLanguageCode : jsstring;
  targetLanguageCode : LangValue
}.

(** What reading and parsing the PDF gives: a thrown error, or [data.text]
    (the empty string also stands for an absent [text]; both are falsy). *)
Inductive PdfResponse : Type :=
| PdfThrows (e : Thrown)
| PdfData (text : jsstring).

(** What [generateContent] followed by [response.text()] gives. *)
Inductive GeminiResponse : Type :=
| GeminiRejects (e : Thrown)
| GeminiText (raw : jsstring).

(** What [translateText] of the client gives: a rejection, or a response
    whose [translations] carry their [translatedText] (the empty string
    also stands for an absent [translatedText]; both are falsy). *)
Inductive TranslateResponse : Type :=
| TranslateRejects (e : Thrown)
| TranslateReplies (translations : list jsstring).

(** One call that leaves the pipeline, with the answer it got. *)
Inductive Event : Type :=
| EvExtract (pdfPath : jsstring) (r : PdfResponse)
| EvGenerate (prompt : jsstring) (r : GeminiResponse)
| EvTranslate (req : TranslateRequest) (r : TranslateResponse).

(** Calls in the order in which they were issued, oldest first. *)
Definition Trace := list Event.

(** [JSON.parse(raw) as LLMOutput] before validation: [parsed_summary] is
    empty when the property is absent, [parsed_actionPlan] is [None] when
    the property is not an array. *)
Record ParsedJson : Type := mkParsedJson {
  parsed_summary : jsstring;
  parsed_actionPlan : option (list ActionItem)
}.

(** Everything the code takes from outside: the remote services (their
    answer may depend on all earlier calls), the clock, the environment
    variable, and the built-ins of the JavaScript engine that are not
    spelled out here. *)
Record Env : Type := mkEnv {
  pdf_parse : Trace -> jsstring -> PdfResponse;
  generateContent : Trace -> jsstring -> GeminiResponse;
  translate_api : Trace -> TranslateRequest -> TranslateResponse;
  toISOString_now : Trace -> jsstring;
  GOOGLE_CLOUD_PROJECT_ID : jsstring;
  toLowerCase : jsstring -> jsstring;
  JSON_parse : jsstring -> JsError + ParsedJson;
  TypeError_message : jsstring;
  (** among the rejections of one [Promise.all], listed by position, the
      index of the one that settles first *)
  settles_first : list Thrown -> nat;
  (** the message of the [TypeError] that reading [message] on
      [undefined] or on [null] throws *)
  TypeError_reading_message : Nullish -> jsstring;
  (** the order that [Array.prototype.sort] gives when its comparator is
      not consistent, which the language leaves to the engine: for the
      keys and the counts of the entries ([None] for a value that is not
      a number), the positions to take, one after the other, among the
      entries that are left *)
  sort_choices : list (jsstring * option nat) -> list nat
}.

(** A translation call that the service rejected. *)
Definition translation_rejected (ev : Event) : bool :=
  match ev with
  | EvTranslate _ (TranslateRejects _) => true
  | _ => false
  end.

Definition is_translate (ev : Event) : bool :=
  match ev with EvTranslate _ _ => true | _ => false end.

Definition is_generate (ev : Event) : bool :=
  match ev with EvGenerate _ _ => true | _ => false end.

Definition is_extract (ev : Event) : bool :=
  match ev with EvExtract _ _ => true | _ => false end.

End World.
Export World.

(** ** Asynchronous computations *)

Module Async.

(** An [async] computation reads the calls made so far, may add calls,
    and is fulfilled or rejected. *)
Definition M (A : Type) : Type := Trace -> Trace * Outcome A.

Definition ret {A} (a : A) : M A := fun h => (h, Fulfilled a).

Definition throw {A} (e : Thrown) : M A := fun h => (h, Rejected e).

(** [await m] followed by the rest of the function body. *)
Definition bind {A B} (m : M A) (k : A -> M B) : M B :=
  fun h =>
    match m h with
    | (h1, Fulfilled a) => k a h1
    | (h1, Rejected e) => (h1, Rejected e)
    end.

(** [try { m } catch (error) { handler error }] *)
Definition try_catch {A} (m : M A) (handler : Thrown -> M A) : M A :=
  fun h =>
    match m h with
    | (h1, Fulfilled a) => (h1, Fulfilled a)
    | (h1, Rejected e) => handler e h1
    end.

Declare Scope async_scope.
Delimit Scope async_scope with async.
Notation "x <- m ;; k" := (bind m (fun x => k))
  (at level 100, m at next level, right associativity) : async_scope.
Notation "' p <- m ;; k" := (bind m (fun x => let p := x in k))
  (at level 100, p pattern, m at next level, right associativity)
  : async_scope.
Open Scope async_scope.

(** Calling the async functions of a list one after the other without
    awaiting: each call issues its remote requests before it first
    suspends, so the requests appear in list order whatever the
    outcomes. *)
Fixpoint start_all {A} (ms : list (M A)) (h : Trace)
  : Trace * list (Outcome A) :=
  match ms with
  | [] => (h, [])
  | m :: ms' =>
      let '(h1, o) := m h in
      let '(h2, os) := start_all ms' h1 in
      (h2, o :: os)
  end.

Fixpoint rejections {A} (os : list (Outcome A)) : list Thrown :=
  match os with
  | [] => []
  | Fulfilled _ :: os' => rejections os'
  | Rejected e :: os' => e :: rejections os'
  end.

Fixpoint values {A} (os : list (Outcome A)) : list A :=
  match os with
  | [] => []
  | Fulfilled a :: os' => a :: values os'
  | Rejected _ :: os' => values os'
  end.

(** The rejection, among [e :: es], that settles first. *)
Definition first_rejection (env : Env) (e : Thrown) (es : list Thrown)
  : Thrown :=
  nth (settles_first env (e :: es)) (e :: es) e.

(** The promise returned by [Promise.all]: the values by position when
    every promise is fulfilled, otherwise the rejection that settles
    first. *)
Definition settle_all (env : Env) {A} (os : list (Outcome A))
  : Outcome (list A) :=
  match rejections os with
  | [] => Fulfilled (values os)
  | e :: es => Rejected (first_rejection env e es)
  end.

Definition Promise_all (env : Env) {A} (ms : list (M A)) : M (list A) :=
  fun h => let '(h1, os) := start_all ms h in (h1, settle_all env os).

(** [Promise.all([a, b])] with a destructuring of the two results. *)
Definition Promise_all2 (env : Env) {A B} (ma : M A) (mb : M B)
  : M (A * B) :=
  fun h =>
    let '(h1, oa) := ma h in
    let '(h2, ob) := mb h1 in
    (h2,
     match oa, ob with
     | Fulfilled a, Fulfilled b => Fulfilled (a, b)
     | Rejected ea, Fulfilled _ => Rejected (first_rejection env ea [])
     | Fulfilled _, Rejected eb => Rejected (first_rejection env eb [])
     | Rejected ea, Rejected eb => Rejected (first_rejection env ea [eb])
     end).

(** The three calls that leave the process. *)
Definition call_pdf (env : Env) (pdfPath : jsstring) : M jsstring :=
  fun h =>
    let r := pdf_parse env h pdfPath in
    (h ++ [EvExtract pdfPath r],
     match r with
     | PdfThrows e => Rejected e
     | PdfData text => Fulfilled text
     end).

Definition call_gemini (env : Env) (prompt : jsstring) : M jsstring :=
  fun h =>
    let r := generateContent env h prompt in
    (h ++ [EvGenerate prompt r],
     match r with
     | GeminiRejects e => Rejected e
     | GeminiText raw => Fulfilled raw
     end).

Definition call_translate (env : Env) (req : TranslateRequest)
  : M (list jsstring) :=
  fun h =>
    let r := translate_api env h req in
    (h ++ [EvTranslate req r],
     match r with
     | TranslateRejects e => Rejected e
     | TranslateReplies ts => Fulfilled ts
     end).

(** [new Date().toISOString()] *)
Definition now (env : Env) : M jsstring :=
  fun h => (h, Fulfilled (toISOString_now env h)).

(** [error.message] in a [catch] block, where [error] is whatever was
    thrown; [None] is [undefined].  On [undefined] and on [null] the read
    itself throws. *)
Definition read_message (env : Env) (error : Thrown) : M (option jsstring) :=
  match error with
  | ThrownError e => ret (Some (message e))
  | ThrownOther => ret None
  | ThrownNullish v => throw (mkError (TypeError_reading_message env v))
  end.

(** [m || d] for a message read so. *)
Definition or_default (m : option jsstring) (d : jsstring) : jsstring :=
  match m with
  | Some s => if truthy s then s else d
  | None => d
  end.

(** A message read so and stored in a property, where the empty string
    also stands for an absent value; both are falsy. *)
Definition or_absent (m : option jsstring) : jsstring :=
  match m with
  | Some s => s
  | None => []
  end.

(** A message read so inside a template literal. *)
Definition in_template (m : option jsstring) : jsstring :=
  match m with
  | Some s => s
  | None => str "undefined"
  end.

End Async.
Export Async.

(** ** [src/lib/languages.ts] *)

Module Languages.

Record LanguageConfig : Type := mkLanguageConfig {
  key : jsstring;
  label : jsstring;
  code : jsstring;
  flag : jsstring
}.

(** The flags are pairs of regional-indicator symbols, two surrogate pairs
    each. *)
Definition SUPPORTED_LANGUAGES : list LanguageConfig :=
  [ mkLanguageConfig (str "spanish") (str "Spanish") (str "es")
      [55356; 56810; 55356; 56824]%N;
    mkLanguageConfig (str "french") (str "French") (str "fr")
      [55356; 56811; 55356; 56823]%N;
    mkLanguageConfig (str "mandarin") (str "Mandarin") (str "zh-CN")
      [55356; 56808; 55356; 56819]%N ].

(** [SUPPORTED_LANGUAGES.find(l => l.key === key.toLowerCase())?.code] *)
Definition getLanguageCode (env : Env) (k : jsstring) : option jsstring :=
  option_map code
    (find (fun l => jseqb (key l) (toLowerCase env k)) SUPPORTED_LANGUAGES).

Definition VALID_LANGUAGE_KEYS : list jsstring := map key SUPPORTED_LANGUAGES.

Definition MAX_FILE_SIZE_BYTES : N := (10 * 1024 * 1024)%N.

(** The ASCII part of [String.prototype.toLowerCase]: on a string of
    ASCII code units the built-in does exactly this. *)
Definition toLowerCase_ascii (s : jsstring) : jsstring :=
  map (fun c => if ((65 <=? c) && (c <=? 90))%N then (c + 32)%N else c) s.

End Languages.
Export Languages.

(** ** [src/lib/translation.ts] *)

Module TranslationTs.

Definition GCP_LOCATION : jsstring := str "global".

(** [process.env.GOOGLE_CLOUD_PROJECT_ID || ''] *)
Definition GCP_PROJECT_ID (env : Env) : jsstring :=
  GOOGLE_CLOUD_PROJECT_ID env.

Record ProcessingResult : Type := mkProcessingResult {
  translatedSummary : jsstring;
  actionPlan : list ActionItem;
  targetLanguage : jsstring;
  summaryLength : nat;
  originalLength : nat;
  timestamp : jsstring
}.

Record ProcessingError : Type := mkProcessingError {
  error : jsstring;
  error_timestamp : jsstring
}.

(** [type ProcessingOutput = ProcessingResult | ProcessingError] *)
Inductive ProcessingOutput : Type :=
| Success (r : ProcessingResult)
| Failure (e : ProcessingError).

(** The [success] field of either variant. *)
Definition success (o : ProcessingOutput) : bool :=
  match o with
  | Success _ => true
  | Failure _ => false
  end.

(** *** 1. PDF text extraction *)

Definition extractTextFromPDF (env : Env) (pdfPath : jsstring) : M jsstring :=
  text <- call_pdf env pdfPath ;;
  if negb (truthy text) || (length (trim text) =? 0) then
    throw (mkError (str
      "No text could be extracted from this PDF. It may be scanned image-only."))
  else ret text.

(** *** 2. Translation, with chunking for large texts *)

Definition MAX_TRANSLATE_CHUNK : nat := 25000.

(** The request object built by the inner [translate] closure. *)
Definition translate_request (env : Env)
    (targetLangCode sourceLangCode content : jsstring) : TranslateRequest :=
  mkTranslateRequest
    (str "projects/" ++ GCP_PROJECT_ID env ++ str "/locations/"
       ++ GCP_LOCATION)
    [content] (str "text/plain") sourceLangCode (LangString targetLangCode).

(** The inner [translate] closure of [translateText]. *)
Definition translate (env : Env) (targetLangCode sourceLangCode : jsstring)
    (content : jsstring) : M jsstring :=
  translations <- call_translate env
    (translate_request env targetLangCode sourceLangCode content) ;;
  match translations with
  | [] => throw (mkError (TypeError_message env))
  | translatedText :: _ =>
      if negb (truthy translatedText) then
        throw (mkError (str "Translation API returned empty result"))
      else ret translatedText
  end.

Definition translateText (env : Env) (text targetLangCode : jsstring)
    (sourceLangCode : jsstring) : M jsstring :=
  if length text <=? MAX_TRANSLATE_CHUNK then
    translate env targetLangCode sourceLangCode text
  else
    let chunks := chunkText text MAX_TRANSLATE_CHUNK in
    translated <-
      Promise_all env (map (translate env targetLangCode sourceLangCode) chunks) ;;
    ret (join space translated).

(** The default value of [sourceLangCode]. *)
Definition en : jsstring := str "en".

(** *** 3. Summary and action plan from the model *)

Record LLMOutput : Type := mkLLMOutput {
  summary : jsstring;
  llm_actionPlan : list ActionItem
}.

Definition nl : jsstring := [10%N].
Definition dq : jsstring := [34%N].
Definition em_dash : jsstring := [8212%N].
Definition en_dash : jsstring := [8211%N].

(** A template line [  "name": "value"] followed by [tail]. *)
Definition field (indent name value tail : string) : jsstring :=
  str indent ++ dq ++ str name ++ dq ++ str ": " ++ dq ++ str value ++ dq
    ++ str tail.

Definition prompt_head : list jsstring :=
  [ str "You are helping immigrants and English-as-a-second-language users understand important legal and medical documents.";
    [];
    str "Analyze the following document text and respond with a valid JSON object in this exact shape:";
    [];
    str "{";
    str "  " ++ dq ++ str "summary" ++ dq ++ str ": " ++ dq
      ++ str "<a clear, plain-English summary of the document highlighting the most important facts, dates, deadlines, amounts, and obligations "
      ++ em_dash
      ++ str " written so someone unfamiliar with legal/medical jargon can understand it>"
      ++ dq ++ str ",";
    str "  " ++ dq ++ str "actionPlan" ++ dq ++ str ": [";
    str "    {";
    field "      " "step" "<short title for this action>" ",";
    field "      " "description"
      "<specific, actionable description referencing concrete details from the document>"
      ",";
    field "      " "priority" "<high | medium | low>" ",";
    field "      " "professionalType"
      "<the type of professional who could help with this step, or null if none needed>"
      "";
    str "    }";
    str "  ]";
    str "}";
    [];
    str "Rules:";
    str "- The summary must be 150" ++ en_dash ++ str "400 words.";
    str "- The action plan must have 3" ++ en_dash
      ++ str "5 items, ordered by priority (high first).";
    str "- Reference specific details from the document (dates, dollar amounts, names, deadlines).";
    str "- Use simple, clear language. Avoid jargon.";
    str "- professionalType should be one of: immigration_lawyer, tax_advisor, medical_interpreter, housing_advisor, family_law_attorney, benefits_counselor, or null.";
    [];
    str "Document text:";
    str "---" ].

Definition make_prompt (fullText : jsstring) : jsstring :=
  join nl (prompt_head ++ [fullText; str "---"]).

Definition generateSummaryAndActions (env : Env) (fullText : jsstring)
  : M LLMOutput :=
  raw <- call_gemini env (make_prompt fullText) ;;
  if negb (truthy raw) then
    throw (mkError (str "Gemini returned an empty response"))
  else
    match JSON_parse env raw with
    | inl e => throw e
    | inr parsed =>
        if negb (truthy (parsed_summary parsed)) then
          throw (mkError (str "Gemini returned an unexpected shape"))
        else
          match parsed_actionPlan parsed with
          | Some plan => ret (mkLLMOutput (parsed_summary parsed) plan)
          | None => throw (mkError (str "Gemini returned an unexpected shape"))
          end
    end.

(** *** 4. Translation of the action plan *)

(** The body of the [async (item) => ...] callback. *)
Definition translateItem (env : Env) (targetLangCode : jsstring)
    (item : ActionItem) : M ActionItem :=
  ' (translatedStep, translatedDesc) <-
     Promise_all2 env
       (translateText env (step item) targetLangCode en)
       (translateText env (description item) targetLangCode en) ;;
  ret (mkActionItem translatedStep translatedDesc
         (priority item) (professionalType item)).

Definition translateActionPlan (env : Env) (plan : list ActionItem)
    (targetLangCode : jsstring) : M (list ActionItem) :=
  Promise_all env (map (translateItem env targetLangCode) plan).

(** *** 5. The orchestrator *)

(** The body of the [try] block. *)
Definition processPDFDocument_body (env : Env)
    (pdfPath targetLang : jsstring) : M ProcessingOutput :=
  match getLanguageCode env targetLang with
  | None => throw (mkError (str "Unsupported language: " ++ targetLang))
  | Some langCode =>
      if negb (truthy langCode) then
        throw (mkError (str "Unsupported language: " ++ targetLang))
      else
        fullText <- extractTextFromPDF env pdfPath ;;
        out <- generateSummaryAndActions env fullText ;;
        ' (translatedSummary, translatedActions) <-
           Promise_all2 env
             (translateText env (summary out) langCode en)
             (translateActionPlan env (llm_actionPlan out) langCode) ;;
        stamp <- now env ;;
        ret (Success (mkProcessingResult translatedSummary translatedActions
                        targetLang (length translatedSummary)
                        (length fullText) stamp))
  end.

Definition processPDFDocument (env : Env) (pdfPath targetLang : jsstring)
  : M ProcessingOutput :=
  try_catch (processPDFDocument_body env pdfPath targetLang)
    (fun error =>
       msg <- read_message env error ;;
       stamp <- now env ;;
       ret (Failure (mkProcessingError
              (or_default msg
                 (str "An unexpected error occurred during processing"))
              stamp))).

End TranslationTs.

(** ** [src/lib/translation.js], the earlier pipeline *)

Module TranslationJs.

(** The object literal [SUPPORTED_LANGUAGES]. *)
Definition SUPPORTED_LANGUAGES : list (jsstring * jsstring) :=
  [ (str "spanish", str "es");
    (str "french", str "fr");
    (str "mandarin", str "zh-CN") ].

(** Property names that every object inherits from [Object.prototype]. *)
Definition Object_prototype_functions : list jsstring :=
  [ str "constructor"; str "hasOwnProperty"; str "isPrototypeOf";
    str "propertyIsEnumerable"; str "toLocaleString"; str "toString";
    str "valueOf"; str "__defineGetter__"; str "__defineSetter__";
    str "__lookupGetter__"; str "__lookupSetter__" ].

Definition proto_name : jsstring := str "__proto__".

Definition mem (w : jsstring) (l : list jsstring) : bool :=
  existsb (jseqb w) l.

Fixpoint assoc {V} (l : list (jsstring * V)) (k : jsstring) : option V :=
  match l with
  | [] => None
  | (k', v) :: l' => if jseqb k' k then Some v else assoc l' k
  end.

(** [SUPPORTED_LANGUAGES[k]] *)
Definition lookup_language (k : jsstring) : LangValue :=
  match assoc SUPPORTED_LANGUAGES k with
  | Some c => LangString c
  | None =>
      if mem k Object_prototype_functions || jseqb k proto_name
      then LangInherited k
      else LangUndefined
  end.

(** Truthiness of a looked-up value. *)
Definition lang_truthy (v : LangValue) : bool :=
  match v with
  | LangString s => truthy s
  | LangUndefined => false
  | LangInherited _ => true
  end.

Definition projectId (env : Env) : jsstring :=
  if truthy (GOOGLE_CLOUD_PROJECT_ID env) then GOOGLE_CLOUD_PROJECT_ID env
  else str "your-project-id".

Definition location : jsstring := str "global".

Definition extractTextFromPDF (env : Env) (pdfPath : jsstring) : M jsstring :=
  try_catch (call_pdf env pdfPath)
    (fun error =>
       msg <- read_message env error ;;
       throw (mkError (str "Failed to extract text from PDF: "
                         ++ in_template msg))).

(** This file's [chunkText] pushes the last buffer whenever it is not
    empty, without looking at what [trim] leaves. *)
Definition chunkText (text : jsstring) (maxSize : nat) : list jsstring :=
  let '(chunks, currentChunk) :=
    chunk_loop maxSize (sentences text) ([], []) in
  if truthy currentChunk then chunks ++ [trim currentChunk] else chunks.

Definition maxChunkSize : nat := 25000.

Definition request (text : jsstring) (targetLanguage : LangValue)
    (sourceLanguage : jsstring) (env : Env) : TranslateRequest :=
  mkTranslateRequest
    (str "projects/" ++ projectId env ++ str "/locations/" ++ location)
    [text] (str "text/plain") sourceLanguage targetLanguage.

(** [response.translations[0].translatedText], returned unchecked. *)
Definition first_translatedText (env : Env) (translations : list jsstring)
  : M jsstring :=
  match translations with
  | [] => throw (mkError (TypeError_message env))
  | translatedText :: _ => ret translatedText
  end.

(** The [for (const chunk of chunks)] loop: one awaited call after the
    other. *)
Fixpoint translate_chunks (env : Env) (targetLanguage : LangValue)
    (sourceLanguage : jsstring) (chunks : list jsstring)
  : M (list jsstring) :=
  match chunks with
  | [] => ret []
  | chunk :: rest =>
      translations <-
        call_translate env (request chunk targetLanguage sourceLanguage env) ;;
      t <- first_translatedText env translations ;;
      ts <- translate_chunks env targetLanguage sourceLanguage rest ;;
      ret (t :: ts)
  end.

Definition translateText (env : Env) (text : jsstring)
    (targetLanguage : LangValue) (sourceLanguage : jsstring) : M jsstring :=
  try_catch
    (if length text <=? maxChunkSize then
       translations <-
         call_translate env (request text targetLanguage sourceLanguage env) ;;
       first_translatedText env translations
     else
       translatedChunks <-
         translate_chunks env targetLanguage sourceLanguage
           (chunkText text maxChunkSize) ;;
       ret (join space translatedChunks))
    (fun error =>
       msg <- read_message env error ;;
       throw (mkError (str "Translation failed: " ++ in_template msg))).

(** [text.replace(/\s+/g, ' ')]; [in_run] tells that the previous code
    unit was white space. *)
Fixpoint collapse_spaces (in_run : bool) (s : jsstring) : jsstring :=
  match s with
  | [] => []
  | c :: s' =>
      if is_space c then
        if in_run then collapse_spaces true s'
        else 32%N :: collapse_spaces true s'
      else c :: collapse_spaces false s'
  end.

(** The loop of [summarizeText], which stops at the first sentence that
    does not fit. *)
Fixpoint summarize_loop (maxLength : nat) (ss : list jsstring)
    (summary : jsstring) : jsstring :=
  match ss with
  | [] => summary
  | sentence :: ss' =>
      let trimmedSentence := trim sentence in
      if maxLength <? length (summary ++ trimmedSentence) then summary
      else summarize_loop maxLength ss' (summary ++ trimmedSentence ++ space)
  end.

Definition summarizeText (text : jsstring) (maxLength : nat) : jsstring :=
  let cleanText := trim (collapse_spaces false text) in
  let summary := summarize_loop maxLength (sentences cleanText) [] in
  let summary :=
    if (length summary <? 100) && (100 <? length cleanText) then
      substring cleanText 0 maxLength ++ str "..."
    else summary in
  trim summary.

Definition commonWords : list jsstring :=
  [ str "the"; str "a"; str "an"; str "and"; str "or"; str "but";
    str "in"; str "on"; str "at"; str "to"; str "for"; str "of";
    str "with"; str "by"; str "from"; str "as"; str "is"; str "was";
    str "are"; str "were"; str "be"; str "been"; str "being"; str "have";
    str "has"; str "had"; str "do"; str "does"; str "did"; str "will";
    str "would"; str "should"; str "could"; str "may"; str "might"; str "must";
    str "can"; str "this"; str "that"; str "these"; str "those"; str "i";
    str "you"; str "he"; str "she"; str "it"; str "we"; str "they" ].

(** [\w] *)
Definition is_word (c : char16) : bool :=
  ((48 <=? c) && (c <=? 57) || (65 <=? c) && (c <=? 90) || (c =? 95)
   || (97 <=? c) && (c <=? 122))%N.

(** [s.split(/\s+/)]; [cur] is the piece being read, last code unit
    first, [in_sep] tells that the previous code unit was white space. *)
Fixpoint split_spaces (cur : jsstring) (in_sep : bool) (s : jsstring)
  : list jsstring :=
  match s with
  | [] => [reverse cur]
  | c :: s' =>
      if is_space c then
        if in_sep then split_spaces [] true s'
        else reverse cur :: split_spaces [] true s'
      else split_spaces (c :: cur) false s'
  end.

(** A value of [wordCount]: a number, or what [+ 1] makes of an inherited
    function (a string, on which the comparator of [sort] gives [NaN]). *)
Inductive Tally : Type :=
| Count (n : nat)
| NotNumber.

(** [wordCount[word] = (wordCount[word] || 0) + 1] on the own properties
    of [wordCount], in insertion order.  Assigning a string to
    [__proto__] changes nothing. *)
Fixpoint bump (wordCount : list (jsstring * Tally)) (word : jsstring)
  : list (jsstring * Tally) :=
  match wordCount with
  | [] =>
      if mem word Object_prototype_functions then [(word, NotNumber)]
      else [(word, Count 1)]
  | (w, t) :: rest =>
      if jseqb w word then
        (w, match t with Count n => Count (n + 1) | NotNumber => NotNumber end)
          :: rest
      else (w, t) :: bump rest word
  end.

Definition count_word (wordCount : list (jsstring * Tally))
    (word : jsstring) : list (jsstring * Tally) :=
  if jseqb word proto_name then wordCount else bump wordCount word.

Definition is_digit (c : char16) : bool := ((48 <=? c) && (c <=? 57))%N.

Definition digits_value (w : jsstring) : N :=
  fold_left (fun acc c => (10 * acc + (c - 48))%N) w 0%N.

(** An array index: a canonical decimal numeral below [2^32 - 1]. *)
Definition is_array_index (w : jsstring) : bool :=
  match w with
  | [] => false
  | c :: rest =>
      forallb is_digit w
      && (negb (c =? 48)%N || negb (truthy rest))
      && (length w <=? 10)
      && (digits_value w <=? 4294967294)%N
  end.

Fixpoint insert_index {V} (x : jsstring * V) (l : list (jsstring * V))
  : list (jsstring * V) :=
  match l with
  | [] => [x]
  | y :: l' =>
      if (digits_value (fst x) <? digits_value (fst y))%N then x :: l
      else y :: insert_index x l'
  end.

(** [Object.entries]: array-index keys in ascending order first, then the
    other keys in insertion order. *)
Definition Object_entries {V} (o : list (jsstring * V))
  : list (jsstring * V) :=
  fold_left (fun acc x => insert_index x acc)
    (filter (fun x => is_array_index (fst x)) o) []
  ++ filter (fun x => negb (is_array_index (fst x))) o.

(** [b[1] - a[1] > 0]; the difference is [NaN] when either side is not a
    number, and [sort] then reads it as zero. *)
Definition sorts_after (a b : jsstring * Tally) : bool :=
  match snd a, snd b with
  | Count na, Count nb => na <? nb
  | _, _ => false
  end.

Fixpoint insert_entry (x : jsstring * Tally) (l : list (jsstring * Tally))
  : list (jsstring * Tally) :=
  match l with
  | [] => [x]
  | y :: l' => if sorts_after y x then x :: l else y :: insert_entry x l'
  end.

(** Taking the entries one after the other at the positions that
    [choices] gives, each position counted among the entries that are
    left: whatever the choices, the result has the entries of [l], each
    once. *)
Fixpoint take_in_order {X} (fuel : nat) (choices : list nat) (l : list X)
  : list X :=
  match fuel, l with
  | S fuel', x :: _ =>
      let i := hd 0 choices mod length l in
      nth i l x
        :: take_in_order fuel' (tl choices) (firstn i l ++ skipn (S i) l)
  | _, _ => []
  end.

Definition tally_number (t : Tally) : option nat :=
  match t with
  | Count n => Some n
  | NotNumber => None
  end.

(** Whether [(a, b) => b[1] - a[1]] is a consistent comparator on the
    entries: it is when every value is a number, and when the values that
    are numbers are all the same (every difference is then zero or [NaN],
    which [sort] reads as zero).  Otherwise an entry that is not a number
    compares equal to two entries that differ. *)
Definition consistent (l : list (jsstring * Tally)) : bool :=
  forallb (fun x => match snd x with Count _ => true | NotNumber => false end)
    l
  || match flat_map (fun x => match snd x with
                              | Count n => [n]
                              | NotNumber => []
                              end) l with
     | [] => true
     | n :: ns => forallb (Nat.eqb n) ns
     end.

(** [entries.sort((a, b) => b[1] - a[1])]: a stable sort by falling count
    when the comparator is consistent; otherwise the order is the
    engine's, some arrangement of the same entries. *)
Definition sort_entries (env : Env) (l : list (jsstring * Tally))
  : list (jsstring * Tally) :=
  if consistent l then fold_left (fun acc x => insert_entry x acc) l []
  else
    take_in_order (length l)
      (sort_choices env (map (fun x => (fst x, tally_number (snd x))) l)) l.

Definition extractKeyTerms (env : Env) (text : jsstring) : list jsstring :=
  let words :=
    filter (fun word => (3 <? length word) && negb (mem word commonWords))
      (split_spaces [] false
         (map (fun c => if is_word c || is_space c then c else 32%N)
            (toLowerCase env text))) in
  let wordCount := fold_left count_word words [] in
  map fst (firstn 10 (sort_entries env (Object_entries wordCount))).

Inductive DocType : Type :=
| legal | report | financial | proposal | policy | meeting | research
| general.

Definition detectDocumentType (env : Env) (text : jsstring) : DocType :=
  let lowerText := toLowerCase env text in
  if includes lowerText (str "agreement") || includes lowerText (str "contract")
  then legal
  else if includes lowerText (str "report") || includes lowerText (str "analysis")
  then report
  else if includes lowerText (str "invoice") || includes lowerText (str "payment")
  then financial
  else if includes lowerText (str "proposal")
          || includes lowerText (str "recommendation")
  then proposal
  else if includes lowerText (str "policy") || includes lowerText (str "procedure")
  then policy
  else if includes lowerText (str "minutes") || includes lowerText (str "meeting")
  then meeting
  else if includes lowerText (str "research") || includes lowerText (str "study")
  then research
  else general.

(** The action items of this file have no [professionalType]. *)
Record ActionItem : Type := mkActionItem {
  step : jsstring;
  description : jsstring;
  priority : Priority
}.

(** The [switch (docType)] of [generateActionPlan]; [terms] is
    [keyTerms.slice(0, 3).join(', ')]. *)
Definition plan_template (docType : DocType) (terms : jsstring)
  : list ActionItem :=
  match docType with
  | legal =>
      [ mkActionItem (str "Review legal terms and obligations")
          (str "Carefully examine all contractual obligations, deadlines, and legal requirements mentioned in the document. Pay special attention to terms related to: "
             ++ terms ++ str ".")
          high;
        mkActionItem (str "Consult with legal counsel")
          (str "Schedule a meeting with your legal team to discuss implications and ensure full understanding of all clauses before proceeding.")
          high;
        mkActionItem (str "Create compliance checklist")
          (str "Develop a detailed checklist of all requirements and deadlines to ensure nothing is missed during implementation.")
          medium ]
  | financial =>
      [ mkActionItem (str "Verify all financial figures")
          (str "Cross-check all amounts, calculations, and financial data for accuracy. Focus on items related to: "
             ++ terms ++ str ".")
          high;
        mkActionItem (str "Process payment or billing")
          (str "Initiate necessary payment procedures or update accounting records according to the document details.")
          high;
        mkActionItem (str "Archive for record-keeping")
          (str "File the document in your financial records system and set reminders for any recurring payments or reviews.")
          medium ]
  | report =>
      [ mkActionItem (str "Analyze key findings and data")
          (str "Review the main conclusions and data points, especially those concerning: "
             ++ terms ++ str ". Identify trends and patterns.")
          high;
        mkActionItem (str "Share with relevant stakeholders")
          (str "Distribute the report to team members and departments who need to be informed of these findings.")
          medium;
        mkActionItem (str "Develop action items from recommendations")
          (str "Create specific tasks based on the report recommendations and assign responsibilities with deadlines.")
          medium ]
  | proposal =>
      [ mkActionItem (str "Evaluate proposal feasibility")
          (str "Assess the viability and resource requirements of the proposed ideas, particularly regarding: "
             ++ terms ++ str ".")
          high;
        mkActionItem (str "Gather stakeholder feedback")
          (str "Present the proposal to key decision-makers and collect their input, concerns, and suggestions.")
          high;
        mkActionItem (str "Create implementation roadmap")
          (str "If approved, develop a detailed timeline and resource allocation plan for executing the proposal.")
          medium ]
  | policy =>
      [ mkActionItem (str "Understand policy requirements")
          (str "Thoroughly review all policy guidelines and requirements, especially those related to: "
             ++ terms ++ str ".")
          high;
        mkActionItem (str "Communicate to affected parties")
          (str "Inform all employees or individuals affected by this policy and provide necessary training or guidance.")
          high;
        mkActionItem (str "Implement compliance measures")
          (str "Set up systems and processes to ensure ongoing compliance with the policy requirements.")
          medium ]
  | meeting =>
      [ mkActionItem (str "Follow up on action items")
          (str "Review all assigned tasks from the meeting and send reminders to responsible parties. Priority topics include: "
             ++ terms ++ str ".")
          high;
        mkActionItem (str "Distribute meeting minutes")
          (str "Share the meeting summary with all attendees and relevant stakeholders who were unable to attend.")
          medium;
        mkActionItem (str "Schedule follow-up meeting")
          (str "If needed, schedule a follow-up session to track progress on decisions and action items.")
          low ]
  | research =>
      [ mkActionItem (str "Validate research methodology")
          (str "Review the research approach and data collection methods. Consider implications for: "
             ++ terms ++ str ".")
          high;
        mkActionItem (str "Apply findings to current work")
          (str "Identify how the research conclusions can be integrated into ongoing projects or inform future decisions.")
          medium;
        mkActionItem (str "Share insights with team")
          (str "Present relevant findings to your team and discuss potential applications or further research needs.")
          medium ]
  | general =>
      [ mkActionItem (str "Review complete document thoroughly")
          (str "Read through the entire document carefully, paying attention to sections about: "
             ++ terms ++ str ". Note any questions or unclear points.")
          high;
        mkActionItem (str "Identify key stakeholders")
          (str "Determine who needs to be informed or consulted about this document and reach out to them promptly.")
          medium;
        mkActionItem (str "Take required actions")
          (str "Complete any tasks, decisions, or responses indicated in the document within specified timeframes.")
          medium ]
  end.

(** The plan returned by the [catch] block of [generateActionPlan]. *)
Definition fallback_plan : list ActionItem :=
  [ mkActionItem (str "Review the full document")
      (str "Read through the complete document to understand all details and context.")
      high;
    mkActionItem (str "Identify key stakeholders")
      (str "Determine who needs to be informed or involved based on the document content.")
      medium;
    mkActionItem (str "Create implementation timeline")
      (str "Develop a timeline for any actions or decisions mentioned in the document.")
      medium ].

(** The [for (let action of actionPlan)] loop: two awaited translations
    per item, items one after the other. *)
Fixpoint translate_actions (env : Env) (langCode : LangValue)
    (plan : list ActionItem) : M (list ActionItem) :=
  match plan with
  | [] => ret []
  | action :: rest =>
      s <- translateText env (step action) langCode (str "en") ;;
      d <- translateText env (description action) langCode (str "en") ;;
      rest' <- translate_actions env langCode rest ;;
      ret (mkActionItem s d (priority action) :: rest')
  end.

Definition generateActionPlan (env : Env) (summary targetLanguage : jsstring)
    (fullText : jsstring) : M (list ActionItem) :=
  try_catch
    (let docType :=
       detectDocumentType env (if truthy fullText then fullText else summary) in
     let keyTerms := extractKeyTerms env summary in
     let actionPlan :=
       plan_template docType (join (str ", ") (firstn 3 keyTerms)) in
     if negb (jseqb targetLanguage (str "en")) then
       let langCode := lookup_language targetLanguage in
       translate_actions env langCode actionPlan
     else ret actionPlan)
    (fun _ => ret fallback_plan).

Record Options : Type := mkOptions {
  opt_summaryLength : nat;
  opt_sourceLanguage : jsstring
}.

(** [options = {}] with the defaults of the destructuring. *)
Definition default_options : Options := mkOptions 1000 (str "en").

Record ProcessingResult : Type := mkProcessingResult {
  originalText : jsstring;
  originalLength : nat;
  summary : jsstring;
  summaryLength : nat;
  translatedSummary : jsstring;
  actionPlan : list ActionItem;
  targetLanguage : jsstring;
  languageCode : LangValue;
  timestamp : jsstring
}.

Record ProcessingError : Type := mkProcessingError {
  error : jsstring;
  error_timestamp : jsstring
}.

Inductive ProcessingOutput : Type :=
| Success (r : ProcessingResult)
| Failure (e : ProcessingError).

Definition success (o : ProcessingOutput) : bool :=
  match o with
  | Success _ => true
  | Failure _ => false
  end.

Definition processPDFDocument (env : Env) (pdfPath targetLang : jsstring)
    (options : Options) : M ProcessingOutput :=
  try_catch
    (let langCode := lookup_language (toLowerCase env targetLang) in
     if negb (lang_truthy langCode) then
       throw (mkError (str "Unsupported language: " ++ targetLang
                ++ str ". Supported languages: spanish, french, mandarin"))
     else
       fullText <- extractTextFromPDF env pdfPath ;;
       if negb (truthy fullText) || (length (trim fullText) =? 0) then
         throw (mkError (str "No text could be extracted from the PDF"))
       else
         let summary := summarizeText fullText (opt_summaryLength options) in
         translatedSummary <-
           translateText env summary langCode (opt_sourceLanguage options) ;;
         actionPlan <- generateActionPlan env summary targetLang fullText ;;
         stamp <- now env ;;
         ret (Success (mkProcessingResult fullText (length fullText)
                         summary (length summary) translatedSummary
                         actionPlan targetLang langCode stamp)))
    (fun error =>
       msg <- read_message env error ;;
       stamp <- now env ;;
       ret (Failure (mkProcessingError (or_absent msg) stamp))).

End TranslationJs.

(** ** Vocabulary of the properties *)

Module Spec.

Import TranslationTs.

(** *** Strings, sentences and chunks *)

Definition head_nonspace (s : jsstring) : Prop :=
  match s with
  | [] => False
  | c :: _ => is_space c = false
  end.

(** The code units of a string that are not white space. *)
Definition strip (s : jsstring) : jsstring :=
  filter (fun c => negb (is_space c)) s.

Definition nonterminator (c : char16) : bool := negb (is_terminator c).

(** What one match of [[^.!?]+[.!?]+] looks like. *)
Definition sentence_shape (s : jsstring) : Prop :=
  exists body terms,
    s = body ++ terms
    /\ body <> [] /\ forallb nonterminator body = true
    /\ terms <> [] /\ forallb is_terminator terms = true.

Definition ends_with_terminator (s : jsstring) : Prop :=
  exists l c, s = l ++ [c] /\ is_terminator c = true.

Definition scan_inv (st : scan_state) : Prop :=
  match st with
  | Seeking => True
  | InBody acc => acc <> [] /\ forallb nonterminator (rev acc) = true
  | InTerminators acc => sentence_shape (rev acc)
  end.

Definition buffer_ok (current : jsstring) : Prop :=
  current = [] \/ ends_with_terminator current.

(** The statement after the loop, on the state the loop leaves. *)
Definition flush (st : list jsstring * jsstring) : list jsstring :=
  if truthy (trim (snd st)) then fst st ++ [trim (snd st)] else fst st.

(** The code units other than white space that a loop state holds. *)
Definition content (st : list jsstring * jsstring) : jsstring :=
  concat (map strip (fst st)) ++ strip (snd st).

(** [a] occurs in [b] as a run of consecutive code units. *)
Definition infix (a b : jsstring) : Prop := exists p q, b = p ++ a ++ q.

(** Where a sentence is once the loop has read it: trimmed inside a
    finished chunk, or whole inside the buffer. *)
Definition held (s : jsstring) (st : list jsstring * jsstring) : Prop :=
  (exists c, In c (fst st) /\ infix (trim s) c) \/ infix s (snd st).

(** *** Calls and outcomes *)

(** The validation that [generateSummaryAndActions] applies to the raw
    answer of the model. *)
Definition generation_ok (env : Env) (raw : jsstring) : bool :=
  truthy raw &&
  match JSON_parse env raw with
  | inl _ => false
  | inr parsed =>
      truthy (parsed_summary parsed) &&
      match parsed_actionPlan parsed with Some _ => true | None => false end
  end.

(** Whether the call recorded by an event failed, as [translation.ts]
    judges it: a thrown or rejected call, a PDF without text, an empty or
    ill-formed answer of the model, an empty translation. *)
Definition event_failed (env : Env) (ev : Event) : bool :=
  match ev with
  | EvExtract _ (PdfThrows _) => true
  | EvExtract _ (PdfData text) => negb (truthy (trim text))
  | EvGenerate _ (GeminiRejects _) => true
  | EvGenerate _ (GeminiText raw) => negb (generation_ok env raw)
  | EvTranslate _ (TranslateRejects _) => true
  | EvTranslate _ (TranslateReplies []) => true
  | EvTranslate _ (TranslateReplies (t :: _)) => negb (truthy t)
  end.

(** What a call was rejected with, if it was. *)
Definition event_rejection (ev : Event) : option Thrown :=
  match ev with
  | EvExtract _ (PdfThrows e) => Some e
  | EvGenerate _ (GeminiRejects e) => Some e
  | EvTranslate _ (TranslateRejects e) => Some e
  | _ => None
  end.

(** A call that was rejected with [undefined] or with [null]. *)
Definition rejected_nullish (ev : Event) : bool :=
  match event_rejection ev with
  | Some (ThrownNullish _) => true
  | _ => false
  end.

(** One of the calls [evs] was rejected with [v]. *)
Definition from_calls (v : Nullish) (evs : list Event) : Prop :=
  In (Some (ThrownNullish v)) (map event_rejection evs).

(** A computation that only appends calls to the history, and that is
    rejected with [undefined] or [null] only when one of its calls
    was. *)
Definition nullish_from_calls {A} (m : M A) : Prop :=
  forall h : Trace,
    exists evs : list Event,
      fst (m h) = h ++ evs
      /\ forall v, snd (m h) = Rejected (ThrownNullish v) -> from_calls v evs.

(** The text a successful translation call gave. *)
Definition event_text (ev : Event) : jsstring :=
  match ev with
  | EvTranslate _ (TranslateReplies (t :: _)) => t
  | _ => []
  end.

Definition event_request (ev : Event) : option TranslateRequest :=
  match ev with
  | EvTranslate req _ => Some req
  | _ => None
  end.

(** The calls that a run started at history [h] added to reach [h']. *)
Definition events_since (h h' : Trace) : list Event := skipn (length h) h'.

(** The texts that [translateText] sends, one call each. *)
Definition pieces (text : jsstring) : list jsstring :=
  if length text <=? MAX_TRANSLATE_CHUNK then [text]
  else chunkText text MAX_TRANSLATE_CHUNK.

(** How an outcome relates to the calls behind it: fulfilled with a value
    that satisfies [P] when no call failed, rejected when one did. *)
Definition settles {A} (o : Outcome A) (failed : bool) (P : A -> Prop)
  : Prop :=
  match o with
  | Fulfilled a => failed = false /\ P a
  | Rejected _ => failed = true
  end.

(** A computation that only appends calls of one kind to the history and
    whose outcome follows from whether one of them failed. *)
Definition runs (env : Env) {A} (m : M A) (kind : Event -> bool)
    (P : Trace -> list Event -> A -> Prop) : Prop :=
  forall h : Trace,
    exists evs : list Event,
      fst (m h) = h ++ evs
      /\ forallb kind evs = true
      /\ settles (snd (m h)) (existsb (event_failed env) evs) (P h evs).

(** The results of [Promise.all] over [map f xs], element by element:
    [ys] are the values, [evs] the calls, split among the elements. *)
Fixpoint each {X A} (P : X -> Trace -> list Event -> A -> Prop)
    (xs : list X) (h : Trace) (evs : list Event) (ys : list A) : Prop :=
  match xs, ys with
  | [], [] => evs = []
  | x :: xs', y :: ys' =>
      exists e1 e2,
        evs = e1 ++ e2 /\ P x h e1 y /\ each P xs' (h ++ e1) e2 ys'
  | _, _ => False
  end.

(** What [translateActionPlan] makes of one item: the same [priority] and
    [professionalType], and a [step] and a [description] that some run of
    [translateText] on the item's own returned. *)
Definition item_translated (env : Env) (targetLangCode : jsstring)
    (item o : ActionItem) : Prop :=
  priority o = priority item
  /\ professionalType o = professionalType item
  /\ (exists h h',
        translateText env (step item) targetLangCode en h
        = (h', Fulfilled (step o)))
  /\ (exists h h',
        translateText env (description item) targetLangCode en h
        = (h', Fulfilled (description o))).

(** A success result with nothing left out: its summary is what
    [translateText] returned for the summary of the model, its items are
    what [translateActionPlan] returned for the plan of the model, and
    the model was given the text extracted from the PDF. *)
Definition complete_result (env : Env) (pdfPath targetLang : jsstring)
    (res : ProcessingResult) : Prop :=
  exists langCode fullText out h0 h1 h2 h3 h4,
    getLanguageCode env targetLang = Some langCode
    /\ extractTextFromPDF env pdfPath h0 = (h1, Fulfilled fullText)
    /\ generateSummaryAndActions env fullText h1 = (h2, Fulfilled out)
    /\ translateText env (summary out) langCode en h2
       = (h3, Fulfilled (translatedSummary res))
    /\ translateActionPlan env (llm_actionPlan out) langCode h3
       = (h4, Fulfilled (actionPlan res))
    /\ length (actionPlan res) = length (llm_actionPlan out)
    /\ Forall2 (item_translated env langCode)
         (llm_actionPlan out) (actionPlan res)
    /\ targetLanguage res = targetLang
    /\ summaryLength res = length (translatedSummary res)
    /\ originalLength res = length fullText.

(** Steps 2 and 3 of the orchestrator and the success result: what the
    body of [processPDFDocument] does once the text is extracted. *)
Definition steps_2_and_3 (env : Env) (targetLang langCode : jsstring)
    (fullText : jsstring) : M ProcessingOutput :=
  out <- generateSummaryAndActions env fullText ;;
  ' (translatedSummary, translatedActions) <-
     Promise_all2 env
       (translateText env (summary out) langCode en)
       (translateActionPlan env (llm_actionPlan out) langCode) ;;
  stamp <- now env ;;
  ret (Success (mkProcessingResult translatedSummary translatedActions
                  targetLang (length translatedSummary)
                  (length fullText) stamp)).

(** The call that one [translate] makes at history [h]. *)
Definition translate_event (env : Env)
    (targetLangCode sourceLangCode : jsstring) (h : Trace)
    (content : jsstring) : Event :=
  EvTranslate (translate_request env targetLangCode sourceLangCode content)
    (translate_api env h
       (translate_request env targetLangCode sourceLangCode content)).

Definition any_event (ev : Event) : bool := true.

Definition not_extract (ev : Event) : bool := negb (is_extract ev).

(** *** The earlier pipeline *)

(** What a run of [processPDFDocument] of [translation.js] returns, stage
    by stage, once the language key has resolved to [langCode]: the
    error variant when the extraction rejects or gives no text and when
    the translation of the summary rejects, with the message of the
    [Error] that the stage rejected with (the [catch] blocks of these two
    stages throw [Error] objects only); otherwise the success variant,
    with whatever plan [generateActionPlan] was fulfilled with. *)
Definition js_run_outcome (env : Env) (pdfPath targetLang : jsstring)
    (options : TranslationJs.Options) (langCode : LangValue) (h : Trace)
    (r : Trace * Outcome TranslationJs.ProcessingOutput) : Prop :=
  let failure (h' : Trace) (msg : jsstring) :=
    (h', Fulfilled
           (TranslationJs.Failure
              (TranslationJs.mkProcessingError msg (toISOString_now env h'))))
  in
  match TranslationJs.extractTextFromPDF env pdfPath h with
  | (h1, Rejected e) =>
      exists msg, e = ThrownError (mkError msg) /\ r = failure h1 msg
  | (h1, Fulfilled fullText) =>
      if truthy (trim fullText) then
        let summary :=
          TranslationJs.summarizeText fullText
            (TranslationJs.opt_summaryLength options) in
        match TranslationJs.translateText env summary langCode
                (TranslationJs.opt_sourceLanguage options) h1 with
        | (h2, Rejected e) =>
            exists msg, e = ThrownError (mkError msg) /\ r = failure h2 msg
        | (h2, Fulfilled translatedSummary) =>
            exists plan h3,
              TranslationJs.generateActionPlan env summary targetLang
                fullText h2 = (h3, Fulfilled plan)
              /\ r = (h3,
                      Fulfilled
                        (TranslationJs.Success
                           (TranslationJs.mkProcessingResult fullText
                              (length fullText) summary (length summary)
                              translatedSummary plan targetLang langCode
                              (toISOString_now env h3))))
        end
      else r = failure h1 (str "No text could be extracted from the PDF")
  end.

End Spec.
Export Spec.

(** ** Sample worlds *)

Module Samples.

Definition stamp : jsstring := str "2024-03-05T10:00:00.000Z".

Definition document : jsstring :=
  str "Patient has an appointment on March 5th. Bring ID.".

Definition model_plan : list ActionItem :=
  [ mkActionItem (str "Bring ID")
      (str "Take a photo ID to the appointment.") high None;
    mkActionItem (str "Call the clinic")
      (str "Confirm the time of the appointment.") medium
      (Some (str "medical_interpreter")) ].

Definition model_answer : ParsedJson :=
  mkParsedJson (str "The patient has an appointment on March 5th.")
    (Some model_plan).

(** A translation service that answers every call. *)
Definition echo (h : Trace) (r : TranslateRequest) : TranslateResponse :=
  TranslateReplies (map (fun c => str "es:" ++ c) (contents r)).

(** A translation service that answers its first call and rejects every
    later one. *)
Definition answers_once (h : Trace) (r : TranslateRequest)
  : TranslateResponse :=
  if existsb is_translate h then
    TranslateRejects (mkError (str "quota exceeded"))
  else echo h r.

Definition world (pdf : PdfResponse)
    (service : Trace -> TranslateRequest -> TranslateResponse) : Env :=
  mkEnv (fun _ _ => pdf) (fun _ _ => GeminiText (str "{}")) service
    (fun _ => stamp) (str "demo-project") toLowerCase_ascii
    (fun _ => inr model_answer)
    (str "Cannot read properties of undefined") (fun _ => 0)
    (fun v =>
       match v with
       | js_undefined =>
           str "Cannot read properties of undefined (reading 'message')"
       | js_null => str "Cannot read properties of null (reading 'message')"
       end)
    (fun _ => []).

(** Every service answers. *)
Definition base_env : Env := world (PdfData document) echo.

(** The PDF holds scanned images only: its text is white space. *)
Definition scanned_env : Env := world (PdfData [32; 10; 32]%N) echo.

(** The translation service gives up after one call. *)
Definition flaky_env : Env := world (PdfData document) answers_once.

(** A translation service whose promise is rejected without a reason:
    every call rejects with [undefined]. *)
Definition rejects_undefined (h : Trace) (r : TranslateRequest)
  : TranslateResponse :=
  TranslateRejects (ThrownNullish js_undefined).

Definition silent_env : Env := world (PdfData document) rejects_undefined.

(** Two sentences of 20,001 code units each. *)
Definition long_text : jsstring :=
  repeat 97%N 20000 ++ str "." ++ repeat 98%N 20000 ++ str ".".

Definition upload : jsstring := str "/tmp/upload.pdf".

End Samples.

(** ** Uploaded files, as the route and the page read them *)

Module Upload.

(** A [File] of the form data: the properties that the code reads. *)
Record File : Type := mkFile {
  name : jsstring;
  type : jsstring;
  (** the number of bytes *)
  size : N;
  (** what [file.arrayBuffer()] settles with *)
  arrayBuffer : JsError + list N
}.

(** [s.endsWith(suffix)] *)
Definition endsWith (s suffix : jsstring) : bool :=
  startsWith (reverse s) (reverse suffix).

Fixpoint uint_digits (d : Decimal.uint) : jsstring :=
  match d with
  | Decimal.Nil => []
  | Decimal.D0 d' => 48%N :: uint_digits d'
  | Decimal.D1 d' => 49%N :: uint_digits d'
  | Decimal.D2 d' => 50%N :: uint_digits d'
  | Decimal.D3 d' => 51%N :: uint_digits d'
  | Decimal.D4 d' => 52%N :: uint_digits d'
  | Decimal.D5 d' => 53%N :: uint_digits d'
  | Decimal.D6 d' => 54%N :: uint_digits d'
  | Decimal.D7 d' => 55%N :: uint_digits d'
  | Decimal.D8 d' => 56%N :: uint_digits d'
  | Decimal.D9 d' => 57%N :: uint_digits d'
  end.

(** The decimal numeral of a non-negative integer, as a template literal
    prints it. *)
Definition decimal (n : N) : jsstring := uint_digits (N.to_uint n).

(** [(num / den).toFixed(f)] for a non-negative quotient that the
    division gives exactly, as it does for a file size divided by a power
    of two: the integer nearest to the quotient times [10^f], the larger
    one of two, padded with zeros to [f + 1] digits, with a point before
    the last [f] digits. *)
Definition toFixed (num den : N) (f : nat) : jsstring :=
  let n := ((2 * num * 10 ^ N.of_nat f + den) / (2 * den))%N in
  let m := decimal n in
  let m := repeat 48%N (f + 1 - length m) ++ m in
  if f =? 0 then m
  else firstn (length m - f) m ++ str "." ++ skipn (length m - f) m.

(** [file.name.replace(/[^a-zA-Z0-9.-]/g, '_')] *)
Definition is_safe (c : char16) : bool :=
  ((97 <=? c) && (c <=? 122) || (65 <=? c) && (c <=? 90)
   || (48 <=? c) && (c <=? 57) || (c =? 46) || (c =? 45))%N.

Definition replace_unsafe (fileName : jsstring) : jsstring :=
  map (fun c => if is_safe c then c else 95%N) fileName.

(** The test on the type of the file, the same in the route and in the
    page. *)
Definition isPDF (env : Env) (file : File) : bool :=
  endsWith (toLowerCase env (name file)) (str ".pdf")
  || jseqb (type file) (str "application/pdf").

(** [MAX_FILE_SIZE_LABEL] of [languages.ts]. *)
Definition MAX_FILE_SIZE_LABEL : jsstring := str "10 MB".

End Upload.

(** ** The route [POST /api/translateFile] ([src/unnamed/part_001]) *)

Module Route.

Import Upload.

(** A value of the form data: a file or a string. *)
Inductive FormDataEntryValue : Type :=
| EntryFile (f : File)
| EntryString (s : jsstring).

(** [formData.get('file')] and [formData.get('language')]; [None] is
    [null]. *)
Record FormData : Type := mkFormData {
  get_file : option FormDataEntryValue;
  get_language : option FormDataEntryValue
}.

(** The request: what [request.formData()] settles with. *)
Record NextRequest : Type := mkNextRequest {
  formData : JsError + FormData
}.

(** The JSON body of a response: [{ success: false, error }] or the
    success result of the pipeline. *)
Inductive Body : Type :=
| ErrorBody (error : jsstring)
| ResultBody (result : TranslationTs.ProcessingResult).

Definition body_success (b : Body) : bool :=
  match b with
  | ErrorBody _ => false
  | ResultBody _ => true
  end.

Record NextResponse : Type := mkNextResponse {
  body : Body;
  status : nat
}.

(** What the handler does outside of its own memory: calls of the
    pipeline, and the two operations on the temporary file with the error
    they rejected with, if any. *)
Inductive Step : Type :=
| Call (ev : Event)
| WriteFile (path : jsstring) (data : list N) (r : option JsError)
| Unlink (path : jsstring) (r : option JsError).

Definition Log := list Step.

(** The calls of the pipeline in a log: the history that its services
    see. *)
Fixpoint calls (log : Log) : Trace :=
  match log with
  | [] => []
  | Call ev :: log' => ev :: calls log'
  | _ :: log' => calls log'
  end.

(** The host of the route: the temporary directory, [randomUUID],
    [path.join], and the file system, whose answers may depend on
    everything done before. *)
Record Host : Type := mkHost {
  tmpdir : jsstring;
  randomUUID : Log -> jsstring;
  path_join : jsstring -> jsstring -> jsstring;
  fs_writeFile : Log -> jsstring -> list N -> option JsError;
  fs_unlink : Log -> jsstring -> option JsError
}.

(** The log and the variable [tempFilePath] of the handler. *)
Record State : Type := mkState {
  log : Log;
  tempFilePath : option jsstring
}.

Definition Handler (A : Type) : Type := State -> State * Outcome A.

Definition hret {A} (a : A) : Handler A := fun st => (st, Fulfilled a).

Definition hthrow {A} (e : Thrown) : Handler A := fun st => (st, Rejected e).

Definition hbind {A B} (m : Handler A) (k : A -> Handler B) : Handler B :=
  fun st =>
    match m st with
    | (st1, Fulfilled a) => k a st1
    | (st1, Rejected e) => (st1, Rejected e)
    end.

Definition htry {A} (m : Handler A) (handler : Thrown -> Handler A)
  : Handler A :=
  fun st =>
    match m st with
    | (st1, Fulfilled a) => (st1, Fulfilled a)
    | (st1, Rejected e) => handler e st1
    end.

Declare Scope handler_scope.
Delimit Scope handler_scope with handler.
Notation "x <- m ;; k" := (hbind m (fun x => k))
  (at level 100, m at next level, right associativity) : handler_scope.

(** [error.message] in a [catch] block, where [error] is whatever was
    thrown. *)
Definition catch_message (env : Env) (error : Thrown)
  : Handler (option jsstring) :=
  match error with
  | ThrownError e => hret (Some (message e))
  | ThrownOther => hret None
  | ThrownNullish v => hthrow (mkError (TypeError_reading_message env v))
  end.

(** Awaiting a promise whose outcome is given. *)
Definition settle {A} (r : JsError + A) : Handler A :=
  match r with
  | inl e => hthrow e
  | inr a => hret a
  end.

Definition step (s : Step) (st : State) : State :=
  mkState (log st ++ [s]) (tempFilePath st).

Definition writeFile (host : Host) (path : jsstring) (data : list N)
  : Handler unit :=
  fun st =>
    let r := fs_writeFile host (log st) path data in
    (step (WriteFile path data r) st,
     match r with
     | Some e => Rejected e
     | None => Fulfilled tt
     end).

Definition unlink (host : Host) (path : jsstring) : Handler unit :=
  fun st =>
    let r := fs_unlink host (log st) path in
    (step (Unlink path r) st,
     match r with
     | Some e => Rejected e
     | None => Fulfilled tt
     end).

(** A run of the pipeline: its services see the calls made so far, and
    its own calls are added to the log. *)
Definition await_pipeline {A} (m : M A) : Handler A :=
  fun st =>
    let h := calls (log st) in
    let '(h', o) := m h in
    (mkState (log st ++ map Call (events_since h h')) (tempFilePath st), o).

Definition set_tempFilePath (v : option jsstring) : Handler unit :=
  fun st => (mkState (log st) v, Fulfilled tt).

Definition new_uuid (host : Host) : Handler jsstring :=
  fun st => (st, Fulfilled (randomUUID host (log st))).

(** [VALID_LANGUAGE_KEYS.has(k)] *)
Definition has (keys : list jsstring) (k : jsstring) : bool :=
  existsb (jseqb k) keys.

Definition json (b : Body) (code : nat) : Handler NextResponse :=
  hret (mkNextResponse b code).

Definition no_file_message : jsstring :=
  str "No file provided. Upload a PDF using the " ++ TranslationTs.dq
  ++ str "file" ++ TranslationTs.dq ++ str " field.".

Definition invalid_language_message : jsstring :=
  str "Invalid language. Supported: " ++ join (str ", ") VALID_LANGUAGE_KEYS.

Definition too_large_message (file : File) : jsstring :=
  str "File exceeds the maximum size of 10 MB (received "
  ++ toFixed (size file) (1024 * 1024) 2 ++ str " MB).".

Open Scope handler_scope.

(** Steps 3 to 6 of the handler, for a file and a language that passed
    the validation. *)
Definition process_upload (env : Env) (host : Host) (file : File)
    (language : jsstring) : Handler NextResponse :=
  let safeName := replace_unsafe (name file) in
  uuid <- new_uuid host ;;
  let path := path_join host (tmpdir host) (uuid ++ str "-" ++ safeName) in
  _ <- set_tempFilePath (Some path) ;;
  buffer <- settle (arrayBuffer file) ;;
  _ <- writeFile host path buffer ;;
  result <-
    await_pipeline
      (TranslationTs.processPDFDocument env path (toLowerCase env language)) ;;
  _ <- unlink host path ;;
  _ <- set_tempFilePath None ;;
  match result with
  | TranslationTs.Failure e => json (ErrorBody (TranslationTs.error e)) 500
  | TranslationTs.Success r => json (ResultBody r) 200
  end.

(** The body of the [try] block. *)
Definition POST_try (env : Env) (host : Host) (request : NextRequest)
  : Handler NextResponse :=
  form <- settle (formData request) ;;
  match get_file form with
  | Some (EntryFile file) =>
      match get_language form with
      | Some (EntryString language) =>
          if negb (has VALID_LANGUAGE_KEYS (toLowerCase env language)) then
            json (ErrorBody invalid_language_message) 400
          else if negb (isPDF env file) then
            json (ErrorBody (str "Only PDF files are supported.")) 400
          else if (MAX_FILE_SIZE_BYTES <? size file)%N then
            json (ErrorBody (too_large_message file)) 400
          else if (size file =? 0)%N then
            json (ErrorBody (str "The uploaded file is empty.")) 400
          else process_upload env host file language
      | _ => json (ErrorBody invalid_language_message) 400
      end
  | _ => json (ErrorBody no_file_message) 400
  end.

(** The [catch] block. *)
Definition POST_catch (env : Env) (host : Host) (error : Thrown)
  : Handler NextResponse :=
  _ <- (fun st =>
          match tempFilePath st with
          | Some path =>
              if truthy path then
                htry (unlink host path) (fun _ => hret tt) st
              else hret tt st
          | None => hret tt st
          end) ;;
  msg <- catch_message env error ;;
  json (ErrorBody (or_default msg (str "An unexpected error occurred.")))
    500.

Definition POST (env : Env) (host : Host) (request : NextRequest)
  : Handler NextResponse :=
  htry (POST_try env host request) (POST_catch env host).

(** One request, handled after the steps of [log0]: the steps since, and
    what the promise of [POST] settles with. *)
Definition handle (env : Env) (host : Host) (request : NextRequest)
    (log0 : Log) : list Step * Outcome NextResponse :=
  let '(st, o) := POST env host request (mkState log0 None) in
  (skipn (length log0) (log st), o).

Close Scope handler_scope.

End Route.

(** ** The earlier route ([src/app/api/translateFile/route.ts]) *)

Module OldRoute.

Import Upload Route.

(** The properties of the result that the route copies into its
    response. *)
Record Shown (Item : Type) : Type := mkShown {
  translatedSummary : jsstring;
  actionPlan : list Item;
  targetLanguage : jsstring;
  summaryLength : nat;
  originalLength : nat;
  timestamp : jsstring
}.

Inductive Body (Item : Type) : Type :=
| ErrorBody (error : jsstring)
| ResultBody (shown : Shown Item).
Arguments ErrorBody {Item} error.
Arguments ResultBody {Item} shown.

Record NextResponse (Item : Type) : Type := mkNextResponse {
  body : Body Item;
  status : nat
}.
Arguments mkNextResponse {Item} body status.
Arguments body {Item} n.
Arguments status {Item} n.

Section Handler.

(** The module [@/lib/translation] that the route imports; the
    repository holds two, [translation.js] and [translation.ts].  An
    output is read through [result.success], [result.error] and the six
    properties of a success: [read] gives [result.error] (empty when it
    is absent) for an output whose [success] is falsy, and the six
    properties otherwise. *)
Variable Item : Type.
Variable Output : Type.
Variable processPDFDocument : jsstring -> jsstring -> M Output.
Variable read : Output -> jsstring + Shown Item.

(** [Date.now()] *)
Variable Date_now : Route.Log -> N.

(** The [TypeError] of [language.toLowerCase()] when the entry is a file,
    and that of [file.name.toLowerCase()] when the entry is a string. *)
Variable not_a_function : JsError.
Variable undefined_name : JsError.

Variable env : Env.
Variable host : Route.Host.

Definition json (b : Body Item) (code : nat)
  : Route.Handler (NextResponse Item) :=
  Route.hret (mkNextResponse b code).

(** [!entry] for a value of the form data. *)
Definition falsy (entry : option Route.FormDataEntryValue) : bool :=
  match entry with
  | None => true
  | Some (Route.EntryString s) => negb (truthy s)
  | Some (Route.EntryFile _) => false
  end.

(** [language.toLowerCase()] *)
Definition language_toLowerCase (entry : option Route.FormDataEntryValue)
  : Route.Handler jsstring :=
  match entry with
  | Some (Route.EntryString s) => Route.hret (toLowerCase env s)
  | _ => Route.hthrow not_a_function
  end.

(** [file.name], which is [undefined] on a string. *)
Definition file_of (entry : option Route.FormDataEntryValue)
  : Route.Handler File :=
  match entry with
  | Some (Route.EntryFile f) => Route.hret f
  | _ => Route.hthrow undefined_name
  end.

Definition now : Route.Handler N :=
  fun st => (st, Fulfilled (Date_now (Route.log st))).

Open Scope handler_scope.

(** The body of the [try] block. *)
Definition POST_try (request : Route.NextRequest)
  : Route.Handler (NextResponse Item) :=
  formData <- Route.settle (Route.formData request) ;;
  let file := Route.get_file formData in
  let language := Route.get_language formData in
  if falsy file then json (ErrorBody (str "No file provided")) 400
  else if falsy language then
    json (ErrorBody
            (str "Invalid language. Must be spanish, french, or mandarin"))
      400
  else
    lower <- language_toLowerCase language ;;
    if negb (Route.has [str "spanish"; str "french"; str "mandarin"] lower)
    then
      json (ErrorBody
              (str "Invalid language. Must be spanish, french, or mandarin"))
        400
    else
      f <- file_of file ;;
      if negb (endsWith (toLowerCase env (name f)) (str ".pdf")) then
        json (ErrorBody (str "Only PDF files are supported")) 400
      else
        buffer <- Route.settle (arrayBuffer f) ;;
        stamp <- now ;;
        let path :=
          Route.path_join host (Route.tmpdir host)
            (decimal stamp ++ str "-" ++ replace_unsafe (name f)) in
        _ <- Route.set_tempFilePath (Some path) ;;
        _ <- Route.writeFile host path buffer ;;
        result <- Route.await_pipeline (processPDFDocument path lower) ;;
        _ <- Route.htry (Route.unlink host path) (fun _ => Route.hret tt) ;;
        match read result with
        | inl error =>
            json (ErrorBody (if truthy error then error
                             else str "Processing failed")) 500
        | inr shown => json (ResultBody shown) 200
        end.

(** The [catch] block. *)
Definition POST_catch (error : Thrown)
  : Route.Handler (NextResponse Item) :=
  _ <- (fun st =>
          match Route.tempFilePath st with
          | Some path =>
              if truthy path then
                Route.htry (Route.unlink host path)
                  (fun _ => Route.hret tt) st
              else Route.hret tt st
          | None => Route.hret tt st
          end) ;;
  msg <- Route.catch_message env error ;;
  json (ErrorBody
          (or_default msg
             (str "An unexpected error occurred while processing your document")))
    500.

Definition POST (request : Route.NextRequest)
  : Route.Handler (NextResponse Item) :=
  Route.htry (POST_try request) POST_catch.

(** One request, handled after the steps of [log0]. *)
Definition handle (request : Route.NextRequest) (log0 : Route.Log)
  : list Route.Step * Outcome (NextResponse Item) :=
  let '(st, o) := POST request (Route.mkState log0 None) in
  (skipn (length log0) (Route.log st), o).

Close Scope handler_scope.

End Handler.

(** The route with [translation.js]: the second argument of
    [processPDFDocument] is absent, so the options are the defaults. *)
Definition read_js (o : TranslationJs.ProcessingOutput)
  : jsstring + Shown TranslationJs.ActionItem :=
  match o with
  | TranslationJs.Failure e => inl (TranslationJs.error e)
  | TranslationJs.Success r =>
      inr (mkShown (TranslationJs.translatedSummary r)
             (TranslationJs.actionPlan r) (TranslationJs.targetLanguage r)
             (TranslationJs.summaryLength r) (TranslationJs.originalLength r)
             (TranslationJs.timestamp r))
  end.

Definition processPDFDocument_js (env : Env) (pdfPath targetLang : jsstring)
  : M TranslationJs.ProcessingOutput :=
  TranslationJs.processPDFDocument env pdfPath targetLang
    TranslationJs.default_options.

(** The route with [translation.ts]. *)
Definition read_ts (o : TranslationTs.ProcessingOutput)
  : jsstring + Shown ActionItem :=
  match o with
  | TranslationTs.Failure e => inl (TranslationTs.error e)
  | TranslationTs.Success r =>
      inr (mkShown (TranslationTs.translatedSummary r)
             (TranslationTs.actionPlan r) (TranslationTs.targetLanguage r)
             (TranslationTs.summaryLength r) (TranslationTs.originalLength r)
             (TranslationTs.timestamp r))
  end.

End OldRoute.

(** ** The page ([src/app/page.tsx]) *)

Module Page.

Import Upload.

(** The state of the component [Home]; the data of a response is the
    body that the route sent. *)
Record State : Type := mkState {
  selectedLanguage : jsstring;
  file : option File;
  isDragging : bool;
  loading : bool;
  result : option Route.Body;
  error : jsstring
}.

(** The state of the first rendering. *)
Definition initial : State := mkState [] None false false None [].

Definition formatFileSize (bytes : N) : jsstring :=
  if (bytes <? 1024)%N then decimal bytes ++ str " B"
  else if (bytes <? 1024 * 1024)%N then toFixed bytes 1024 1 ++ str " KB"
  else toFixed bytes (1024 * 1024) 2 ++ str " MB".

(** [setError(msg); setFile(null)] *)
Definition reject_file (msg : jsstring) (st : State) : State :=
  mkState (selectedLanguage st) None (isDragging st) (loading st)
    (result st) msg.

Definition validateAndSetFile (env : Env) (selectedFile : option File)
    (st : State) : State :=
  match selectedFile with
  | None => st
  | Some f =>
      if negb (endsWith (toLowerCase env (name f)) (str ".pdf"))
         && negb (jseqb (type f) (str "application/pdf"))
      then reject_file (str "Only PDF files are supported.") st
      else if (MAX_FILE_SIZE_BYTES <? size f)%N then
        reject_file
          (str "File exceeds the " ++ MAX_FILE_SIZE_LABEL
           ++ str " limit (uploaded: " ++ formatFileSize (size f)
           ++ str ").") st
      else if (size f =? 0)%N then
        reject_file (str "The selected file is empty.") st
      else
        mkState (selectedLanguage st) (Some f) (isDragging st) (loading st)
          None []
  end.

(** The [onClick] of the button of a language. *)
Definition selectLanguage (lang : LanguageConfig) (st : State) : State :=
  mkState (key lang) (file st) (isDragging st) (loading st) None [].

(** [handleDrop], with [dropped] for [e.dataTransfer.files?.[0] ?? null]. *)
Definition handleDrop (env : Env) (dropped : option File) (st : State)
  : State :=
  validateAndSetFile env dropped
    (mkState (selectedLanguage st) (file st) false (loading st) (result st)
       (error st)).

(** [response.ok] *)
Definition ok (response : Route.NextResponse) : bool :=
  (200 <=? Route.status response) && (Route.status response <=? 299).

(** [data.error], empty when the data has none. *)
Definition data_error (data : Route.Body) : jsstring :=
  match data with
  | Route.ErrorBody e => e
  | Route.ResultBody _ => []
  end.

(** [handleSubmit]; [fetch] stands for the request to
    [/api/translateFile] followed by [response.json()], and gives the
    error that either of them rejected with or the response. *)
Definition handleSubmit
    (fetch : Route.FormData -> JsError + Route.NextResponse) (st : State)
  : State :=
  match file st with
  | None => st
  | Some f =>
      if negb (truthy (selectedLanguage st)) then st
      else
        let formData :=
          Route.mkFormData (Some (Route.EntryFile f))
            (Some (Route.EntryString (selectedLanguage st))) in
        let failed (err : JsError) :=
          mkState (selectedLanguage st) (file st) (isDragging st) false None
            (if truthy (message err) then message err
             else str "An error occurred while processing your document.")
        in
        match fetch formData with
        | inl err => failed err
        | inr response =>
            let data := Route.body response in
            if negb (ok response) || negb (Route.body_success data) then
              failed
                (mkError
                   (if truthy (data_error data) then data_error data
                    else str "Server error ("
                         ++ decimal (N.of_nat (Route.status response))
                         ++ str ")"))
            else
              mkState (selectedLanguage st) (file st) (isDragging st) false
                (Some data) []
        end
  end.

End Page.

(** ** Vocabulary of the further properties *)

Module MoreSpec.

Import TranslationTs.

(** A computation that issues translation calls only, for the requests
    [reqs] in this order, whatever the answers are. *)
Definition sends {A} (m : M A) (reqs : list TranslateRequest) : Prop :=
  forall h : Trace,
    exists evs : list Event,
      fst (m h) = h ++ evs /\ map event_request evs = map Some reqs.

(** The texts that [translateActionPlan] sends for a plan: for each item
    the pieces of its step, then the pieces of its description. *)
Definition plan_texts (plan : list ActionItem) : list jsstring :=
  flat_map (fun item => pieces (step item) ++ pieces (description item)) plan.

(** *** The earlier pipeline *)

(** The pieces that [translateText] of [translation.js] has to send. *)
Definition js_pieces (text : jsstring) : list jsstring :=
  if length text <=? TranslationJs.maxChunkSize then [text]
  else TranslationJs.chunkText text TranslationJs.maxChunkSize.

(** A translation call after which [translateText] of [translation.js]
    throws: the service rejected, or its answer has no translation.  An
    empty translated text is taken as it is. *)
Definition js_call_failed (ev : Event) : bool :=
  match ev with
  | EvTranslate _ (TranslateRejects _) => true
  | EvTranslate _ (TranslateReplies []) => true
  | _ => false
  end.

(** What a failed call throws inside [translateText] of
    [translation.js]: what the service rejected with, or the [TypeError]
    of reading [translatedText] on a translation that is absent. *)
Definition js_call_throws (env : Env) (ev : Event) : Thrown :=
  match ev with
  | EvTranslate _ (TranslateRejects e) => e
  | _ => ThrownError (mkError (TypeError_message env))
  end.

(** The error with which [translateText] of [translation.js] then
    rejects: the message of what was thrown after "Translation failed: ",
    "undefined" in its place when what was thrown has no message, or,
    when [undefined] or [null] was thrown, the [TypeError] of reading
    [message] on it. *)
Definition js_translation_failed (env : Env) (cause : Thrown) : JsError :=
  match cause with
  | ThrownError e => mkError (str "Translation failed: " ++ message e)
  | ThrownOther => mkError (str "Translation failed: undefined")
  | ThrownNullish v => mkError (TypeError_reading_message env v)
  end.

(** What a sequence of awaited calls of [translation.js] leaves behind:
    requests for the first pieces, all but the last one answered. *)
Definition sequential_calls (env : Env) (targetLanguage : LangValue)
    (sourceLanguage : jsstring) (pieces : list jsstring) (evs : list Event)
  : Prop :=
  map event_request evs
  = map Some
      (firstn (length evs)
         (map (fun c =>
                 TranslationJs.request c targetLanguage sourceLanguage env)
            pieces))
  /\ existsb js_call_failed (removelast evs) = false.

(** A translation call from [source] to [target]. *)
Definition translates (source : jsstring) (target : LangValue) (ev : Event)
  : Prop :=
  exists req resp,
    ev = EvTranslate req resp
    /\ sourceLanguageCode req = source /\ targetLanguageCode req = target.

(** The four messages with which a run of [processPDFDocument] of
    [translation.js] can fail. *)
Definition js_failure_message (msg : jsstring) : bool :=
  startsWith msg (str "Unsupported language: ")
  || startsWith msg (str "Failed to extract text from PDF: ")
  || jseqb msg (str "No text could be extracted from the PDF")
  || startsWith msg (str "Translation failed: ").

(** What a success result of [translation.js] says about the document
    and the request. *)
Definition js_result_ok (env : Env) (targetLang : jsstring)
    (options : TranslationJs.Options) (res : TranslationJs.ProcessingResult)
  : Prop :=
  truthy (trim (TranslationJs.originalText res)) = true
  /\ TranslationJs.originalLength res
     = length (TranslationJs.originalText res)
  /\ TranslationJs.summary res
     = TranslationJs.summarizeText (TranslationJs.originalText res)
         (TranslationJs.opt_summaryLength options)
  /\ TranslationJs.summaryLength res = length (TranslationJs.summary res)
  /\ length (TranslationJs.actionPlan res) = 3
  /\ TranslationJs.targetLanguage res = targetLang
  /\ TranslationJs.languageCode res
     = TranslationJs.lookup_language (toLowerCase env targetLang).

(** *** The route and the page *)

(** The path of the temporary file of a request handled after [log0]. *)
Definition upload_path (host : Route.Host) (file : Upload.File)
    (log0 : Route.Log) : jsstring :=
  Route.path_join host (Route.tmpdir host)
    (Route.randomUUID host log0 ++ str "-"
     ++ Upload.replace_unsafe (Upload.name file)).

(** The validation of the route: a supported language, a PDF, at most
    10 MB, not empty. *)
Definition valid_upload (env : Env) (file : Upload.File)
    (language : jsstring) : bool :=
  Route.has VALID_LANGUAGE_KEYS (toLowerCase env language)
  && Upload.isPDF env file
  && negb (MAX_FILE_SIZE_BYTES <? Upload.size file)%N
  && negb (Upload.size file =? 0)%N.

(** A form with a file and a language, as the page sends it. *)
Definition upload_form (file : Upload.File) (language : jsstring)
  : Route.FormData :=
  Route.mkFormData (Some (Route.EntryFile file))
    (Some (Route.EntryString language)).

(** The response of the [catch] block for the error [e]. *)
Definition caught (e : JsError) : Route.NextResponse :=
  Route.mkNextResponse
    (Route.ErrorBody (if truthy (message e) then message e
                      else str "An unexpected error occurred."))
    500.

(** The response for a result of the pipeline. *)
Definition reply (out : TranslationTs.ProcessingOutput)
  : Route.NextResponse :=
  match out with
  | TranslationTs.Failure e =>
      Route.mkNextResponse (Route.ErrorBody (TranslationTs.error e)) 500
  | TranslationTs.Success r => Route.mkNextResponse (Route.ResultBody r) 200
  end.

(** The steps and the response of a request that passed the validation
    and is handled after the steps of [log0], read off the answers of
    the file, of the file system and of the pipeline.  The upload could
    not be read: the file that was never written is unlinked.  The write
    failed: the file is unlinked.  The pipeline returned and the file
    was removed: the response is made from the result.  The pipeline
    returned and the removal failed: it is tried once more, and the
    response is the error of the first removal.  The pipeline rejected,
    which it does with the [TypeError] of its own [catch] block only:
    the file is unlinked once, whether that works or not, and the
    response is that of the [TypeError]. *)
Definition handled (env : Env) (host : Route.Host) (file : Upload.File)
    (language : jsstring) (log0 : Route.Log) (steps : list Route.Step)
    (response : Route.NextResponse) : Prop :=
  let p := upload_path host file log0 in
  match Upload.arrayBuffer file with
  | inl e =>
      steps = [Route.Unlink p (Route.fs_unlink host log0 p)]
      /\ response = caught e
  | inr data =>
      match Route.fs_writeFile host log0 p data with
      | Some e =>
          steps
          = [Route.WriteFile p data (Some e);
             Route.Unlink p
               (Route.fs_unlink host
                  (log0 ++ [Route.WriteFile p data (Some e)]) p)]
          /\ response = caught e
      | None =>
          let log1 := log0 ++ [Route.WriteFile p data None] in
          let run :=
            TranslationTs.processPDFDocument env p (toLowerCase env language)
              (Route.calls log1) in
          let evs := events_since (Route.calls log1) (fst run) in
          let log2 := log1 ++ map Route.Call evs in
          match snd run with
          | Fulfilled out =>
              match Route.fs_unlink host log2 p with
              | None =>
                  steps
                  = Route.WriteFile p data None
                    :: map Route.Call evs ++ [Route.Unlink p None]
                  /\ response = reply out
              | Some e =>
                  steps
                  = Route.WriteFile p data None
                    :: map Route.Call evs
                    ++ [Route.Unlink p (Some e);
                        Route.Unlink p
                          (Route.fs_unlink host
                             (log2 ++ [Route.Unlink p (Some e)]) p)]
                  /\ response = caught e
              end
          | Rejected e =>
              steps
              = Route.WriteFile p data None
                :: map Route.Call evs
                ++ [Route.Unlink p (Route.fs_unlink host log2 p)]
              /\ exists v,
                   e = ThrownError (mkError (TypeError_reading_message env v))
                   /\ from_calls v evs
                   /\ response
                      = caught (mkError (TypeError_reading_message env v))
          end
      end
  end.

(** A response of the route is a success result with status 200, or an
    error with status 400 or 500 and a message that is not empty. *)
Definition well_formed (response : Route.NextResponse) : Prop :=
  match Route.body response with
  | Route.ResultBody _ => Route.status response = 200
  | Route.ErrorBody msg =>
      (Route.status response = 400 \/ Route.status response = 500)
      /\ msg <> []
  end.

(** *** The earlier route *)

(** The response of its [catch] block for the error [e]. *)
Definition old_caught {Item} (e : JsError) : OldRoute.NextResponse Item :=
  OldRoute.mkNextResponse
    (OldRoute.ErrorBody
       (if truthy (message e) then message e
        else str "An unexpected error occurred while processing your document"))
    500.

(** Its response for a result of the pipeline. *)
Definition old_reply {Item} (result : jsstring + OldRoute.Shown Item)
  : OldRoute.NextResponse Item :=
  match result with
  | inl error =>
      OldRoute.mkNextResponse
        (OldRoute.ErrorBody (if truthy error then error
                             else str "Processing failed"))
        500
  | inr shown => OldRoute.mkNextResponse (OldRoute.ResultBody shown) 200
  end.

(** The path of its temporary file. *)
Definition old_upload_path (host : Route.Host) (Date_now : Route.Log -> N)
    (file : Upload.File) (log0 : Route.Log) : jsstring :=
  Route.path_join host (Route.tmpdir host)
    (Upload.decimal (Date_now log0) ++ str "-"
     ++ Upload.replace_unsafe (Upload.name file)).

(** The steps and the outcome of the earlier route for a request that
    passed its validation and is handled after the steps of [log0], read
    off the answers of the file, of the file system and of the pipeline.
    The upload could not be read: nothing is done.  The write failed: the
    file is unlinked.  Otherwise the file is written, the pipeline runs,
    and the file is unlinked once, whether that works or not; the
    response is made from the result of the pipeline, or, when the
    pipeline rejected with an [Error], it is that of the [catch] block
    (with the default message for a rejection that has no message).
    When the pipeline rejected with [undefined] or [null] the [catch]
    block throws on reading [message], and the handler rejects. *)
Definition old_handled {Item Output : Type}
    (processPDFDocument : jsstring -> jsstring -> M Output)
    (read : Output -> jsstring + OldRoute.Shown Item)
    (Date_now : Route.Log -> N) (env : Env) (host : Route.Host)
    (file : Upload.File) (language : jsstring) (log0 : Route.Log)
    (steps : list Route.Step) (o : Outcome (OldRoute.NextResponse Item))
  : Prop :=
  let p := old_upload_path host Date_now file log0 in
  match Upload.arrayBuffer file with
  | inl e => steps = [] /\ o = Fulfilled (old_caught e)
  | inr data =>
      match Route.fs_writeFile host log0 p data with
      | Some e =>
          steps
          = [Route.WriteFile p data (Some e);
             Route.Unlink p
               (Route.fs_unlink host
                  (log0 ++ [Route.WriteFile p data (Some e)]) p)]
          /\ o = Fulfilled (old_caught e)
      | None =>
          let log1 := log0 ++ [Route.WriteFile p data None] in
          let run :=
            processPDFDocument p (toLowerCase env language)
              (Route.calls log1) in
          let evs := events_since (Route.calls log1) (fst run) in
          let log2 := log1 ++ map Route.Call evs in
          steps
          = Route.WriteFile p data None
            :: map Route.Call evs
            ++ [Route.Unlink p (Route.fs_unlink host log2 p)]
          /\ match snd run with
             | Fulfilled out => o = Fulfilled (old_reply (read out))
             | Rejected (ThrownError e) => o = Fulfilled (old_caught e)
             | Rejected ThrownOther => o = Fulfilled (old_caught (mkError []))
             | Rejected (ThrownNullish v) =>
                 o = Rejected
                       (ThrownError
                          (mkError (TypeError_reading_message env v)))
             end
      end
  end.

Definition old_well_formed {Item} (response : OldRoute.NextResponse Item)
  : Prop :=
  match OldRoute.body response with
  | OldRoute.ResultBody _ => OldRoute.status response = 200
  | OldRoute.ErrorBody msg =>
      (OldRoute.status response = 400 \/ OldRoute.status response = 500)
      /\ msg <> []
  end.

(** The server as the page reaches it: the route handles the form after
    the steps of [log0].  Were the handler to reject, the page would get
    no response of the route; [POST] never does. *)
Definition served (env : Env) (host : Route.Host) (log0 : Route.Log)
    (form : Route.FormData) : JsError + Route.NextResponse :=
  match snd (Route.handle env host (Route.mkNextRequest (inr form)) log0) with
  | Fulfilled response => inr response
  | Rejected (ThrownError e) => inl e
  | Rejected ThrownOther => inl (mkError [])
  | Rejected (ThrownNullish v) =>
      inl (mkError (TypeError_reading_message env v))
  end.

End MoreSpec.
Export MoreSpec.

(** ** Sample hosts and uploads *)

Module MoreSamples.

(** A host whose file system does what it is asked. *)
Definition host : Route.Host :=
  Route.mkHost (str "/tmp") (fun _ => str "1b4e28ba")
    (fun a b => a ++ str "/" ++ b) (fun _ _ _ => None) (fun _ _ => None).

(** A host that writes files and cannot remove them. *)
Definition stubborn_host : Route.Host :=
  Route.mkHost (str "/tmp") (fun _ => str "1b4e28ba")
    (fun a b => a ++ str "/" ++ b) (fun _ _ _ => None)
    (fun _ _ => Some (mkError (str "EBUSY: resource busy or locked"))).

Definition lease : Upload.File :=
  Upload.mkFile (str "Lease 2024.PDF") (str "application/pdf") 2048
    (inr [37; 80; 68; 70]%N).

Definition lease_path : jsstring := str "/tmp/1b4e28ba-Lease_2024.PDF".

(** The clock of the earlier route, and the errors of its two calls on
    a value of the wrong kind. *)
Definition clock (log : Route.Log) : N := 1709632800000%N.

Definition not_a_function : JsError :=
  mkError (str "language.toLowerCase is not a function").

Definition undefined_name : JsError :=
  mkError (str "Cannot read properties of undefined (reading 'toLowerCase')").

Definition old_lease_path : jsstring :=
  str "/tmp/1709632800000-Lease_2024.PDF".

End MoreSamples.

(** * Properties *)

Unset Implicit Arguments.

(** ** Runs of the model on small inputs *)

Example sentences_examples :
  sentences (str "Hello world. How are you?  Fine!")
  = [str "Hello world."; str " How are you?"; str "  Fine!"]
  /\ sentences (str "Wait... what?! ok") = [str "Wait..."; str " what?!"]
  /\ sentences (str "no terminator") = [str "no terminator"]
  /\ sentences (str "...") = [str "..."]
  /\ sentences [] = [[]].
Proof. repeat split. Qed.

Example chunkText_examples :
  chunkText (str "Hello world. How are you?  Fine!") 14
  = [str "Hello world."; str "How are you?"; str "Fine!"]
  /\ chunkText (str "Hello world. How are you?  Fine!") 100
     = [str "Hello world. How are you?  Fine!"]
  /\ chunkText (str "ab   ") 2 = [str "ab"]
  /\ chunkText [] 5 = [].
Proof. repeat split. Qed.

(** The scenario of the specification: one extraction, one call of the
    model, one translation for the summary and two for each of the two
    items; the result is the success variant for [spanish] and records
    the length of the extracted text. *)
Example pipeline_end_to_end :
  let r := TranslationTs.processPDFDocument Samples.base_env Samples.upload
             (str "spanish") [] in
  map is_extract (fst r) = [true; false; false; false; false; false; false]
  /\ map is_generate (fst r)
     = [false; true; false; false; false; false; false]
  /\ map is_translate (fst r)
     = [false; false; true; true; true; true; true]
  /\ exists res,
       snd r = Fulfilled (TranslationTs.Success res)
       /\ TranslationTs.targetLanguage res = str "spanish"
       /\ TranslationTs.originalLength res = length Samples.document
       /\ TranslationTs.translatedSummary res
          = str "es:The patient has an appointment on March 5th."
       /\ map step (TranslationTs.actionPlan res)
          = [str "es:Bring ID"; str "es:Call the clinic"]
       /\ map priority (TranslationTs.actionPlan res) = [high; medium].
Proof.
  intros r. split; [reflexivity|]. split; [reflexivity|].
  split; [reflexivity|]. eexists. split; [reflexivity|].
  repeat split.
Qed.

Example js_helpers_examples :
  TranslationJs.summarizeText (str "Pay   the invoice.  Then rest") 1000
  = str "Pay the invoice."
  /\ TranslationJs.detectDocumentType Samples.base_env
       (str "Pay the INVOICE.") = TranslationJs.financial
  /\ TranslationJs.extractKeyTerms Samples.base_env
       (str "The contract, the payment; payment of 2024 with contract terms")
     = [str "contract"; str "payment"; str "2024"; str "terms"]
  /\ TranslationJs.lookup_language (str "french") = LangString (str "fr")
  /\ TranslationJs.lookup_language (str "constructor")
     = LangInherited (str "constructor")
  /\ TranslationJs.lookup_language (str "klingon") = LangUndefined.
Proof. repeat split. Qed.

(** ** Strings *)

Section StringFacts.

Lemma jseqb_eq (a b : jsstring) : jseqb a b = true <-> a = b.
Proof.
  revert b; induction a as [|x a IH]; intros [|y b]; simpl;
    try (split; intros; (reflexivity || discriminate)).
  unfold char_eqb. rewrite andb_true_iff, N.eqb_eq, IH.
  split; [intros [-> ->]; reflexivity | intros H; inversion H; auto].
Qed.

Lemma jseqb_refl (a : jsstring) : jseqb a a = true.
Proof. apply jseqb_eq; reflexivity. Qed.

Lemma reverse_rev (s : jsstring) : reverse s = rev s.
Proof. unfold reverse. symmetry. apply rev_alt. Qed.

Lemma truthy_true (s : jsstring) : truthy s = true <-> s <> [].
Proof. destruct s; simpl; split; congruence. Qed.

Lemma truthy_false (s : jsstring) : truthy s = false <-> s = [].
Proof. destruct s; simpl; split; congruence. Qed.

(** White space that [trimStart] removes, and what is left. *)
Lemma trimStart_split (s : jsstring) :
  exists w, s = w ++ trimStart s /\ forallb is_space w = true.
Proof.
  induction s as [|c s [w [Hs Hw]]]; simpl.
  - exists []; auto.
  - destruct (is_space c) eqn:E.
    + exists (c :: w); simpl; rewrite E, Hw; split; [congruence | reflexivity].
    + exists []; auto.
Qed.

Lemma trimStart_head (s : jsstring) :
  trimStart s = [] \/ head_nonspace (trimStart s).
Proof.
  induction s as [|c s IH]; simpl; auto.
  destruct (is_space c) eqn:E; simpl; auto.
Qed.

Lemma trimStart_fixed (s : jsstring) : head_nonspace s -> trimStart s = s.
Proof. destruct s as [|c s]; simpl; [tauto | intros ->; reflexivity]. Qed.

Lemma head_nonspace_app (s t : jsstring) :
  head_nonspace s -> head_nonspace (s ++ t).
Proof. destruct s; simpl; [tauto | auto]. Qed.

(** [trimStart] keeps everything from the first code unit that is not
    white space. *)
Lemma trimStart_keeps (a core b : jsstring) :
  head_nonspace core ->
  exists a', trimStart (a ++ core ++ b) = a' ++ core ++ b.
Proof.
  intros H. induction a as [|c a [a' IH]]; simpl.
  - exists []. apply trimStart_fixed. exact (head_nonspace_app core b H).
  - destruct (is_space c).
    + exists a'; exact IH.
    + exists (c :: a); reflexivity.
Qed.

Lemma trimEnd_keeps (a core b : jsstring) :
  head_nonspace (rev core) ->
  exists b', trimEnd (a ++ core ++ b) = a ++ core ++ b'.
Proof.
  intros H. unfold trimEnd. rewrite !reverse_rev.
  rewrite !rev_app_distr, <- app_assoc.
  destruct (trimStart_keeps (rev b) (rev core) (rev a) H) as [b' ->].
  exists (rev b'). rewrite !rev_app_distr, !rev_involutive, <- app_assoc.
  reflexivity.
Qed.

Lemma trimEnd_split (s : jsstring) :
  exists w, s = trimEnd s ++ w /\ forallb is_space w = true.
Proof.
  unfold trimEnd. rewrite !reverse_rev.
  destruct (trimStart_split (rev s)) as [w [Hs Hw]].
  exists (rev w). split.
  - rewrite <- rev_app_distr, <- Hs, rev_involutive; reflexivity.
  - rewrite forallb_forall in *. intros x Hx. apply Hw, in_rev, Hx.
Qed.

(** [trim s] sits inside [s] between two runs of white space. *)
Lemma trim_split (s : jsstring) :
  exists w1 w2, s = w1 ++ trim s ++ w2
                /\ forallb is_space w1 = true /\ forallb is_space w2 = true.
Proof.
  destruct (trimStart_split s) as [w1 [H1 Hw1]].
  destruct (trimEnd_split (trimStart s)) as [w2 [H2 Hw2]].
  exists w1, w2. unfold trim. rewrite <- H2. auto.
Qed.

Lemma trim_ends (s : jsstring) :
  trim s = [] \/ (head_nonspace (trim s) /\ head_nonspace (rev (trim s))).
Proof.
  destruct (trim s) as [|c t] eqn:E; [left; reflexivity | right].
  rewrite <- E. split.
  - destruct (trimEnd_split (trimStart s)) as [w [H _]].
    fold (trim s) in H. destruct (trimStart_head s) as [H0 | H0].
    + rewrite H0 in H. destruct (trim s); discriminate.
    + rewrite H in H0. rewrite E in *. exact H0.
  - unfold trim, trimEnd. rewrite !reverse_rev, rev_involutive.
    destruct (trimStart_head (rev (trimStart s))) as [H0 | H0]; auto.
    unfold trim, trimEnd in E. rewrite !reverse_rev, H0 in E. discriminate.
Qed.

Lemma trim_length (s : jsstring) : length (trim s) <= length s.
Proof.
  destruct (trim_split s) as [w1 [w2 [H _]]].
  rewrite H at 2. rewrite !length_app. lia.
Qed.

Lemma trim_nil_all_space (s : jsstring) :
  trim s = [] -> forallb is_space s = true.
Proof.
  intros E. destruct (trim_split s) as [w1 [w2 [H [H1 H2]]]].
  rewrite H, E. simpl. rewrite forallb_app, H1, H2. reflexivity.
Qed.

(** A piece of a string survives [trim], trimmed itself, inside the
    trimmed string. *)
Lemma trim_infix (p s q : jsstring) :
  trim s <> [] ->
  exists p' q', trim (p ++ s ++ q) = p' ++ trim s ++ q'.
Proof.
  intros Hne.
  destruct (trim_split s) as [w1 [w2 [H _]]].
  destruct (trim_ends s) as [E | [Hh Hl]]; [contradiction|].
  assert (Hcur : p ++ s ++ q = (p ++ w1) ++ trim s ++ (w2 ++ q)).
  { rewrite H at 1. rewrite <- !app_assoc. reflexivity. }
  rewrite Hcur. unfold trim at 1.
  destruct (trimStart_keeps (p ++ w1) (trim s) (w2 ++ q) Hh) as [p' ->].
  destruct (trimEnd_keeps p' (trim s) (w2 ++ q) Hl) as [q' ->].
  exists p', q'. reflexivity.
Qed.

Lemma strip_app (a b : jsstring) : strip (a ++ b) = strip a ++ strip b.
Proof. apply filter_app. Qed.

Lemma strip_all_space (w : jsstring) :
  forallb is_space w = true -> strip w = [].
Proof.
  induction w as [|c w IH]; simpl; auto.
  rewrite andb_true_iff. intros [-> H]. simpl. auto.
Qed.

Lemma strip_trim (s : jsstring) : strip (trim s) = strip s.
Proof.
  destruct (trim_split s) as [w1 [w2 [H [H1 H2]]]].
  rewrite H at 2. rewrite !strip_app, (strip_all_space _ H1),
    (strip_all_space _ H2), app_nil_r. reflexivity.
Qed.

Lemma strip_join_space (l : list jsstring) :
  strip (join space l) = concat (map strip l).
Proof.
  induction l as [|x l IH]; [reflexivity|].
  destruct l as [|y l].
  - simpl. rewrite app_nil_r. reflexivity.
  - change (join space (x :: y :: l)) with (x ++ space ++ join space (y :: l)).
    rewrite !strip_app, IH. reflexivity.
Qed.

End StringFacts.

(** ** The sentence scan *)

Section SentenceFacts.

Lemma terminator_not_space (c : char16) :
  is_terminator c = true -> is_space c = false.
Proof.
  unfold is_terminator. rewrite !orb_true_iff, !N.eqb_eq.
  intros [[-> | ->] | ->]; reflexivity.
Qed.

Lemma sentence_shape_ends (s : jsstring) :
  sentence_shape s -> ends_with_terminator s.
Proof.
  intros (body & terms & -> & _ & _ & Hne & Hall).
  destruct (exists_last Hne) as (t & c & ->).
  exists (body ++ t), c. rewrite <- app_assoc. split; [reflexivity|].
  rewrite forallb_app in Hall. apply andb_true_iff in Hall.
  destruct Hall as [_ Hc]. simpl in Hc. rewrite andb_true_r in Hc. exact Hc.
Qed.

Lemma forallb_snoc {A} (f : A -> bool) (l : list A) (x : A) :
  forallb f (l ++ [x]) = forallb f l && f x.
Proof. rewrite forallb_app. simpl. rewrite andb_true_r. reflexivity. Qed.

Lemma scan_shapes (s : jsstring) :
  forall st, scan_inv st -> Forall sentence_shape (scan st s).
Proof.
  induction s as [|c s IH]; intros st Hst.
  - destruct st; simpl; rewrite ?reverse_rev; auto.
  - destruct st as [|acc|acc]; simpl; rewrite ?reverse_rev;
      destruct (is_terminator c) eqn:E.
    + apply IH; exact I.
    + apply IH. simpl. unfold nonterminator. rewrite E. split; [discriminate | reflexivity].
    + apply IH. simpl. destruct Hst as [Hne Hall].
      exists (rev acc), [c]. repeat split; auto; try discriminate.
      * intros H. apply Hne. apply (f_equal (@rev _)) in H.
        rewrite rev_involutive in H. exact H.
      * simpl. rewrite E. reflexivity.
    + apply IH. simpl. destruct Hst as [Hne Hall]. split; [discriminate|].
      rewrite forallb_snoc, Hall. unfold nonterminator. rewrite E. reflexivity.
    + apply IH. simpl.
      destruct Hst as (body & terms & Hacc & Hb & Hball & Ht & Htall).
      exists body, (terms ++ [c]). rewrite Hacc, <- app_assoc.
      repeat split; auto.
      * intros H. destruct terms; discriminate.
      * rewrite forallb_snoc, Htall, E. reflexivity.
    + constructor; [exact Hst|].
      apply IH. simpl. unfold nonterminator. rewrite E.
      split; [discriminate | reflexivity].
Qed.

(** The matches are consecutive pieces of the text: before the first one
    only terminators are skipped, after the last one a run without any
    terminator is left over. *)
Lemma scan_cover (s : jsstring) :
  forall st,
    scan_inv st ->
    exists tail,
      forallb nonterminator tail = true /\
      match st with
      | Seeking =>
          exists skipped,
            forallb is_terminator skipped = true
            /\ s = skipped ++ concat (scan Seeking s) ++ tail
      | InBody acc => rev acc ++ s = concat (scan (InBody acc) s) ++ tail
      | InTerminators acc =>
          rev acc ++ s = concat (scan (InTerminators acc) s) ++ tail
      end.
Proof.
  induction s as [|c s IH]; intros st Hst.
  - destruct st as [|acc|acc]; simpl; rewrite ?reverse_rev.
    + exists []. split; [reflexivity|]. exists []. split; reflexivity.
    + exists (rev acc). split; [apply Hst|]. rewrite app_nil_r. reflexivity.
    + exists []. split; [reflexivity|]. rewrite !app_nil_r. reflexivity.
  - destruct st as [|acc|acc]; simpl; rewrite ?reverse_rev;
      destruct (is_terminator c) eqn:E.
    + destruct (IH Seeking I) as (tail & Ht & skipped & Hs & Heq).
      exists tail. split; [exact Ht|]. exists (c :: skipped). simpl.
      rewrite E, Hs, <- Heq. split; reflexivity.
    + assert (Hinv : scan_inv (InBody [c])).
      { simpl. unfold nonterminator. rewrite E. split; [discriminate | reflexivity]. }
      destruct (IH (InBody [c]) Hinv) as (tail & Ht & Heq).
      exists tail. split; [exact Ht|]. exists []. split; [reflexivity|].
      simpl in Heq. simpl. exact Heq.
    + assert (Hinv : scan_inv (InTerminators (c :: acc))).
      { destruct Hst as [Hne Hall]. exists (rev acc), [c]. simpl.
        rewrite E. repeat split; auto; try discriminate.
        intros H. apply Hne. apply (f_equal (@rev _)) in H.
        rewrite rev_involutive in H. exact H. }
      destruct (IH _ Hinv) as (tail & Ht & Heq).
      exists tail. split; [exact Ht|]. rewrite <- Heq. simpl.
      rewrite <- app_assoc. reflexivity.
    + assert (Hinv : scan_inv (InBody (c :: acc))).
      { destruct Hst as [Hne Hall]. simpl. split; [discriminate|].
        rewrite forallb_snoc, Hall. unfold nonterminator. rewrite E.
        reflexivity. }
      destruct (IH _ Hinv) as (tail & Ht & Heq).
      exists tail. split; [exact Ht|]. rewrite <- Heq. simpl.
      rewrite <- app_assoc. reflexivity.
    + assert (Hinv : scan_inv (InTerminators (c :: acc))).
      { destruct Hst as (body & terms & Hacc & Hb & Hball & Ht & Htall).
        exists body, (terms ++ [c]). simpl. rewrite Hacc, <- app_assoc.
        repeat split; auto.
        - intros H. destruct terms; discriminate.
        - rewrite forallb_snoc, Htall, E. reflexivity. }
      destruct (IH _ Hinv) as (tail & Ht & Heq).
      exists tail. split; [exact Ht|]. rewrite <- Heq. simpl.
      rewrite <- app_assoc. reflexivity.
    + assert (Hinv : scan_inv (InBody [c])).
      { simpl. unfold nonterminator. rewrite E. split; [discriminate | reflexivity]. }
      destruct (IH _ Hinv) as (tail & Ht & Heq).
      exists tail. split; [exact Ht|]. simpl. rewrite <- app_assoc.
      f_equal. exact Heq.
Qed.

Lemma match_sentences_shapes (text : jsstring) (ms : list jsstring) :
  match_sentences text = Some ms -> Forall sentence_shape ms.
Proof.
  unfold match_sentences. intros H.
  pose proof (scan_shapes text Seeking I) as Hs.
  destruct (scan Seeking text); [discriminate|]. inversion H; subst. exact Hs.
Qed.

(** [sentences] either gives the matches, or the whole text when there
    is none. *)
Lemma sentences_cases (text : jsstring) :
  (sentences text = [text] /\ match_sentences text = None)
  \/ (Forall sentence_shape (sentences text) /\ sentences text <> []).
Proof.
  unfold sentences. destruct (match_sentences text) as [ms|] eqn:E.
  - right. split; [exact (match_sentences_shapes text ms E)|].
    unfold match_sentences in E. destruct (scan Seeking text); [discriminate|].
    inversion E; discriminate.
  - left; auto.
Qed.

End SentenceFacts.

(** ** The chunker *)

Section ChunkerFacts.

Variable maxSize : nat.

Lemma chunk_loop_cons (s : jsstring) (ss : list jsstring)
    (st : list jsstring * jsstring) :
  chunk_loop maxSize (s :: ss) st
  = chunk_loop maxSize ss (chunk_step maxSize st s).
Proof. reflexivity. Qed.

Lemma ends_with_terminator_trim (s : jsstring) :
  ends_with_terminator s -> trim s <> [].
Proof.
  intros (l & c & -> & Hc) E.
  apply trim_nil_all_space in E.
  rewrite forallb_snoc, (terminator_not_space c Hc), andb_false_r in E.
  discriminate.
Qed.

Lemma skipn_ends_with_terminator (n : nat) (s : jsstring) :
  ends_with_terminator s ->
  skipn n s = [] \/ ends_with_terminator (skipn n s).
Proof.
  intros (l & c & -> & Hc).
  destruct (le_lt_dec n (length l)) as [Hle | Hlt].
  - right. exists (skipn n l), c. split; [|exact Hc].
    rewrite skipn_app. replace (n - length l) with 0 by lia. reflexivity.
  - left. apply skipn_all2. rewrite length_app. simpl. lia.
Qed.

Lemma ends_with_terminator_app (a b : jsstring) :
  ends_with_terminator b -> ends_with_terminator (a ++ b).
Proof.
  intros (l & c & -> & Hc). exists (a ++ l), c.
  rewrite <- app_assoc. auto.
Qed.

Lemma firstn_nonempty (n : nat) (s : jsstring) :
  1 <= n -> n < length s -> firstn n s <> [].
Proof.
  intros Hn Hs E. apply (f_equal (@length _)) in E.
  rewrite length_firstn in E. simpl in E. lia.
Qed.

(** One iteration keeps the chunks non-empty and the buffer either empty
    or ended by a terminator. *)
Lemma chunk_step_nonempty (chunks : list jsstring) (current s : jsstring) :
  1 <= maxSize ->
  Forall (fun c => c <> []) chunks -> buffer_ok current ->
  ends_with_terminator s ->
  Forall (fun c => c <> []) (fst (chunk_step maxSize (chunks, current) s))
  /\ buffer_ok (snd (chunk_step maxSize (chunks, current) s)).
Proof.
  intros Hmax Hch Hcur Hs. unfold chunk_step.
  destruct (maxSize <? length (current ++ s)) eqn:E.
  - destruct current as [|c0 current]; simpl truthy; cbv iota.
    + simpl in E. apply Nat.ltb_lt in E. simpl. split.
      * apply Forall_app. split; [exact Hch|].
        constructor; [|constructor]. unfold substring.
        rewrite Nat.sub_0_r. simpl skipn. apply firstn_nonempty; assumption.
      * unfold substring_from. apply skipn_ends_with_terminator, Hs.
    + simpl. split; [|right; exact Hs].
      apply Forall_app. split; [exact Hch|].
      constructor; [|constructor].
      destruct Hcur as [H | H]; [discriminate|].
      apply ends_with_terminator_trim, H.
  - simpl. split; [exact Hch|]. right.
    apply ends_with_terminator_app, Hs.
Qed.

Lemma chunk_loop_nonempty (ss : list jsstring) :
  1 <= maxSize ->
  Forall ends_with_terminator ss ->
  forall (chunks : list jsstring) (current : jsstring),
    Forall (fun c => c <> []) chunks -> buffer_ok current ->
    Forall (fun c => c <> []) (fst (chunk_loop maxSize ss (chunks, current))).
Proof.
  intros Hmax. induction 1 as [|s ss Hs Hss IH]; intros chunks current Hch Hcur.
  - exact Hch.
  - rewrite chunk_loop_cons.
    pose proof (chunk_step_nonempty chunks current s Hmax Hch Hcur Hs) as Hn.
    destruct (chunk_step maxSize (chunks, current) s) as [chunks' current'].
    destruct Hn as [H1 H2]. apply IH; assumption.
Qed.

Lemma chunkText_flush (text : jsstring) :
  chunkText text maxSize
  = flush (chunk_loop maxSize (sentences text) ([], [])).
Proof.
  unfold chunkText, flush.
  destruct (chunk_loop maxSize (sentences text) ([], [])); reflexivity.
Qed.

Lemma flush_nonempty (st : list jsstring * jsstring) :
  Forall (fun c => c <> []) (fst st) ->
  Forall (fun c => c <> []) (flush st).
Proof.
  intros H. unfold flush. destruct (truthy (trim (snd st))) eqn:E; [|exact H].
  apply Forall_app. split; [exact H|]. constructor; [|constructor].
  apply truthy_true, E.
Qed.

(** X1.  For a maximum size of at least 1, no chunk that [chunkText]
    returns is the empty string, whatever the text. *)
Theorem chunkText_chunks_nonempty (text : jsstring) :
  1 <= maxSize -> Forall (fun c => c <> []) (chunkText text maxSize).
Proof.
  intros Hmax. rewrite chunkText_flush. apply flush_nonempty.
  destruct (sentences_cases text) as [[E _] | [Hshape _]].
  - rewrite E. unfold chunk_loop, fold_left, chunk_step.
    rewrite app_nil_l. simpl truthy. cbv iota.
    destruct (maxSize <? length text) eqn:L; simpl.
    + constructor; [|constructor].
      unfold substring. rewrite Nat.sub_0_r. simpl skipn.
      apply Nat.ltb_lt in L. apply firstn_nonempty; assumption.
    + constructor.
  - apply chunk_loop_nonempty; auto.
    + eapply Forall_impl; [|exact Hshape]. exact sentence_shape_ends.
    + left; reflexivity.
Qed.

(** When no sentence is longer than the limit, no chunk is. *)
Lemma chunk_loop_bounded (ss : list jsstring) :
  Forall (fun s => length s <= maxSize) ss ->
  forall st : list jsstring * jsstring,
    Forall (fun c => length c <= maxSize) (fst st) ->
    length (snd st) <= maxSize ->
    Forall (fun c => length c <= maxSize) (fst (chunk_loop maxSize ss st))
    /\ length (snd (chunk_loop maxSize ss st)) <= maxSize.
Proof.
  induction 1 as [|s ss Hs Hss IH]; intros [chunks current] Hch Hcur.
  - split; assumption.
  - rewrite chunk_loop_cons. simpl in Hch, Hcur. unfold chunk_step.
    destruct (maxSize <? length (current ++ s)) eqn:E.
    + destruct current as [|c0 current]; simpl truthy; cbv iota.
      * simpl in E. apply Nat.ltb_lt in E. lia.
      * apply IH; simpl; [|exact Hs].
        apply Forall_app. split; [exact Hch|]. constructor; [|constructor].
        pose proof (trim_length (c0 :: current)). lia.
    + apply Nat.ltb_ge in E. apply IH; assumption.
Qed.

(** X2.  When none of the sentences of the text is longer than the
    maximum size, no chunk of [chunkText] is longer than the maximum
    size. *)
Theorem chunkText_bounded_when_sentences_fit (text : jsstring) :
  Forall (fun s => length s <= maxSize) (sentences text) ->
  Forall (fun c => length c <= maxSize) (chunkText text maxSize).
Proof.
  intros H. rewrite chunkText_flush.
  generalize (chunk_loop_bounded (sentences text) H ([], [])
                (Forall_nil _) (Nat.le_0_l _)).
  generalize (chunk_loop maxSize (sentences text) ([], [])).
  intros st [H1 H2]. unfold flush.
  destruct (truthy (trim (snd st))); [|exact H1].
  apply Forall_app. split; [exact H1|]. constructor; [|constructor].
  pose proof (trim_length (snd st)). lia.
Qed.

(** A text that fits in one chunk goes through the loop unsplit. *)
Lemma chunk_loop_fits (ss : list jsstring) :
  forall st : list jsstring * jsstring,
    length (snd st ++ concat ss) <= maxSize ->
    chunk_loop maxSize ss st = (fst st, snd st ++ concat ss).
Proof.
  induction ss as [|s ss IH]; intros [chunks current] H; simpl in H.
  - simpl. rewrite app_nil_r. reflexivity.
  - rewrite chunk_loop_cons. unfold chunk_step.
    rewrite !length_app in H.
    destruct (maxSize <? length (current ++ s)) eqn:E.
    + apply Nat.ltb_lt in E. rewrite length_app in E. lia.
    + rewrite IH; simpl.
      * rewrite <- app_assoc. reflexivity.
      * rewrite !length_app. lia.
Qed.

Lemma content_snoc (chunks : list jsstring) (c current : jsstring) :
  content (chunks ++ [c], current)
  = concat (map strip chunks) ++ strip c ++ strip current.
Proof.
  unfold content. simpl. rewrite map_app, concat_app. simpl.
  rewrite app_nil_r, <- app_assoc. reflexivity.
Qed.

Lemma chunk_step_content (st : list jsstring * jsstring) (s : jsstring) :
  content (chunk_step maxSize st s) = content st ++ strip s.
Proof.
  destruct st as [chunks current]. unfold chunk_step.
  destruct (maxSize <? length (current ++ s)).
  - destruct current as [|c0 current]; simpl truthy; cbv iota.
    + rewrite content_snoc. unfold content, substring, substring_from. simpl.
      rewrite Nat.sub_0_r, app_nil_r, <- strip_app, firstn_skipn.
      reflexivity.
    + rewrite content_snoc, strip_trim. unfold content. simpl fst. simpl snd.
      rewrite <- app_assoc. reflexivity.
  - unfold content. simpl. fold (strip (current ++ s)).
    rewrite strip_app, <- app_assoc. reflexivity.
Qed.

Lemma chunk_loop_content (ss : list jsstring) :
  forall st : list jsstring * jsstring,
    content (chunk_loop maxSize ss st) = content st ++ strip (concat ss).
Proof.
  induction ss as [|s ss IH]; intros st.
  - simpl. rewrite app_nil_r. reflexivity.
  - rewrite chunk_loop_cons, IH, chunk_step_content. simpl concat.
    rewrite strip_app, <- app_assoc. reflexivity.
Qed.

Lemma flush_content (st : list jsstring * jsstring) :
  concat (map strip (flush st)) = content st.
Proof.
  unfold flush, content. destruct (truthy (trim (snd st))) eqn:E.
  - rewrite map_app, concat_app. simpl. rewrite app_nil_r, strip_trim.
    reflexivity.
  - apply truthy_false in E. rewrite <- (strip_trim (snd st)), E. simpl.
    rewrite app_nil_r. reflexivity.
Qed.

Lemma chunk_step_keeps (s s' : jsstring) (st : list jsstring * jsstring) :
  trim s <> [] -> held s st -> held s (chunk_step maxSize st s').
Proof.
  intros Hs H. destruct st as [chunks current]. unfold chunk_step.
  destruct H as [(c & Hc & Hin) | (p & q & Hcur)]; simpl in *.
  - left. destruct (maxSize <? length (current ++ s'));
      [destruct (truthy current)|]; simpl; exists c;
      (split; [try apply in_or_app; auto | exact Hin]).
  - destruct (maxSize <? length (current ++ s')).
    + destruct current as [|c0 current]; simpl truthy; cbv iota.
      * exfalso. destruct p; [|discriminate]. destruct s; [|discriminate].
        apply Hs. reflexivity.
      * left. exists (trim (c0 :: current)). simpl. split.
        -- apply in_or_app. right. left. reflexivity.
        -- rewrite Hcur. destruct (trim_infix p s q Hs) as (p' & q' & ->).
           exists p', q'. reflexivity.
    + right. simpl. exists p, (q ++ s'). rewrite Hcur, <- !app_assoc.
      reflexivity.
Qed.

Lemma chunk_step_takes (s : jsstring) (st : list jsstring * jsstring) :
  length s <= maxSize -> held s (chunk_step maxSize st s).
Proof.
  intros Hs. destruct st as [chunks current]. unfold chunk_step. right.
  destruct (maxSize <? length (current ++ s)) eqn:E.
  - destruct current as [|c0 current]; simpl truthy; cbv iota.
    + simpl in E. apply Nat.ltb_lt in E. lia.
    + simpl. exists [], []. rewrite app_nil_r. reflexivity.
  - simpl. exists current, []. rewrite app_nil_r. reflexivity.
Qed.

Lemma chunk_loop_keeps (s : jsstring) (ss : list jsstring) :
  trim s <> [] ->
  forall st : list jsstring * jsstring,
    held s st -> held s (chunk_loop maxSize ss st).
Proof.
  intros Hs. induction ss as [|s' ss IH]; intros st H; [exact H|].
  rewrite chunk_loop_cons. apply IH, chunk_step_keeps; assumption.
Qed.

Lemma chunk_loop_takes (s : jsstring) (ss : list jsstring) :
  In s ss -> length s <= maxSize -> trim s <> [] ->
  forall st : list jsstring * jsstring, held s (chunk_loop maxSize ss st).
Proof.
  intros Hin Hlen Hs. induction ss as [|s' ss IH]; intros st; [contradiction|].
  rewrite chunk_loop_cons. destruct Hin as [-> | Hin].
  - apply chunk_loop_keeps; [exact Hs|]. apply chunk_step_takes, Hlen.
  - apply IH, Hin.
Qed.

Lemma flush_held (s : jsstring) (st : list jsstring * jsstring) :
  trim s <> [] -> held s st ->
  exists c, In c (flush st) /\ infix (trim s) c.
Proof.
  intros Hs [(c & Hc & Hin) | (p & q & Hcur)]; unfold flush.
  - exists c. split; [|exact Hin].
    destruct (truthy (trim (snd st))); [apply in_or_app; left|]; exact Hc.
  - destruct (trim_infix p s q Hs) as (p' & q' & Ht). rewrite <- Hcur in Ht.
    assert (Hne : truthy (trim (snd st)) = true).
    { apply truthy_true. rewrite Ht. destruct p'; [|discriminate].
      destruct (trim s); [contradiction | discriminate]. }
    rewrite Hne. exists (trim (snd st)). split.
    + apply in_or_app. right. left. reflexivity.
    + exists p', q'. exact Ht.
Qed.

End ChunkerFacts.

(** The sentence tokens are consecutive pieces of the text; what lies
    before the first one (terminators only) and after the last one (a run
    without terminator) is not part of any token. *)
Lemma match_sentences_cover (text : jsstring) (ms : list jsstring) :
  match_sentences text = Some ms ->
  exists skipped tail,
    text = skipped ++ concat ms ++ tail
    /\ forallb is_terminator skipped = true
    /\ forallb nonterminator tail = true.
Proof.
  unfold match_sentences. intros H.
  destruct (scan_cover text Seeking I) as (tail & Ht & skipped & Hs & Heq).
  destruct (scan Seeking text) as [|m ms'] eqn:E; [discriminate|].
  inversion H; subst. exists skipped, tail. auto.
Qed.

(** What [chunkText] does with such leftovers: it drops them. *)
Example chunkText_drops_unterminated_tail :
  chunkText (str "Hello. World") 100 = [str "Hello."]
  /\ chunkText (str "...Hi. Yo") 100 = [str "Hi."].
Proof. split; reflexivity. Qed.

(** The scan of a run of [a] closed by a full stop is one match. *)
Lemma scan_body_run (n : nat) :
  forall acc,
    scan (InBody acc) (repeat 97%N n ++ [46%N])
    = [rev acc ++ repeat 97%N n ++ [46%N]].
Proof.
  induction n as [|n IH]; intros acc; simpl.
  - rewrite reverse_rev. reflexivity.
  - rewrite IH. simpl. rewrite <- app_assoc. reflexivity.
Qed.

Lemma trim_fixed (s : jsstring) :
  head_nonspace s -> head_nonspace (rev s) -> trim s = s.
Proof.
  intros Hh Hl. unfold trim, trimEnd.
  rewrite (trimStart_fixed s Hh), !reverse_rev, (trimStart_fixed _ Hl).
  apply rev_involutive.
Qed.

(** A lone sentence [a ++ b] whose first [m] code units are [a]: [a] is
    pushed and [b], however long, follows as one chunk. *)
Lemma chunkText_hard_split (m : nat) (a b : jsstring) :
  length a = m -> b <> [] ->
  sentences (a ++ b) = [a ++ b] ->
  head_nonspace b -> head_nonspace (rev b) ->
  chunkText (a ++ b) m = [a; b].
Proof.
  intros Ha Hb Hsent Hh Hl. rewrite chunkText_flush, Hsent.
  rewrite chunk_loop_cons. unfold chunk_step. rewrite app_nil_l.
  assert (Hlen : (m <? length (a ++ b)) = true).
  { apply Nat.ltb_lt. rewrite length_app. destruct b; [contradiction|].
    simpl. lia. }
  rewrite Hlen. simpl truthy. cbv iota.
  unfold substring, substring_from. rewrite Nat.sub_0_r. simpl skipn at 1.
  rewrite firstn_app, skipn_app, Ha, Nat.sub_diag.
  rewrite firstn_all2 by lia. rewrite skipn_all2 by lia.
  simpl firstn. simpl skipn. rewrite app_nil_r, app_nil_l.
  unfold chunk_loop, fold_left, flush. simpl fst. simpl snd.
  rewrite (trim_fixed b Hh Hl).
  destruct b; [contradiction | reflexivity].
Qed.

(** The bound is missed at every limit [m]: a sentence of [2 * m + 2]
    code units is cut once, and the rest, [m + 2] code units, is one
    chunk. *)
Theorem chunkText_remainder_exceeds (m : nat) :
  1 <= m ->
  chunkText (repeat 97%N m ++ repeat 97%N (m + 1) ++ [46%N]) m
  = [repeat 97%N m; repeat 97%N (m + 1) ++ [46%N]]
  /\ m < length (repeat 97%N (m + 1) ++ [46%N]).
Proof.
  intros Hm. split; [|rewrite length_app, repeat_length; simpl; lia].
  apply chunkText_hard_split.
  - apply repeat_length.
  - destruct (repeat 97%N (m + 1)); discriminate.
  - rewrite app_assoc, <- repeat_app.
    replace (m + (m + 1)) with (S (m + m)) by lia.
    unfold sentences, match_sentences. simpl scan.
    rewrite scan_body_run. reflexivity.
  - replace (m + 1) with (S m) by lia. reflexivity.
  - rewrite rev_app_distr. reflexivity.
Qed.

(** C1.  The claim asks that every chunk be non-empty and no longer than
    the maximum size.  The hard split cuts an over-long sentence once and
    leaves the rest in the buffer unsplit, so the rest comes out as one
    chunk above the limit: with the limit 3 the text [aaaaaaaaaa.] gives
    the chunks [aaa] and [aaaaaaa.], and at the limit of the translation
    service a sentence of 50002 code units gives chunks of 25000 and
    25002 code units. *)
Theorem chunkText_oversized_chunk :
  chunkText (str "aaaaaaaaaa.") 3 = [str "aaa"; str "aaaaaaa."]
  /\ map (fun c => N.of_nat (length c))
       (chunkText (repeat 97%N 50001 ++ str ".")
          TranslationTs.MAX_TRANSLATE_CHUNK)
     = [25000%N; 25002%N].
Proof. split; vm_compute; reflexivity. Qed.

(** C2, as stated, fails: a text of white space only fits the limit, yet
    [chunkText] returns no chunk at all rather than the one-element list
    of the trimmed text. *)
Lemma chunkText_short_text_counterexample :
  length (str "   ") <= 5
  /\ chunkText (str "   ") 5 = []
  /\ chunkText (str "   ") 5 <> [trim (str "   ")].
Proof.
  split; [vm_compute; lia|]. split; [reflexivity|].
  vm_compute. discriminate.
Qed.

(** C2, amended.  A text within the limit that is made of its sentence
    tokens (or has none) comes back as the one-element list of the
    trimmed text, or as no chunk when it holds white space only.  For
    every text and limit the chunks, joined by single spaces, have the
    same code units other than white space, in the same order, as the
    sentence tokens of the text put together; and every sentence token
    that is not longer than the limit and not blank lies trimmed inside
    one chunk. *)
Theorem chunkText_content (T : jsstring) (limit : nat) :
  (length T <= limit -> concat (sentences T) = T ->
     chunkText T limit = if truthy (trim T) then [trim T] else [])
  /\ strip (join space (chunkText T limit)) = strip (concat (sentences T))
  /\ (forall s, In s (sentences T) -> length s <= limit -> trim s <> [] ->
        exists c, In c (chunkText T limit) /\ infix (trim s) c).
Proof.
  rewrite chunkText_flush. split; [|split].
  - intros Hlen Hcover. rewrite chunk_loop_fits; simpl; rewrite Hcover; auto.
  - rewrite strip_join_space, flush_content, chunk_loop_content. reflexivity.
  - intros s Hin Hlen Hs. apply flush_held; [exact Hs|].
    apply chunk_loop_takes; assumption.
Qed.

Lemma chunkText_content_witness :
  chunkText (str "Hi. Yo.") 10 = [str "Hi. Yo."]
  /\ exists c, In c (chunkText (str "Hi. Yo.") 4)
               /\ infix (trim (str " Yo.")) c.
Proof.
  split.
  - destruct (chunkText_content (str "Hi. Yo.") 10) as (H1 & _ & _).
    apply H1; [vm_compute; lia | reflexivity].
  - destruct (chunkText_content (str "Hi. Yo.") 4) as (_ & _ & H3).
    apply H3; [right; left; reflexivity | vm_compute; lia | discriminate].
Defined.

(** ** Asynchronous computations and the calls they make *)

Section RunFacts.

Import TranslationTs.

Variable env : Env.

Lemma events_since_app (h evs : Trace) : events_since h (h ++ evs) = evs.
Proof.
  unfold events_since.
  rewrite skipn_app, skipn_all, Nat.sub_diag. reflexivity.
Qed.

Lemma runs_ret {A} (kind : Event -> bool) (a : A) :
  runs env (ret a) kind (fun _ evs x => evs = [] /\ x = a).
Proof.
  intros h. exists []. simpl. rewrite app_nil_r. auto.
Qed.

Lemma runs_bind {A B} (m : M A) (k : A -> M B) (kind : Event -> bool)
    (P : Trace -> list Event -> A -> Prop)
    (Q : A -> Trace -> list Event -> B -> Prop) :
  runs env m kind P ->
  (forall a, runs env (k a) kind (Q a)) ->
  runs env (bind m k) kind
    (fun h evs b =>
       exists a e1 e2, evs = e1 ++ e2 /\ P h e1 a /\ Q a (h ++ e1) e2 b).
Proof.
  intros Hm Hk h. destruct (Hm h) as (e1 & Hf & Hk1 & Hs).
  unfold bind. destruct (m h) as [h1 o]. simpl in Hf, Hs. subst h1.
  destruct o as [a | e]; simpl in Hs.
  - destruct Hs as [Hfail HP].
    destruct (Hk a (h ++ e1)) as (e2 & Hf2 & Hk2 & Hs2).
    exists (e1 ++ e2). rewrite Hf2, app_assoc. split; [reflexivity|].
    rewrite forallb_app, Hk1, Hk2. split; [reflexivity|].
    rewrite existsb_app, Hfail. simpl.
    destruct (snd (k a (h ++ e1))) as [b | e']; simpl in *; [|exact Hs2].
    destruct Hs2 as [Hfail2 HQ]. split; [exact Hfail2|].
    exists a, e1, e2. auto.
  - exists e1. simpl. auto.
Qed.

Lemma runs_weaken {A} (m : M A) (kind kind' : Event -> bool)
    (P P' : Trace -> list Event -> A -> Prop) :
  (forall ev, kind ev = true -> kind' ev = true) ->
  (forall h evs a, fst (m h) = h ++ evs -> snd (m h) = Fulfilled a ->
                   P h evs a -> P' h evs a) ->
  runs env m kind P -> runs env m kind' P'.
Proof.
  intros Hkind HP Hm h. destruct (Hm h) as (evs & Hf & Hk & Hs).
  exists evs. split; [exact Hf|]. split.
  - rewrite forallb_forall in *. auto.
  - destruct (snd (m h)) as [a | e] eqn:E; simpl in *; [|exact Hs].
    destruct Hs as [Hfail Ha]. split; [exact Hfail|]. apply HP; auto.
Qed.

Lemma runs_Promise_all2 {A B} (ma : M A) (mb : M B) (kind : Event -> bool)
    (P : Trace -> list Event -> A -> Prop)
    (Q : Trace -> list Event -> B -> Prop) :
  runs env ma kind P -> runs env mb kind Q ->
  runs env (Promise_all2 env ma mb) kind
    (fun h evs ab =>
       exists e1 e2,
         evs = e1 ++ e2 /\ P h e1 (fst ab) /\ Q (h ++ e1) e2 (snd ab)).
Proof.
  intros Ha Hb h. destruct (Ha h) as (e1 & Hf1 & Hk1 & Hs1).
  destruct (Hb (h ++ e1)) as (e2 & Hf2 & Hk2 & Hs2).
  unfold Promise_all2. destruct (ma h) as [h1 oa]. simpl in Hf1, Hs1.
  subst h1. destruct (mb (h ++ e1)) as [h2 ob]. simpl in Hf2, Hs2. subst h2.
  exists (e1 ++ e2). rewrite app_assoc. split; [reflexivity|].
  rewrite forallb_app, Hk1, Hk2. split; [reflexivity|].
  rewrite existsb_app. simpl.
  destruct oa as [a | ea], ob as [b | eb]; simpl in *.
  - destruct Hs1 as [-> HP], Hs2 as [-> HQ]. split; [reflexivity|].
    exists e1, e2. auto.
  - rewrite Hs2. apply orb_true_r.
  - rewrite Hs1. reflexivity.
  - rewrite Hs1. reflexivity.
Qed.

Lemma start_all_runs {X A} (f : X -> M A) (kind : Event -> bool)
    (P : X -> Trace -> list Event -> A -> Prop) :
  (forall x, runs env (f x) kind (P x)) ->
  forall (xs : list X) (h : Trace),
    exists evs,
      fst (start_all (map f xs) h) = h ++ evs
      /\ forallb kind evs = true
      /\ settles (settle_all env (snd (start_all (map f xs) h)))
           (existsb (event_failed env) evs) (each P xs h evs).
Proof.
  intros Hf. induction xs as [|x xs IH]; intros h.
  - exists []. simpl. rewrite app_nil_r. auto.
  - destruct (Hf x h) as (e1 & Hf1 & Hk1 & Hs1).
    destruct (IH (h ++ e1)) as (e2 & Hf2 & Hk2 & Hs2).
    simpl. destruct (f x h) as [h1 o]. simpl in Hf1, Hs1. subst h1.
    destruct (start_all (map f xs) (h ++ e1)) as [h2 os].
    simpl in Hf2, Hs2. subst h2.
    exists (e1 ++ e2). rewrite app_assoc. split; [reflexivity|].
    rewrite forallb_app, Hk1, Hk2. split; [reflexivity|].
    rewrite existsb_app. unfold settle_all in *. simpl.
    destruct o as [a | e]; simpl in *.
    + destruct Hs1 as [-> HP]. simpl.
      destruct (rejections os); simpl in *; [|exact Hs2].
      destruct Hs2 as [Hfail Heach]. split; [exact Hfail|].
      exists e1, e2. auto.
    + rewrite Hs1. reflexivity.
Qed.

Lemma runs_Promise_all {X A} (f : X -> M A) (kind : Event -> bool)
    (P : X -> Trace -> list Event -> A -> Prop) (xs : list X) :
  (forall x, runs env (f x) kind (P x)) ->
  runs env (Promise_all env (map f xs)) kind (each P xs).
Proof.
  intros Hf h. destruct (start_all_runs f kind P Hf xs h) as (evs & H1 & H2 & H3).
  unfold Promise_all. destruct (start_all (map f xs) h) as [h1 os].
  exists evs. auto.
Qed.

Lemma each_length {X A} (P : X -> Trace -> list Event -> A -> Prop) :
  forall (xs : list X) (h : Trace) (evs : list Event) (ys : list A),
    each P xs h evs ys -> length ys = length xs.
Proof.
  induction xs as [|x xs IH]; intros h evs [|y ys] H; simpl in *;
    try contradiction; auto.
  destruct H as (e1 & e2 & _ & _ & H). f_equal. eapply IH, H.
Qed.

Lemma each_Forall2 {X A} (P : X -> Trace -> list Event -> A -> Prop)
    (R : X -> A -> Prop) :
  (forall x h evs a, P x h evs a -> R x a) ->
  forall (xs : list X) (h : Trace) (evs : list Event) (ys : list A),
    each P xs h evs ys -> Forall2 R xs ys.
Proof.
  intros HR. induction xs as [|x xs IH]; intros h evs [|y ys] H; simpl in *;
    try contradiction; constructor.
  - destruct H as (e1 & e2 & _ & HP & _). eapply HR, HP.
  - destruct H as (e1 & e2 & _ & _ & H). eapply IH, H.
Qed.

End RunFacts.

(** ** The translation adapter of [translation.ts] *)

Section AdapterFacts.

Import TranslationTs.

Variable env : Env.
Variables targetLangCode sourceLangCode : jsstring.

Local Notation "'req'" :=
  (translate_request env targetLangCode sourceLangCode).
Local Notation "'call'" :=
  (translate_event env targetLangCode sourceLangCode).

(** One [translate] is one call, whatever its outcome. *)
Lemma translate_trace (content : jsstring) (h : Trace) :
  fst (translate env targetLangCode sourceLangCode content h)
  = h ++ [call h content].
Proof.
  unfold translate, bind, call_translate, translate_event.
  destruct (translate_api env h _) as [e | [|t ts]]; simpl; try reflexivity.
  destruct (truthy t); reflexivity.
Qed.

Lemma translate_runs (content : jsstring) :
  runs env (translate env targetLangCode sourceLangCode content) is_translate
    (fun h evs t => evs = [call h content] /\ t = event_text (call h content)).
Proof.
  intros h. exists [call h content]. split; [apply translate_trace|].
  split; [reflexivity|].
  unfold translate, bind, call_translate, translate_event. simpl.
  destruct (translate_api env h _) as [e | [|t ts]]; simpl; try reflexivity.
  destruct (truthy t) eqn:E; simpl; auto.
Qed.

Lemma start_all_requests (chunks : list jsstring) :
  forall h : Trace,
    exists evs,
      fst (start_all
             (map (translate env targetLangCode sourceLangCode) chunks) h)
      = h ++ evs
      /\ map event_request evs = map (fun c => Some (req c)) chunks.
Proof.
  induction chunks as [|c chunks IH]; intros h.
  - exists []. simpl. rewrite app_nil_r. auto.
  - simpl. pose proof (translate_trace c h) as Hc.
    destruct (translate env targetLangCode sourceLangCode c h) as [h1 o].
    simpl in Hc. subst h1.
    destruct (IH (h ++ [call h c])) as (evs & Hf & Hr).
    destruct (start_all _ (h ++ [call h c])) as [h2 os]. simpl in Hf.
    subst h2. exists (call h c :: evs). simpl. rewrite <- app_assoc.
    split; [reflexivity|]. rewrite Hr. reflexivity.
Qed.

Lemma each_texts (chunks : list jsstring) :
  forall (h : Trace) (evs : list Event) (ts : list jsstring),
    each (fun c h evs t => evs = [call h c] /\ t = event_text (call h c))
      chunks h evs ts ->
    ts = map event_text evs.
Proof.
  induction chunks as [|c chunks IH]; intros h evs [|t ts] H; simpl in H;
    try contradiction.
  - subst. reflexivity.
  - destruct H as (e1 & e2 & -> & [-> ->] & H). simpl. f_equal.
    eapply IH, H.
Qed.

(** The requests that [translateText] issues: one per piece, in order. *)
Lemma translateText_requests (text : jsstring) (h : Trace) :
  exists evs,
    fst (translateText env text targetLangCode sourceLangCode h) = h ++ evs
    /\ map event_request evs = map (fun c => Some (req c)) (pieces text).
Proof.
  unfold translateText, pieces.
  destruct (length text <=? MAX_TRANSLATE_CHUNK).
  - exists [call h text]. split; [apply translate_trace | reflexivity].
  - destruct (start_all_requests (chunkText text MAX_TRANSLATE_CHUNK) h)
      as (evs & Hf & Hr).
    exists evs. split; [|exact Hr].
    unfold bind, Promise_all. destruct (start_all _ h) as [h1 os].
    simpl in Hf. subst h1. destruct (settle_all env os); reflexivity.
Qed.

(** Its outcome: the translated pieces joined by single spaces when no
    call failed, a rejection when one did. *)
Lemma translateText_runs (text : jsstring) :
  runs env (translateText env text targetLangCode sourceLangCode)
    is_translate
    (fun h evs t => t = join space (map event_text evs)).
Proof.
  unfold translateText.
  destruct (length text <=? MAX_TRANSLATE_CHUNK).
  - eapply runs_weaken; cycle 2.
    + apply translate_runs.
    + intros ev H; exact H.
    + intros h evs t _ _ [-> ->]. reflexivity.
  - eapply runs_weaken; cycle 2.
    + apply runs_bind.
      * apply runs_Promise_all. intros c. apply translate_runs.
      * intros ts. apply runs_ret.
    + intros ev H; exact H.
    + intros h evs t _ _ (ts & e1 & e2 & -> & Heach & -> & ->).
      rewrite app_nil_r. apply each_texts in Heach. subst ts. reflexivity.
Qed.

End AdapterFacts.

(** C3.  [translateText] issues one remote call for a text of at most
    25,000 code units and otherwise one call per chunk of [chunkText] at
    that limit, in chunk order; when no call fails it returns the
    translated pieces joined by single spaces in that order. *)
Theorem translateText_calls (env : Env)
    (text targetLangCode sourceLangCode : jsstring) (h : Trace) :
  let r := TranslationTs.translateText env text targetLangCode
             sourceLangCode h in
  let evs := events_since h (fst r) in
  fst r = h ++ evs
  /\ map event_request evs
     = map (fun c => Some (TranslationTs.translate_request env targetLangCode
                             sourceLangCode c))
         (if length text <=? 25000 then [text] else chunkText text 25000)
  /\ settles (snd r)
       (existsb (event_failed env) evs)
       (fun t => t = join space (map event_text evs)).
Proof.
  intros r evs.
  destruct (translateText_requests env targetLangCode sourceLangCode text h)
    as (evs1 & Hf & Hr).
  destruct (translateText_runs env targetLangCode sourceLangCode text h)
    as (evs2 & Hf2 & _ & Hs).
  fold r in Hf, Hf2, Hs.
  assert (evs2 = evs1) by (rewrite Hf in Hf2; eapply app_inv_head, eq_sym, Hf2).
  subst evs2. assert (Hevs : evs = evs1).
  { unfold evs. rewrite Hf. apply events_since_app. }
  rewrite Hevs. auto.
Qed.

(** C4.  On a text longer than the limit, a failed call for any one chunk
    (a rejection, or an answer without translated text) makes the whole
    [translateText] reject; a rejection carries no translation. *)
Theorem translateText_all_or_nothing (env : Env)
    (text targetLangCode sourceLangCode : jsstring) (h : Trace) (ev : Event) :
  25000 < length text ->
  In ev (events_since h
           (fst (TranslationTs.translateText env text targetLangCode
                   sourceLangCode h))) ->
  event_failed env ev = true ->
  exists e,
    snd (TranslationTs.translateText env text targetLangCode
           sourceLangCode h) = Rejected e.
Proof.
  intros _ Hin Hfail.
  destruct (translateText_runs env targetLangCode sourceLangCode text h)
    as (evs & Hf & _ & Hs).
  rewrite Hf, events_since_app in Hin.
  assert (Hex : existsb (event_failed env) evs = true).
  { apply existsb_exists. exists ev. auto. }
  rewrite Hex in Hs.
  destruct (snd (TranslationTs.translateText env text targetLangCode
                   sourceLangCode h)) as [t | e]; simpl in Hs.
  - destruct Hs; discriminate.
  - exists e. reflexivity.
Qed.

Section ActionPlanFacts.

Import TranslationTs.

Variable env : Env.
Variable targetLangCode : jsstring.

Lemma translateText_runs_self (text sourceLangCode : jsstring) :
  runs env (translateText env text targetLangCode sourceLangCode)
    is_translate
    (fun h evs t =>
       translateText env text targetLangCode sourceLangCode h
       = (h ++ evs, Fulfilled t)).
Proof.
  eapply runs_weaken; cycle 2.
  - apply translateText_runs.
  - intros ev H; exact H.
  - intros h evs t Hf Hs _. simpl. rewrite <- Hf, <- Hs.
    apply surjective_pairing.
Qed.

Lemma translateItem_runs (item : ActionItem) :
  runs env (translateItem env targetLangCode item) is_translate
    (fun _ _ o => item_translated env targetLangCode item o).
Proof.
  unfold translateItem. eapply runs_weaken; cycle 2.
  - apply runs_bind with
      (Q := fun a _ evs o =>
              evs = [] /\
              o = mkActionItem (fst a) (snd a) (priority item)
                    (professionalType item)).
    + apply runs_Promise_all2; apply translateText_runs_self.
    + intros [s d]. apply (runs_ret env).
  - intros ev H; exact H.
  - intros h evs o _ _ ([s d] & e1 & e2 & _ & (e3 & e4 & _ & Hs & Hd) & _ & ->).
    simpl in Hs, Hd. repeat split; simpl; eauto.
Qed.

Lemma translateActionPlan_runs (plan : list ActionItem) :
  runs env (translateActionPlan env plan targetLangCode) is_translate
    (fun _ _ plan' =>
       length plan' = length plan
       /\ Forall2 (item_translated env targetLangCode) plan plan').
Proof.
  unfold translateActionPlan. eapply runs_weaken; cycle 2.
  - apply runs_Promise_all. intros item. apply translateItem_runs.
  - intros ev H; exact H.
  - intros h evs plan' _ _ Heach. split.
    + eapply each_length, Heach.
    + eapply each_Forall2; [|exact Heach]. auto.
Qed.

End ActionPlanFacts.

(** C9.  When [translateActionPlan] fulfils, which it does unless one of
    its calls failed, the list it returns has the length and the order of
    the input: item by item the [priority] and the [professionalType] are
    the input's, and the [step] and the [description] are translations of
    the input's. *)
Theorem translateActionPlan_frame (env : Env) (plan : list ActionItem)
    (targetLangCode : jsstring) (h : Trace) :
  let r := TranslationTs.translateActionPlan env plan targetLangCode h in
  settles (snd r)
    (existsb (event_failed env)
       (events_since h (fst r)))
    (fun plan' =>
       length plan' = length plan
       /\ Forall2 (item_translated env targetLangCode)
            plan plan').
Proof.
  intros r.
  destruct (translateActionPlan_runs env targetLangCode plan h)
    as (evs & Hf & _ & Hs).
  fold r in Hf, Hs. rewrite Hf, events_since_app. exact Hs.
Qed.

(** ** The pipeline of [translation.ts] *)

Section PipelineFacts.

Import TranslationTs.

Variable env : Env.

Lemma runs_self {A} (m : M A) (kind : Event -> bool)
    (P : Trace -> list Event -> A -> Prop) :
  runs env m kind P ->
  runs env m kind
    (fun h evs a => P h evs a /\ m h = (h ++ evs, Fulfilled a)).
Proof.
  intros Hm. eapply runs_weaken; cycle 2.
  - exact Hm.
  - intros ev H; exact H.
  - intros h evs a Hf Hs HP. split; [exact HP|].
    rewrite <- Hf, <- Hs. apply surjective_pairing.
Qed.

Lemma blank_test (text : jsstring) :
  negb (truthy text) || (length (trim text) =? 0) = negb (truthy (trim text)).
Proof.
  destruct text as [|c text]; [reflexivity|]. simpl negb. simpl orb.
  destruct (trim (c :: text)); reflexivity.
Qed.

(** Extraction is one call; it fails when reading throws or when the
    text has nothing but white space. *)
Lemma extractTextFromPDF_run (pdfPath : jsstring) (h : Trace) :
  extractTextFromPDF env pdfPath h
  = (h ++ [EvExtract pdfPath (pdf_parse env h pdfPath)],
     match pdf_parse env h pdfPath with
     | PdfThrows e => Rejected e
     | PdfData text =>
         if truthy (trim text) then Fulfilled text
         else Rejected (mkError (str
           "No text could be extracted from this PDF. It may be scanned image-only."))
     end).
Proof.
  unfold extractTextFromPDF, bind, call_pdf.
  destruct (pdf_parse env h pdfPath) as [e | text]; [reflexivity|].
  rewrite blank_test. destruct (truthy (trim text)); reflexivity.
Qed.

Lemma extractTextFromPDF_runs (pdfPath : jsstring) :
  runs env (extractTextFromPDF env pdfPath) any_event
    (fun h evs text =>
       evs = [EvExtract pdfPath (PdfData text)] /\ truthy (trim text) = true).
Proof.
  intros h. rewrite extractTextFromPDF_run.
  exists [EvExtract pdfPath (pdf_parse env h pdfPath)].
  split; [reflexivity|]. split; [reflexivity|]. simpl.
  destruct (pdf_parse env h pdfPath) as [e | text]; simpl; [reflexivity|].
  destruct (truthy (trim text)) eqn:E; simpl; auto.
Qed.

Lemma generateSummaryAndActions_runs (fullText : jsstring) :
  runs env (generateSummaryAndActions env fullText) not_extract
    (fun _ _ _ => True).
Proof.
  intros h. exists [EvGenerate (make_prompt fullText)
                      (generateContent env h (make_prompt fullText))].
  unfold generateSummaryAndActions, bind, call_gemini, generation_ok.
  destruct (generateContent env h (make_prompt fullText)) as [e | raw];
    simpl; [auto|].
  unfold generation_ok.
  destruct (truthy raw); simpl; [|auto].
  destruct (JSON_parse env raw) as [e | parsed]; simpl; [auto|].
  destruct (truthy (parsed_summary parsed)); simpl; [|auto].
  destruct (parsed_actionPlan parsed); simpl; auto.
Qed.

Lemma now_runs (kind : Event -> bool) :
  runs env (now env) kind
    (fun h evs t => evs = [] /\ t = toISOString_now env h).
Proof. intros h. exists []. simpl. rewrite app_nil_r. auto. Qed.

Lemma translate_not_extract (ev : Event) :
  is_translate ev = true -> not_extract ev = true.
Proof. destruct ev; simpl; auto; discriminate. Qed.

Variables pdfPath targetLang langCode : jsstring.

Local Notation "'rest'" := (steps_2_and_3 env targetLang langCode).

Lemma rest_runs (fullText : jsstring) :
  runs env (rest fullText) not_extract
    (fun h evs o =>
       exists res out h2 h3 h4,
         o = Success res
         /\ generateSummaryAndActions env fullText h = (h2, Fulfilled out)
         /\ translateText env (summary out) langCode en h2
            = (h3, Fulfilled (translatedSummary res))
         /\ translateActionPlan env (llm_actionPlan out) langCode h3
            = (h4, Fulfilled (actionPlan res))
         /\ length (actionPlan res) = length (llm_actionPlan out)
         /\ Forall2 (item_translated env langCode)
              (llm_actionPlan out) (actionPlan res)
         /\ targetLanguage res = targetLang
         /\ summaryLength res = length (translatedSummary res)
         /\ originalLength res = length fullText).
Proof.
  unfold steps_2_and_3. eapply runs_weaken; cycle 2.
  - apply runs_bind.
    + apply runs_self, generateSummaryAndActions_runs.
    + intros out.
      apply runs_bind with
        (Q := fun ab _ evs o =>
                exists stamp,
                  o = Success (mkProcessingResult (fst ab) (snd ab) targetLang
                                 (length (fst ab)) (length fullText) stamp)).
      * apply runs_Promise_all2.
        -- eapply runs_weaken; cycle 2.
           ++ apply (translateText_runs_self env langCode (summary out) en).
           ++ exact translate_not_extract.
           ++ intros h evs a _ _ H. exact H.
        -- eapply runs_weaken; cycle 2.
           ++ apply runs_self.
              apply (translateActionPlan_runs env langCode (llm_actionPlan out)).
           ++ exact translate_not_extract.
           ++ intros h evs a _ _ H. exact H.
      * intros [ts ta]. eapply runs_weaken; cycle 2.
        -- apply runs_bind.
           ++ apply now_runs.
           ++ intros stamp. apply runs_ret.
        -- intros ev H; exact H.
        -- intros h evs o _ _ (stamp & e1 & e2 & _ & _ & _ & ->).
           exists stamp. reflexivity.
  - intros ev H; exact H.
  - intros h evs o _ _
      (out & e1 & e2 & -> & [_ Hgen] & [ts ta] & e3 & e4 & -> &
       (e5 & e6 & -> & Hts & [[Hlen Hall] Hta]) & stamp & ->).
    simpl in Hts, Hta, Hlen, Hall.
    eexists _, out, _, _, _. split; [reflexivity|]. simpl.
    repeat split; eauto.
Qed.

Lemma getLanguageCode_truthy (k c : jsstring) :
  getLanguageCode env k = Some c -> truthy c = true.
Proof.
  unfold getLanguageCode, SUPPORTED_LANGUAGES. simpl.
  repeat (match goal with
          | |- context [if ?b then _ else _] => destruct b
          end; simpl; [intros H; inversion H; reflexivity|]).
  discriminate.
Qed.

Lemma body_supported :
  getLanguageCode env targetLang = Some langCode ->
  processPDFDocument_body env pdfPath targetLang
  = bind (extractTextFromPDF env pdfPath) rest.
Proof.
  intros H. unfold processPDFDocument_body.
  rewrite H, (getLanguageCode_truthy _ _ H). reflexivity.
Qed.

Lemma body_unsupported :
  getLanguageCode env targetLang = None ->
  processPDFDocument_body env pdfPath targetLang
  = throw (mkError (str "Unsupported language: " ++ targetLang)).
Proof. intros H. unfold processPDFDocument_body. rewrite H. reflexivity. Qed.

Lemma body_runs :
  getLanguageCode env targetLang = Some langCode ->
  runs env (processPDFDocument_body env pdfPath targetLang) any_event
    (fun _ _ o =>
       exists res, o = Success res
                   /\ complete_result env pdfPath targetLang res).
Proof.
  intros Hlang. rewrite (body_supported Hlang).
  eapply runs_weaken; cycle 2.
  - apply runs_bind.
    + apply runs_self, extractTextFromPDF_runs.
    + intros fullText. eapply runs_weaken; cycle 2.
      * apply rest_runs.
      * intros ev _. reflexivity.
      * intros h evs a _ _ H. exact H.
  - intros ev H; exact H.
  - intros h evs o _ _
      (fullText & e1 & e2 & -> & [_ Hext] &
       res & out & h2 & h3 & h4 & -> & Hgen & Hts & Hta & Hlen & Hall & Hrest).
    exists res. split; [reflexivity|].
    exists langCode, fullText, out, h, (h ++ e1), h2, h3, h4.
    repeat split; try tauto; assumption.
Qed.

(** What a run of the body adds to the history when the language is
    supported: the extraction, then calls that are not extractions, and
    none at all when the extraction failed. *)
Lemma body_trace (h : Trace) :
  getLanguageCode env targetLang = Some langCode ->
  exists e2,
    fst (processPDFDocument_body env pdfPath targetLang h)
    = h ++ EvExtract pdfPath (pdf_parse env h pdfPath) :: e2
    /\ forallb not_extract e2 = true
    /\ (event_failed env (EvExtract pdfPath (pdf_parse env h pdfPath)) = true ->
        e2 = []
        /\ snd (processPDFDocument_body env pdfPath targetLang h)
           = Rejected
               match pdf_parse env h pdfPath with
               | PdfThrows e => e
               | PdfData _ =>
                   mkError (str
                     "No text could be extracted from this PDF. It may be scanned image-only.")
               end).
Proof.
  intros Hlang. rewrite (body_supported Hlang). unfold bind.
  rewrite extractTextFromPDF_run.
  destruct (pdf_parse env h pdfPath) as [e | text]; simpl.
  - exists []. auto.
  - destruct (truthy (trim text)) eqn:E; simpl.
    + destruct (rest_runs text (h ++ [EvExtract pdfPath (PdfData text)]))
        as (e2 & Hf & Hk & _).
      exists e2. rewrite Hf, <- app_assoc. simpl.
      repeat split; auto; discriminate.
    + exists []. auto.
Qed.

Lemma processPDFDocument_unfold (h : Trace) :
  processPDFDocument env pdfPath targetLang h
  = (fst (processPDFDocument_body env pdfPath targetLang h),
     match snd (processPDFDocument_body env pdfPath targetLang h) with
     | Fulfilled o => Fulfilled o
     | Rejected (ThrownError e) =>
         Fulfilled
           (Failure
              (mkProcessingError
                 (if truthy (message e) then message e
                  else str "An unexpected error occurred during processing")
                 (toISOString_now env
                    (fst (processPDFDocument_body env pdfPath targetLang h)))))
     | Rejected ThrownOther =>
         Fulfilled
           (Failure
              (mkProcessingError
                 (str "An unexpected error occurred during processing")
                 (toISOString_now env
                    (fst (processPDFDocument_body env pdfPath targetLang h)))))
     | Rejected (ThrownNullish v) =>
         Rejected (ThrownError (mkError (TypeError_reading_message env v)))
     end).
Proof.
  unfold processPDFDocument, try_catch.
  destruct (processPDFDocument_body env pdfPath targetLang h)
    as [h1 [o | [e | | v]]]; reflexivity.
Qed.

End PipelineFacts.

(** ** Where a rejection with [undefined] or [null] comes from *)

Section NullishFacts.

Import TranslationTs.

Variable env : Env.

Lemma from_calls_app_l (v : Nullish) (e1 e2 : list Event) :
  from_calls v e1 -> from_calls v (e1 ++ e2).
Proof.
  unfold from_calls. rewrite map_app. intros H. apply in_or_app. auto.
Qed.

Lemma from_calls_app_r (v : Nullish) (e1 e2 : list Event) :
  from_calls v e2 -> from_calls v (e1 ++ e2).
Proof.
  unfold from_calls. rewrite map_app. intros H. apply in_or_app. auto.
Qed.

Lemma from_calls_rejected (v : Nullish) (evs : list Event) :
  from_calls v evs -> existsb rejected_nullish evs = true.
Proof.
  unfold from_calls. intros H. apply in_map_iff in H.
  destruct H as (ev & Hev & Hin). apply existsb_exists. exists ev.
  split; [exact Hin|]. unfold rejected_nullish. rewrite Hev. reflexivity.
Qed.

Lemma first_rejection_In (e : Thrown) (es : list Thrown) :
  In (first_rejection env e es) (e :: es).
Proof.
  unfold first_rejection.
  destruct (nth_in_or_default (settles_first env (e :: es)) (e :: es) e)
    as [H | H]; [exact H|]. rewrite H. left. reflexivity.
Qed.

Lemma nfc_ret {A} (a : A) : nullish_from_calls (ret a).
Proof.
  intros h. exists []. simpl. rewrite app_nil_r. split; [reflexivity|].
  discriminate.
Qed.

Lemma nfc_throw {A} (e : JsError) : nullish_from_calls (@throw A e).
Proof.
  intros h. exists []. simpl. rewrite app_nil_r. split; [reflexivity|].
  discriminate.
Qed.

Lemma nfc_now : nullish_from_calls (now env).
Proof.
  intros h. exists []. simpl. rewrite app_nil_r. split; [reflexivity|].
  discriminate.
Qed.

Lemma nfc_bind {A B} (m : M A) (k : A -> M B) :
  nullish_from_calls m -> (forall a, nullish_from_calls (k a)) ->
  nullish_from_calls (bind m k).
Proof.
  intros Hm Hk h. destruct (Hm h) as (e1 & Hf & Hr). unfold bind.
  destruct (m h) as [h1 [a | e]]; simpl in Hf, Hr; subst h1.
  - destruct (Hk a (h ++ e1)) as (e2 & Hf2 & Hr2).
    exists (e1 ++ e2). rewrite Hf2, app_assoc. split; [reflexivity|].
    intros v Hv. apply from_calls_app_r, Hr2, Hv.
  - exists e1. split; [reflexivity|]. intros v Hv. apply Hr.
    simpl in Hv. injection Hv as ->. reflexivity.
Qed.

Lemma nfc_Promise_all2 {A B} (ma : M A) (mb : M B) :
  nullish_from_calls ma -> nullish_from_calls mb ->
  nullish_from_calls (Promise_all2 env ma mb).
Proof.
  intros Ha Hb h. destruct (Ha h) as (e1 & Hf1 & Hr1).
  destruct (Hb (h ++ e1)) as (e2 & Hf2 & Hr2). unfold Promise_all2.
  destruct (ma h) as [h1 oa]. simpl in Hf1, Hr1. subst h1.
  destruct (mb (h ++ e1)) as [h2 ob]. simpl in Hf2, Hr2. subst h2.
  exists (e1 ++ e2). rewrite app_assoc. split; [reflexivity|].
  intros v. simpl.
  destruct oa as [a | ea], ob as [b | eb]; intros Hv;
    try discriminate; injection Hv as Hv.
  - pose proof (first_rejection_In eb []) as Hin. rewrite Hv in Hin.
    destruct Hin as [Heq | []]. apply from_calls_app_r, Hr2.
    rewrite Heq. reflexivity.
  - pose proof (first_rejection_In ea []) as Hin. rewrite Hv in Hin.
    destruct Hin as [Heq | []]. apply from_calls_app_l, Hr1.
    rewrite Heq. reflexivity.
  - pose proof (first_rejection_In ea [eb]) as Hin. rewrite Hv in Hin.
    destruct Hin as [Heq | [Heq | []]].
    + apply from_calls_app_l, Hr1. rewrite Heq. reflexivity.
    + apply from_calls_app_r, Hr2. rewrite Heq. reflexivity.
Qed.

Lemma nfc_start_all {X A} (f : X -> M A) :
  (forall x, nullish_from_calls (f x)) ->
  forall (xs : list X) (h : Trace),
    exists evs,
      fst (start_all (map f xs) h) = h ++ evs
      /\ forall v,
           In (ThrownNullish v) (rejections (snd (start_all (map f xs) h))) ->
           from_calls v evs.
Proof.
  intros Hf. induction xs as [|x xs IH]; intros h.
  - exists []. simpl. rewrite app_nil_r. split; [reflexivity|]. intros v [].
  - destruct (Hf x h) as (e1 & Hf1 & Hr1).
    destruct (IH (h ++ e1)) as (e2 & Hf2 & Hr2).
    simpl. destruct (f x h) as [h1 o]. simpl in Hf1, Hr1. subst h1.
    destruct (start_all (map f xs) (h ++ e1)) as [h2 os].
    simpl in Hf2, Hr2. subst h2.
    exists (e1 ++ e2). rewrite app_assoc. split; [reflexivity|].
    intros v. simpl. destruct o as [a | e]; simpl.
    + intros Hin. apply from_calls_app_r, Hr2, Hin.
    + intros [Heq | Hin].
      * apply from_calls_app_l, Hr1. rewrite Heq. reflexivity.
      * apply from_calls_app_r, Hr2, Hin.
Qed.

Lemma nfc_Promise_all {X A} (f : X -> M A) (xs : list X) :
  (forall x, nullish_from_calls (f x)) ->
  nullish_from_calls (Promise_all env (map f xs)).
Proof.
  intros Hf h. destruct (nfc_start_all f Hf xs h) as (evs & H1 & H2).
  unfold Promise_all. destruct (start_all (map f xs) h) as [h1 os].
  simpl in H1, H2. exists evs. split; [exact H1|].
  intros v. simpl. unfold settle_all.
  destruct (rejections os) as [|e es] eqn:E; [discriminate|].
  intros Hv. injection Hv as Hv. apply H2. rewrite <- Hv.
  apply first_rejection_In.
Qed.

Lemma nfc_call_pdf (pdfPath : jsstring) :
  nullish_from_calls (call_pdf env pdfPath).
Proof.
  intros h. eexists. unfold call_pdf. split; [reflexivity|]. simpl.
  intros v. unfold from_calls. simpl.
  destruct (pdf_parse env h pdfPath); [|discriminate].
  intros Hv. injection Hv as ->. left. reflexivity.
Qed.

Lemma nfc_call_gemini (prompt : jsstring) :
  nullish_from_calls (call_gemini env prompt).
Proof.
  intros h. eexists. unfold call_gemini. split; [reflexivity|]. simpl.
  intros v. unfold from_calls. simpl.
  destruct (generateContent env h prompt); [|discriminate].
  intros Hv. injection Hv as ->. left. reflexivity.
Qed.

Lemma nfc_call_translate (req : TranslateRequest) :
  nullish_from_calls (call_translate env req).
Proof.
  intros h. eexists. unfold call_translate. split; [reflexivity|]. simpl.
  intros v. unfold from_calls. simpl.
  destruct (translate_api env h req); [|discriminate].
  intros Hv. injection Hv as ->. left. reflexivity.
Qed.

Lemma nfc_translate (targetLangCode sourceLangCode content : jsstring) :
  nullish_from_calls (translate env targetLangCode sourceLangCode content).
Proof.
  unfold translate. apply nfc_bind; [apply nfc_call_translate|].
  intros [|t ts]; [apply nfc_throw|].
  destruct (negb (truthy t)); [apply nfc_throw | apply nfc_ret].
Qed.

Lemma nfc_translateText (text targetLangCode sourceLangCode : jsstring) :
  nullish_from_calls (translateText env text targetLangCode sourceLangCode).
Proof.
  unfold translateText.
  destruct (length text <=? MAX_TRANSLATE_CHUNK); [apply nfc_translate|].
  apply nfc_bind.
  - apply nfc_Promise_all. intros x. apply nfc_translate.
  - intros a. apply nfc_ret.
Qed.

Lemma nfc_translateActionPlan (plan : list ActionItem)
    (targetLangCode : jsstring) :
  nullish_from_calls (translateActionPlan env plan targetLangCode).
Proof.
  unfold translateActionPlan. apply nfc_Promise_all. intros item.
  unfold translateItem. apply nfc_bind.
  - apply nfc_Promise_all2; apply nfc_translateText.
  - intros [a b]. apply nfc_ret.
Qed.

Lemma nfc_generateSummaryAndActions (fullText : jsstring) :
  nullish_from_calls (generateSummaryAndActions env fullText).
Proof.
  unfold generateSummaryAndActions. apply nfc_bind; [apply nfc_call_gemini|].
  intros raw. destruct (negb (truthy raw)); [apply nfc_throw|].
  destruct (JSON_parse env raw) as [e | parsed]; [apply nfc_throw|].
  destruct (negb (truthy (parsed_summary parsed))); [apply nfc_throw|].
  destruct (parsed_actionPlan parsed); [apply nfc_ret | apply nfc_throw].
Qed.

Lemma nfc_extractTextFromPDF (pdfPath : jsstring) :
  nullish_from_calls (extractTextFromPDF env pdfPath).
Proof.
  unfold extractTextFromPDF. apply nfc_bind; [apply nfc_call_pdf|].
  intros text.
  destruct (negb (truthy text) || (length (trim text) =? 0));
    [apply nfc_throw | apply nfc_ret].
Qed.

(** The body of the orchestrator is rejected with [undefined] or [null]
    only when one of its calls was. *)
Lemma nfc_body (pdfPath targetLang : jsstring) :
  nullish_from_calls (processPDFDocument_body env pdfPath targetLang).
Proof.
  unfold processPDFDocument_body.
  destruct (getLanguageCode env targetLang) as [langCode|];
    [|apply nfc_throw].
  destruct (negb (truthy langCode)); [apply nfc_throw|].
  apply nfc_bind; [apply nfc_extractTextFromPDF|]. intros fullText.
  apply nfc_bind; [apply nfc_generateSummaryAndActions|]. intros out.
  apply nfc_bind.
  - apply nfc_Promise_all2;
      [apply nfc_translateText | apply nfc_translateActionPlan].
  - intros [a b]. apply nfc_bind; [apply nfc_now|]. intros stamp.
    apply nfc_ret.
Qed.

End NullishFacts.

(** The body of the orchestrator fulfils only with a success result that
    is complete, and only when no call failed. *)
Lemma body_outcome (env : Env) (pdfPath targetLang : jsstring) (h : Trace) :
  let b := TranslationTs.processPDFDocument_body env pdfPath targetLang h in
  exists evs,
    fst b = h ++ evs
    /\ match snd b with
       | Fulfilled o =>
           existsb (event_failed env) evs = false
           /\ exists res,
                o = TranslationTs.Success res
                /\ complete_result env pdfPath targetLang res
       | Rejected _ => True
       end.
Proof.
  intros b. unfold b.
  destruct (getLanguageCode env targetLang) as [langCode|] eqn:Hlang.
  - destruct (body_runs env pdfPath targetLang langCode Hlang h)
      as (evs & Hf & _ & Hs).
    exists evs. split; [exact Hf|].
    destruct (snd (TranslationTs.processPDFDocument_body env pdfPath
                     targetLang h)); simpl in Hs; auto.
  - rewrite (body_unsupported env pdfPath targetLang Hlang).
    exists []. simpl. rewrite app_nil_r. auto.
Qed.

(** A failed call never leaves the body fulfilled. *)
Lemma body_rejects_on_failure (env : Env) (pdfPath targetLang : jsstring)
    (h : Trace) :
  let b := TranslationTs.processPDFDocument_body env pdfPath targetLang h in
  existsb (event_failed env)
    (events_since h (fst b)) = true ->
  exists e, snd b = Rejected e.
Proof.
  intros b Hfail.
  destruct (body_outcome env pdfPath targetLang h) as (evs & Hf & Hs).
  fold b in Hf, Hs. rewrite Hf, events_since_app in Hfail.
  destruct (snd b) as [o | e]; [|exists e; reflexivity].
  destruct Hs as [Hno _]. rewrite Hno in Hfail. discriminate.
Qed.

(** How a run of [processPDFDocument] ends: fulfilled with a success
    result that is complete, when no call failed; fulfilled with an error
    result whose message is not empty; or, when one of its calls was
    rejected with [undefined] or [null], rejected with the [TypeError] of
    reading [message] on that value. *)
Lemma processPDFDocument_settles (env : Env) (pdfPath targetLang : jsstring)
    (h : Trace) :
  exists evs,
    fst (TranslationTs.processPDFDocument env pdfPath targetLang h) = h ++ evs
    /\ match
         snd (TranslationTs.processPDFDocument env pdfPath targetLang h)
       with
       | Fulfilled (TranslationTs.Success res) =>
           existsb (event_failed env) evs = false
           /\ complete_result env pdfPath targetLang res
       | Fulfilled (TranslationTs.Failure e) => TranslationTs.error e <> []
       | Rejected e =>
           exists v,
             e = ThrownError (mkError (TypeError_reading_message env v))
             /\ from_calls v evs
       end.
Proof.
  rewrite processPDFDocument_unfold.
  destruct (body_outcome env pdfPath targetLang h) as (evs & Hf & Hs).
  destruct (nfc_body env pdfPath targetLang h) as (evs' & Hf' & Hr).
  rewrite Hf in Hf'. apply app_inv_head in Hf'. subst evs'.
  exists evs. split; [exact Hf|]. simpl snd.
  destruct (snd (TranslationTs.processPDFDocument_body env pdfPath
                   targetLang h)) as [o | [e | | v]].
  - destruct Hs as [Hno (res & -> & Hc)]. auto.
  - simpl. destruct (truthy (message e)) eqn:E; [|discriminate].
    apply truthy_true, E.
  - discriminate.
  - exists v. split; [reflexivity|]. apply Hr. reflexivity.
Qed.

(** C6.  [processPDFDocument] does not always return.  Its [catch] block
    reads [error.message] on what was thrown; when the translation
    service rejects a call with [undefined], that read throws, and the
    run is rejected with the [TypeError] instead of being fulfilled with
    the error variant.  This is the only way in which a run is rejected:
    every run is fulfilled with the success variant, whose [success] is
    [true], or with the error variant, whose [success] is [false] and
    which carries a message that is not empty and a time stamp, or one of
    its calls was rejected with [undefined] or [null] and the run is
    rejected with the [TypeError] of reading [message] on that value. *)
Theorem processPDFDocument_not_total :
  (let r := TranslationTs.processPDFDocument Samples.silent_env
              Samples.upload (str "spanish") [] in
   existsb rejected_nullish (fst r) = true
   /\ snd r
      = Rejected
          (ThrownError
             (mkError
                (str "Cannot read properties of undefined (reading 'message')"))))
  /\ forall (env : Env) (pdfPath targetLang : jsstring) (h : Trace),
       let r := TranslationTs.processPDFDocument env pdfPath targetLang h in
       match snd r with
       | Fulfilled out =>
           (exists res,
              out = TranslationTs.Success res
              /\ TranslationTs.success out = true)
           \/ (exists msg stamp,
                 out = TranslationTs.Failure
                         (TranslationTs.mkProcessingError msg stamp)
                 /\ TranslationTs.success out = false
                 /\ msg <> [])
       | Rejected e =>
           exists v,
             e = ThrownError (mkError (TypeError_reading_message env v))
             /\ from_calls v (events_since h (fst r))
       end.
Proof.
  split; [split; vm_compute; reflexivity|].
  intros env pdfPath targetLang h r. unfold r. clear r.
  destruct (processPDFDocument_settles env pdfPath targetLang h)
    as (evs & Hf & Hs).
  rewrite Hf, events_since_app.
  destruct (snd (TranslationTs.processPDFDocument env pdfPath targetLang h))
    as [[res | [msg stamp]] | e].
  - left. exists res. split; reflexivity.
  - right. exists msg, stamp. split; [reflexivity|].
    split; [reflexivity | exact Hs].
  - exact Hs.
Qed.

(** C7.  For a language key that the registry does not know the run ends
    at once: the history is unchanged, so no extraction, generation or
    translation call was made, and the result is the error variant with
    the message [Unsupported language: ] followed by the key. *)
Theorem unsupported_language_fails_fast (env : Env)
    (pdfPath targetLang : jsstring) (h : Trace) :
  getLanguageCode env targetLang = None ->
  TranslationTs.processPDFDocument env pdfPath targetLang h
  = (h, Fulfilled
          (TranslationTs.Failure
             (TranslationTs.mkProcessingError
                (str "Unsupported language: " ++ targetLang)
                (toISOString_now env h)))).
Proof.
  intros Hlang. rewrite processPDFDocument_unfold.
  rewrite (body_unsupported env pdfPath targetLang Hlang). reflexivity.
Qed.

Lemma unsupported_language_fails_fast_witness :
  getLanguageCode Samples.base_env (str "klingon") = None
  /\ TranslationTs.processPDFDocument Samples.base_env Samples.upload
       (str "klingon") []
     = ([], Fulfilled
              (TranslationTs.Failure
                 (TranslationTs.mkProcessingError
                    (str "Unsupported language: klingon") Samples.stamp))).
Proof.
  split; [reflexivity|].
  apply (unsupported_language_fails_fast Samples.base_env Samples.upload
           (str "klingon") []).
  reflexivity.
Defined.

(** C8.  When the extraction of a run gives a text that is empty or holds
    white space only, that extraction is the only call of the run, so
    neither the model nor the translation service is called, and the
    result is the error variant with the message that no text could be
    extracted. *)
Theorem blank_extraction_fails (env : Env) (pdfPath targetLang : jsstring)
    (h : Trace) (p text : jsstring) :
  let r := TranslationTs.processPDFDocument env pdfPath targetLang h in
  In (EvExtract p (PdfData text)) (events_since h (fst r)) ->
  truthy (trim text) = false ->
  fst r = h ++ [EvExtract pdfPath (PdfData text)]
  /\ snd r
     = Fulfilled
         (TranslationTs.Failure
            (TranslationTs.mkProcessingError
               (str "No text could be extracted from this PDF. It may be scanned image-only.")
               (toISOString_now env (fst r)))).
Proof.
  intros r. unfold r. rewrite processPDFDocument_unfold. simpl fst. simpl snd.
  destruct (getLanguageCode env targetLang) as [langCode|] eqn:Hlang.
  - destruct (body_trace env pdfPath targetLang langCode h Hlang)
      as (e2 & Hf & Hk & Hfail).
    rewrite Hf, events_since_app. intros [Hin | Hin] Hblank.
    + injection Hin as Hp Hresp. rewrite Hresp in Hfail.
      simpl in Hfail. rewrite Hblank in Hfail.
      destruct (Hfail eq_refl) as [-> Hsnd].
      rewrite Hsnd, Hresp. split; reflexivity.
    + rewrite forallb_forall in Hk. apply Hk in Hin. discriminate.
  - rewrite (body_unsupported env pdfPath targetLang Hlang). simpl.
    rewrite <- (app_nil_r h) at 2. rewrite events_since_app.
    intros [].
Qed.

Lemma blank_extraction_fails_witness :
  TranslationTs.processPDFDocument Samples.scanned_env Samples.upload
    (str "French") []
  = ([EvExtract Samples.upload (PdfData [32; 10; 32]%N)],
     Fulfilled
       (TranslationTs.Failure
          (TranslationTs.mkProcessingError
             (str "No text could be extracted from this PDF. It may be scanned image-only.")
             Samples.stamp))).
Proof.
  destruct (blank_extraction_fails Samples.scanned_env Samples.upload
              (str "French") [] Samples.upload [32; 10; 32]%N) as [Hf Hs].
  - left. reflexivity.
  - reflexivity.
  - rewrite (surjective_pairing
               (TranslationTs.processPDFDocument Samples.scanned_env
                  Samples.upload (str "French") [])).
    rewrite Hf, Hs. reflexivity.
Defined.

Lemma translateText_all_or_nothing_witness :
  exists e,
    snd (TranslationTs.translateText Samples.flaky_env Samples.long_text
           (str "es") (str "en") []) = Rejected e.
Proof.
  apply (translateText_all_or_nothing Samples.flaky_env Samples.long_text
           (str "es") (str "en") []
           (nth 1 (events_since []
                     (fst (TranslationTs.translateText Samples.flaky_env
                             Samples.long_text (str "es") (str "en") [])))
              (EvExtract [] (PdfData [])))).
  - apply Nat.ltb_lt. vm_compute. reflexivity.
  - apply nth_In. apply Nat.ltb_lt. vm_compute. reflexivity.
  - vm_compute. reflexivity.
Defined.

(** C5, as stated, fails on the earlier pipeline of [translation.js]: the
    translation service rejects the call for the first step of the action
    plan, [generateActionPlan] catches the error and returns its fixed
    English plan, and the run reports success with that plan. *)
Lemma js_pipeline_partial_success_counterexample :
  let r := TranslationJs.processPDFDocument Samples.flaky_env Samples.upload
             (str "spanish") TranslationJs.default_options [] in
  existsb translation_rejected (fst r) = true
  /\ exists res,
       snd r = Fulfilled (TranslationJs.Success res)
       /\ TranslationJs.success (TranslationJs.Success res) = true
       /\ TranslationJs.actionPlan res = TranslationJs.fallback_plan
       /\ map TranslationJs.step (TranslationJs.actionPlan res)
          = [ str "Review the full document";
              str "Identify key stakeholders";
              str "Create implementation timeline" ].
Proof.
  intros r. split; [vm_compute; reflexivity|].
  eexists. split; [vm_compute; reflexivity|].
  repeat split; vm_compute; reflexivity.
Qed.

Lemma generateActionPlan_never_rejects (env : Env)
    (summary targetLanguage fullText : jsstring) (h : Trace) :
  exists plan,
    snd (TranslationJs.generateActionPlan env summary targetLanguage
           fullText h) = Fulfilled plan.
Proof.
  unfold TranslationJs.generateActionPlan, try_catch.
  match goal with
  | |- context [match ?m h with _ => _ end] => destruct (m h) as [h1 [plan | e]]
  end; simpl; eauto.
Qed.

(** A [catch] block that throws a new [Error] made from [error.message]:
    what it is given decides what is thrown, which is an [Error] object
    in every case. *)
Lemma rethrow_run (env : Env) {A} (m : M A) (prefix : jsstring) (h : Trace) :
  try_catch m
    (fun error =>
       msg <- read_message env error ;;
       throw (mkError (prefix ++ in_template msg))) h
  = (fst (m h),
     match snd (m h) with
     | Fulfilled a => Fulfilled a
     | Rejected (ThrownError e) =>
         Rejected (ThrownError (mkError (prefix ++ message e)))
     | Rejected ThrownOther =>
         Rejected (ThrownError (mkError (prefix ++ str "undefined")))
     | Rejected (ThrownNullish v) =>
         Rejected (ThrownError (mkError (TypeError_reading_message env v)))
     end).
Proof.
  unfold try_catch. destruct (m h) as [h1 [a | [e | | v]]]; reflexivity.
Qed.

Lemma rethrow_rejects_Error (env : Env) {A} (m : M A) (prefix : jsstring)
    (h : Trace) (e : Thrown) :
  snd (try_catch m
         (fun error =>
            msg <- read_message env error ;;
            throw (mkError (prefix ++ in_template msg)))
         h) = Rejected e ->
  exists msg, e = ThrownError (mkError msg).
Proof.
  rewrite rethrow_run. simpl.
  destruct (snd (m h)) as [a | [e0 | | v]]; [discriminate| | |];
    intros H; injection H as <-; eexists; reflexivity.
Qed.

Lemma js_processPDFDocument_outcome (env : Env)
    (pdfPath targetLang : jsstring) (options : TranslationJs.Options)
    (h : Trace) :
  TranslationJs.lang_truthy
    (TranslationJs.lookup_language (toLowerCase env targetLang)) = true ->
  js_run_outcome env pdfPath targetLang options
    (TranslationJs.lookup_language (toLowerCase env targetLang)) h
    (TranslationJs.processPDFDocument env pdfPath targetLang options h).
Proof.
  intros Hlang.
  unfold js_run_outcome, TranslationJs.processPDFDocument, try_catch, bind,
    now, ret, throw.
  rewrite Hlang. change (negb true) with false. cbv beta iota.
  pose proof (fun e =>
                rethrow_rejects_Error env (call_pdf env pdfPath)
                  (str "Failed to extract text from PDF: ") h e) as Hex.
  fold (TranslationJs.extractTextFromPDF env pdfPath) in Hex.
  destruct (TranslationJs.extractTextFromPDF env pdfPath h)
    as [h1 [fullText | e]].
  2:{ destruct (Hex e eq_refl) as [msg ->]. exists msg.
      split; reflexivity. }
  clear Hex. rewrite blank_test.
  destruct (truthy (trim fullText));
    [change (negb true) with false | change (negb false) with true];
    cbv beta iota; [|reflexivity].
  match goal with
  | |- context [TranslationJs.translateText env ?s ?l ?src h1] =>
      pose proof (fun e =>
                    rethrow_rejects_Error env _
                      (str "Translation failed: ") h1 e
                    : snd (TranslationJs.translateText env s l src h1)
                      = Rejected e -> _) as Htr
  end.
  destruct (TranslationJs.translateText env _ _ _ h1)
    as [h2 [translatedSummary | e]].
  2:{ destruct (Htr e eq_refl) as [msg ->]. exists msg.
      split; reflexivity. }
  clear Htr.
  destruct (generateActionPlan_never_rejects env
              (TranslationJs.summarizeText fullText
                 (TranslationJs.opt_summaryLength options))
              targetLang fullText h2) as [plan Hplan].
  destruct (TranslationJs.generateActionPlan env _ targetLang fullText h2)
    as [h3 o]. simpl in Hplan. subst o.
  exists plan, h3. split; reflexivity.
Qed.

(** C5, amended.  In the pipeline of [translation.ts], a run in which any
    call failed (extraction, generation or a translation), none of them
    by a rejection with [undefined] or [null], returns the error variant,
    and a success result is complete: no call of its run failed, and its
    summary and the step and description of each of its items are what
    the translation of the model's output returned.  In the earlier
    pipeline of [translation.js], a run whose extraction rejects or gives
    no text, or whose translation of the summary rejects, returns the
    error variant, with the message of the [Error] that the stage threw;
    a failure inside [generateActionPlan] does not, since that function
    never rejects, and the run then returns the success variant with the
    plan it was given. *)
Theorem pipeline_failure_gives_error (env : Env)
    (pdfPath targetLang : jsstring) (h : Trace) :
  let r := TranslationTs.processPDFDocument env pdfPath targetLang h in
  let evs := events_since h (fst r) in
  (existsb (event_failed env) evs = true ->
   existsb rejected_nullish evs = false ->
   exists e, snd r = Fulfilled (TranslationTs.Failure e))
  /\ (forall res,
        snd r = Fulfilled (TranslationTs.Success res) ->
        existsb (event_failed env) evs = false
        /\ complete_result env pdfPath targetLang res)
  /\ (forall options,
        TranslationJs.lang_truthy
          (TranslationJs.lookup_language (toLowerCase env targetLang)) = true ->
        js_run_outcome env pdfPath targetLang options
          (TranslationJs.lookup_language (toLowerCase env targetLang)) h
          (TranslationJs.processPDFDocument env pdfPath targetLang options h))
  /\ (forall summary fullText h',
        exists plan,
          snd (TranslationJs.generateActionPlan env summary targetLang
                 fullText h') = Fulfilled plan).
Proof.
  intros r evs. unfold evs, r. rewrite processPDFDocument_unfold.
  simpl fst. simpl snd. split; [|split; [|split]].
  - intros Hfail Hnone.
    destruct (body_rejects_on_failure env pdfPath targetLang h Hfail)
      as [e He].
    destruct (nfc_body env pdfPath targetLang h) as (evs' & Hf & Hr).
    rewrite Hf, events_since_app in Hnone. rewrite He.
    destruct e as [e | | v]; [eexists; reflexivity ..|].
    rewrite (from_calls_rejected v evs' (Hr v He)) in Hnone. discriminate.
  - intros res Hres.
    destruct (body_outcome env pdfPath targetLang h) as (evs' & Hf & Hs).
    rewrite Hf, events_since_app.
    destruct (snd (TranslationTs.processPDFDocument_body env pdfPath
                     targetLang h)) as [o | [e | | v]]; [|discriminate ..].
    destruct Hs as [Hno (res' & -> & Hc)]. inversion Hres; subst. auto.
  - intros options Hlang. apply js_processPDFDocument_outcome, Hlang.
  - intros. apply generateActionPlan_never_rejects.
Qed.

Lemma pipeline_failure_gives_error_witness :
  (exists e,
     snd (TranslationTs.processPDFDocument Samples.flaky_env Samples.upload
            (str "spanish") [])
     = Fulfilled (TranslationTs.Failure e))
  /\ (exists res,
        snd (TranslationTs.processPDFDocument Samples.base_env Samples.upload
               (str "spanish") [])
        = Fulfilled (TranslationTs.Success res)
        /\ complete_result Samples.base_env Samples.upload (str "spanish") res)
  /\ js_run_outcome Samples.flaky_env Samples.upload (str "spanish")
       TranslationJs.default_options (LangString (str "es")) []
       (TranslationJs.processPDFDocument Samples.flaky_env Samples.upload
          (str "spanish") TranslationJs.default_options []).
Proof.
  split; [|split].
  - destruct (pipeline_failure_gives_error Samples.flaky_env Samples.upload
                (str "spanish") []) as (H1 & _ & _ & _).
    apply H1; vm_compute; reflexivity.
  - destruct (pipeline_failure_gives_error Samples.base_env Samples.upload
                (str "spanish") []) as (_ & H2 & _ & _).
    eexists. split; [vm_compute; reflexivity|].
    apply H2. vm_compute. reflexivity.
  - destruct (pipeline_failure_gives_error Samples.flaky_env Samples.upload
                (str "spanish") []) as (_ & _ & H3 & _).
    apply (H3 TranslationJs.default_options). reflexivity.
Defined.

Lemma getLanguageCode_unfold (env : Env) (k : jsstring) :
  getLanguageCode env k
  = if jseqb (str "spanish") (toLowerCase env k) then Some (str "es")
    else if jseqb (str "french") (toLowerCase env k) then Some (str "fr")
    else if jseqb (str "mandarin") (toLowerCase env k) then Some (str "zh-CN")
    else None.
Proof.
  unfold getLanguageCode, SUPPORTED_LANGUAGES, find, key.
  destruct (jseqb (str "spanish") (toLowerCase env k)); [reflexivity|].
  destruct (jseqb (str "french") (toLowerCase env k)); [reflexivity|].
  destruct (jseqb (str "mandarin") (toLowerCase env k)); reflexivity.
Qed.

(** C10.  [getLanguageCode] answers from the lower-cased key alone: it
    gives a code exactly when that is [spanish], [french] or [mandarin],
    and the code is then [es], [fr] or [zh-CN]; for every other key it
    gives none. *)
Theorem getLanguageCode_lookup (env : Env) (k : jsstring) :
  ((exists c, getLanguageCode env k = Some c) <->
   (toLowerCase env k = str "spanish" \/ toLowerCase env k = str "french"
    \/ toLowerCase env k = str "mandarin"))
  /\ (toLowerCase env k = str "spanish" ->
      getLanguageCode env k = Some (str "es"))
  /\ (toLowerCase env k = str "french" ->
      getLanguageCode env k = Some (str "fr"))
  /\ (toLowerCase env k = str "mandarin" ->
      getLanguageCode env k = Some (str "zh-CN"))
  /\ (toLowerCase env k <> str "spanish" ->
      toLowerCase env k <> str "french" ->
      toLowerCase env k <> str "mandarin" ->
      getLanguageCode env k = None).
Proof.
  rewrite getLanguageCode_unfold.
  destruct (jseqb (str "spanish") (toLowerCase env k)) eqn:E1;
    [apply jseqb_eq in E1; rewrite <- E1; simpl;
     repeat split; eauto; try discriminate; try congruence|].
  destruct (jseqb (str "french") (toLowerCase env k)) eqn:E2;
    [apply jseqb_eq in E2; rewrite <- E2; simpl;
     repeat split; eauto; try discriminate; try congruence|].
  destruct (jseqb (str "mandarin") (toLowerCase env k)) eqn:E3;
    [apply jseqb_eq in E3; rewrite <- E3; simpl;
     repeat split; eauto; try discriminate; try congruence|].
  assert (N1 : toLowerCase env k <> str "spanish").
  { intros H. rewrite H, jseqb_refl in E1. discriminate. }
  assert (N2 : toLowerCase env k <> str "french").
  { intros H. rewrite H, jseqb_refl in E2. discriminate. }
  assert (N3 : toLowerCase env k <> str "mandarin").
  { intros H. rewrite H, jseqb_refl in E3. discriminate. }
  repeat split; try tauto.
  intros [c H]. discriminate.
Qed.

Lemma getLanguageCode_lookup_witness :
  getLanguageCode Samples.base_env (str "SpAnIsH") = Some (str "es")
  /\ getLanguageCode Samples.base_env (str "FRENCH") = Some (str "fr")
  /\ getLanguageCode Samples.base_env (str "Mandarin") = Some (str "zh-CN")
  /\ getLanguageCode Samples.base_env (str "klingon") = None.
Proof.
  split; [|split; [|split]].
  - apply (getLanguageCode_lookup Samples.base_env (str "SpAnIsH")).
    reflexivity.
  - apply (getLanguageCode_lookup Samples.base_env (str "FRENCH")).
    reflexivity.
  - apply (getLanguageCode_lookup Samples.base_env (str "Mandarin")).
    reflexivity.
  - apply (getLanguageCode_lookup Samples.base_env (str "klingon"));
      vm_compute; discriminate.
Defined.

(** * Further properties *)

(** ** The sentence scan and the chunker *)

Section MoreChunkerFacts.

Lemma scan_seeking_terminators (skipped rest : jsstring) :
  forallb is_terminator skipped = true ->
  scan Seeking (skipped ++ rest) = scan Seeking rest.
Proof.
  induction skipped as [|c skipped IH]; intros H; [reflexivity|].
  simpl in H. apply andb_true_iff in H. destruct H as [Hc H].
  simpl. rewrite Hc. apply IH, H.
Qed.

Lemma scan_body_no_terminator (tail : jsstring) :
  forallb nonterminator tail = true ->
  forall acc, scan (InBody acc) tail = [].
Proof.
  induction tail as [|c tail IH]; intros H acc; [reflexivity|].
  simpl in H. apply andb_true_iff in H. destruct H as [Hc H].
  unfold nonterminator in Hc. apply negb_true_iff in Hc.
  simpl. rewrite Hc. apply IH, H.
Qed.

Lemma scan_seeking_no_terminator (tail : jsstring) :
  forallb nonterminator tail = true -> scan Seeking tail = [].
Proof.
  destruct tail as [|c tail]; intros H; [reflexivity|].
  simpl in H. apply andb_true_iff in H. destruct H as [Hc H].
  unfold nonterminator in Hc. apply negb_true_iff in Hc.
  simpl. rewrite Hc. apply scan_body_no_terminator, H.
Qed.

Lemma infix_refl (a : jsstring) : infix a a.
Proof. exists [], []. rewrite app_nil_r. reflexivity. Qed.

Lemma infix_trans (a b c : jsstring) : infix a b -> infix b c -> infix a c.
Proof.
  intros (p & q & ->) (p' & q' & ->). exists (p' ++ p), (q ++ q').
  rewrite <- !app_assoc. reflexivity.
Qed.

Lemma infix_app_l (a b c : jsstring) : infix a b -> infix a (b ++ c).
Proof.
  intros (p & q & ->). exists p, (q ++ c). rewrite <- !app_assoc. reflexivity.
Qed.

Lemma infix_app_r (a b c : jsstring) : infix a c -> infix a (b ++ c).
Proof.
  intros (p & q & ->). exists (b ++ p), q. rewrite <- !app_assoc. reflexivity.
Qed.

Lemma infix_trim (s : jsstring) : infix (trim s) s.
Proof. destruct (trim_split s) as (w1 & w2 & H & _). exists w1, w2. exact H. Qed.

Lemma infix_firstn (n : nat) (s : jsstring) : infix (firstn n s) s.
Proof.
  exists [], (skipn n s). simpl. symmetry. apply firstn_skipn.
Qed.

(** The sentences of a text, put together, are one piece of the text. *)
Lemma sentences_in_text (text : jsstring) : infix (concat (sentences text)) text.
Proof.
  unfold sentences. destruct (match_sentences text) as [ms|] eqn:E.
  - destruct (match_sentences_cover text ms E) as (skipped & tail & H & _).
    exists skipped, tail. exact H.
  - simpl. rewrite app_nil_r. apply infix_refl.
Qed.

Variable maxSize : nat.

(** While the loop runs, every chunk is a piece of what has been read,
    and the buffer is the end of what has been read. *)
Lemma chunk_loop_pieces (ss : list jsstring) :
  forall (read : jsstring) (st : list jsstring * jsstring),
    Forall (fun c => infix c read) (fst st) ->
    (exists q, read = q ++ snd st) ->
    Forall (fun c => infix c (read ++ concat ss))
      (fst (chunk_loop maxSize ss st))
    /\ exists q, read ++ concat ss = q ++ snd (chunk_loop maxSize ss st).
Proof.
  induction ss as [|s ss IH]; intros read [chunks current] Hch [q Hq];
    simpl in Hch, Hq.
  - simpl. rewrite app_nil_r. split; [exact Hch | exists q; exact Hq].
  - rewrite chunk_loop_cons. simpl concat. rewrite app_assoc.
    assert (Hold : Forall (fun c => infix c (read ++ s)) chunks).
    { eapply Forall_impl; [|exact Hch]. intros c Hc. apply infix_app_l, Hc. }
    unfold chunk_step. destruct (maxSize <? length (current ++ s)).
    + destruct current as [|c0 current]; simpl truthy; cbv iota.
      * apply IH; simpl fst; simpl snd.
        -- apply Forall_app. split; [exact Hold|]. constructor; [|constructor].
           apply infix_app_r. unfold substring. rewrite Nat.sub_0_r.
           apply infix_firstn.
        -- exists (read ++ firstn maxSize s). unfold substring_from.
           rewrite <- app_assoc, firstn_skipn. reflexivity.
      * apply IH; simpl fst; simpl snd.
        -- apply Forall_app. split; [exact Hold|]. constructor; [|constructor].
           apply infix_app_l. rewrite Hq. apply infix_app_r, infix_trim.
        -- exists read. reflexivity.
    + apply IH; simpl fst; simpl snd; [exact Hold|].
      exists q. rewrite Hq, <- app_assoc. reflexivity.
Qed.

End MoreChunkerFacts.

Lemma chunkText_chunks_nonempty_witness :
  Forall (fun c => c <> [])
    (chunkText (str "Hello world. How are you?  Fine!") 5).
Proof.
  apply (chunkText_chunks_nonempty 5 (str "Hello world. How are you?  Fine!")).
  lia.
Defined.

Lemma chunkText_bounded_when_sentences_fit_witness :
  Forall (fun c => length c <= 14)
    (chunkText (str "Hello world. How are you?  Fine!") 14).
Proof.
  apply (chunkText_bounded_when_sentences_fit 14
           (str "Hello world. How are you?  Fine!")).
  apply Forall_forall. intros s Hs. apply Nat.leb_le. revert s Hs.
  apply forallb_forall. vm_compute. reflexivity.
Defined.

(** X3.  What [text.match(/[^.!?]+[.!?]+/g)] gives.  Every match is a run
    of code units other than [.], [!], [?] followed by a run of these;
    the matches are consecutive pieces of the text, before the first one
    only terminators are skipped and after the last one a run without
    terminator is left over.  There is no match at all, so that the whole
    text is taken as one sentence, exactly when the text is a run of
    terminators followed by a run without terminator. *)
Theorem match_sentences_tokens (text : jsstring) :
  (forall ms,
     match_sentences text = Some ms ->
     Forall sentence_shape ms
     /\ exists skipped tail,
          text = skipped ++ concat ms ++ tail
          /\ forallb is_terminator skipped = true
          /\ forallb nonterminator tail = true)
  /\ (match_sentences text = None <->
      exists skipped tail,
        text = skipped ++ tail
        /\ forallb is_terminator skipped = true
        /\ forallb nonterminator tail = true).
Proof.
  split; [|split].
  - intros ms H. split.
    + exact (match_sentences_shapes text ms H).
    + exact (match_sentences_cover text ms H).
  - unfold match_sentences. intros H.
    destruct (scan_cover text Seeking I) as (tail & Ht & skipped & Hs & Heq).
    destruct (scan Seeking text); [|discriminate].
    exists skipped, tail. auto.
  - intros (skipped & tail & -> & Hs & Ht). unfold match_sentences.
    rewrite (scan_seeking_terminators skipped tail Hs).
    rewrite (scan_seeking_no_terminator tail Ht). reflexivity.
Qed.

Lemma match_sentences_tokens_witness :
  (Forall sentence_shape [str "Hi."; str " Yo!"]
   /\ exists skipped tail,
        str "..Hi. Yo!x" = skipped ++ concat [str "Hi."; str " Yo!"] ++ tail
        /\ forallb is_terminator skipped = true
        /\ forallb nonterminator tail = true)
  /\ match_sentences (str "?!no end") = None.
Proof.
  split.
  - apply (match_sentences_tokens (str "..Hi. Yo!x")). reflexivity.
  - apply (match_sentences_tokens (str "?!no end")).
    exists (str "?!"), (str "no end"). split; [|split]; reflexivity.
Defined.

(** X4.  Every chunk of [chunkText] is a run of consecutive code units of
    the text: chunking never adds, changes or reorders code units. *)
Theorem chunkText_chunks_in_text (text : jsstring) (maxSize : nat) :
  Forall (fun c => infix c text) (chunkText text maxSize).
Proof.
  rewrite chunkText_flush.
  destruct (chunk_loop_pieces maxSize (sentences text) [] ([], [])
              (Forall_nil _) (ex_intro _ [] eq_refl)) as [Hch [q Hq]].
  simpl in Hch, Hq.
  assert (Hin : forall c, infix c (concat (sentences text)) -> infix c text).
  { intros c Hc. eapply infix_trans; [exact Hc | apply sentences_in_text]. }
  unfold flush.
  assert (Hfst : Forall (fun c => infix c text)
                   (fst (chunk_loop maxSize (sentences text) ([], [])))).
  { eapply Forall_impl; [|exact Hch]. exact Hin. }
  destruct (truthy (trim (snd (chunk_loop maxSize (sentences text) ([], [])))));
    [|exact Hfst].
  apply Forall_app. split; [exact Hfst|]. constructor; [|constructor].
  apply Hin. rewrite Hq. apply infix_app_r, infix_trim.
Qed.

(** X5.  A text that is not longer than the maximum size is never split:
    [chunkText] returns at most one chunk for it. *)
Theorem chunkText_fits_one_chunk (text : jsstring) (maxSize : nat) :
  length text <= maxSize -> length (chunkText text maxSize) <= 1.
Proof.
  intros Hlen. rewrite chunkText_flush.
  destruct (sentences_in_text text) as (p & q & Htext).
  rewrite chunk_loop_fits.
  - unfold flush. simpl. destruct (truthy (trim _)); simpl; lia.
  - simpl. rewrite Htext in Hlen. rewrite !length_app in Hlen. lia.
Qed.

Lemma chunkText_fits_one_chunk_witness :
  length (chunkText (str "Hello. World. Again!") 20) <= 1.
Proof.
  apply (chunkText_fits_one_chunk (str "Hello. World. Again!") 20).
  vm_compute. lia.
Defined.

Lemma chunk_loop_sentences_nonempty (text : jsstring) (maxSize : nat) :
  1 <= maxSize ->
  Forall (fun c => c <> [])
    (fst (chunk_loop maxSize (sentences text) ([], []))).
Proof.
  intros Hmax.
  destruct (sentences_cases text) as [[E _] | [Hshape _]].
  - rewrite E. unfold chunk_loop, fold_left, chunk_step.
    rewrite app_nil_l. simpl truthy. cbv iota.
    destruct (maxSize <? length text) eqn:L; simpl.
    + constructor; [|constructor].
      unfold substring. rewrite Nat.sub_0_r. simpl skipn.
      apply Nat.ltb_lt in L. apply firstn_nonempty; assumption.
    + constructor.
  - apply chunk_loop_nonempty; auto.
    + eapply Forall_impl; [|exact Hshape]. exact sentence_shape_ends.
    + left; reflexivity.
Qed.

Lemma filter_truthy_nonempty (l : list jsstring) :
  Forall (fun c => c <> []) l -> filter truthy l = l.
Proof.
  induction 1 as [|c l Hc Hl IH]; [reflexivity|].
  simpl. destruct c; [contradiction|]. simpl. rewrite IH. reflexivity.
Qed.

Lemma chunkText_filter_js (text : jsstring) (maxSize : nat) :
  1 <= maxSize ->
  chunkText text maxSize
  = filter truthy (TranslationJs.chunkText text maxSize).
Proof.
  intros Hmax. rewrite chunkText_flush.
  pose proof (chunk_loop_sentences_nonempty text maxSize Hmax) as Hne.
  unfold TranslationJs.chunkText, flush.
  destruct (chunk_loop maxSize (sentences text) ([], [])) as [chunks current].
  simpl in *. destruct (truthy (trim current)) eqn:Et.
  - assert (Hc : truthy current = true).
    { destruct current; [discriminate | reflexivity]. }
    rewrite Hc. symmetry. apply filter_truthy_nonempty.
    apply Forall_app. split; [exact Hne|]. constructor; [|constructor].
    apply truthy_true, Et.
  - destruct (truthy current).
    + rewrite filter_app. simpl. rewrite Et, app_nil_r.
      symmetry. apply filter_truthy_nonempty, Hne.
    + symmetry. apply filter_truthy_nonempty, Hne.
Qed.

(** X6.  The two versions of [chunkText] differ in one point only: for a
    maximum size of at least 1, the chunks of [translation.ts] are those
    of [translation.js] without the empty string, which the earlier
    version pushes as its last chunk when the buffer is left with white
    space only. *)
Theorem chunkText_ts_filters_js (text : jsstring) (maxSize : nat) :
  1 <= maxSize ->
  chunkText text maxSize
  = filter truthy (TranslationJs.chunkText text maxSize).
Proof. apply chunkText_filter_js. Qed.

Lemma chunkText_ts_filters_js_witness :
  TranslationJs.chunkText (str "ab   ") 2 = [str "ab"; []]
  /\ chunkText (str "ab   ") 2
     = filter truthy (TranslationJs.chunkText (str "ab   ") 2).
Proof.
  split; [reflexivity|].
  apply (chunkText_ts_filters_js (str "ab   ") 2). lia.
Defined.

(** ** The translation adapter and the pipeline of [translation.ts] *)

Section MoreAdapterFacts.

Import TranslationTs.

Variable env : Env.

Lemma join_nonempty (sep x : jsstring) (l : list jsstring) :
  x <> [] -> join sep (x :: l) <> [].
Proof.
  intros Hx. destruct l as [|y l]; simpl; [exact Hx|].
  destruct x; [contradiction | discriminate].
Qed.

Lemma event_text_nonempty (ev : Event) (req : TranslateRequest) :
  event_request ev = Some req -> event_failed env ev = false ->
  event_text ev <> [].
Proof.
  destruct ev as [p r | p r | q r]; simpl; try discriminate.
  intros _. destruct r as [e | [|t ts]]; simpl; try discriminate.
  intros H. apply negb_false_iff in H. apply truthy_true, H.
Qed.

Lemma sends_translateText (text targetLangCode sourceLangCode : jsstring) :
  sends (translateText env text targetLangCode sourceLangCode)
    (map (translate_request env targetLangCode sourceLangCode) (pieces text)).
Proof.
  intros h.
  destruct (translateText_requests env targetLangCode sourceLangCode text h)
    as (evs & Hf & Hr).
  exists evs. split; [exact Hf|]. rewrite Hr, map_map. reflexivity.
Qed.

Lemma sends_Promise_all2 {A B} (ma : M A) (mb : M B)
    (ra rb : list TranslateRequest) :
  sends ma ra -> sends mb rb -> sends (Promise_all2 env ma mb) (ra ++ rb).
Proof.
  intros Ha Hb h. destruct (Ha h) as (e1 & Hf1 & Hr1).
  destruct (Hb (h ++ e1)) as (e2 & Hf2 & Hr2).
  unfold Promise_all2. destruct (ma h) as [h1 oa]. simpl in Hf1. subst h1.
  destruct (mb (h ++ e1)) as [h2 ob]. simpl in Hf2. subst h2.
  exists (e1 ++ e2). simpl. rewrite app_assoc, !map_app, Hr1, Hr2. auto.
Qed.

Lemma sends_start_all {X A} (f : X -> M A) (g : X -> list TranslateRequest) :
  (forall x, sends (f x) (g x)) ->
  forall (xs : list X) (h : Trace),
    exists evs,
      fst (start_all (map f xs) h) = h ++ evs
      /\ map event_request evs = map Some (flat_map g xs).
Proof.
  intros Hf. induction xs as [|x xs IH]; intros h.
  - exists []. simpl. rewrite app_nil_r. auto.
  - destruct (Hf x h) as (e1 & Hf1 & Hr1).
    destruct (IH (h ++ e1)) as (e2 & Hf2 & Hr2).
    simpl. destruct (f x h) as [h1 o]. simpl in Hf1. subst h1.
    destruct (start_all (map f xs) (h ++ e1)) as [h2 os].
    simpl in Hf2. subst h2.
    exists (e1 ++ e2). simpl. rewrite app_assoc, !map_app, Hr1, Hr2. auto.
Qed.

Lemma sends_Promise_all {X A} (f : X -> M A)
    (g : X -> list TranslateRequest) (xs : list X) :
  (forall x, sends (f x) (g x)) ->
  sends (Promise_all env (map f xs)) (flat_map g xs).
Proof.
  intros Hf h. destruct (sends_start_all f g Hf xs h) as (evs & H1 & H2).
  unfold Promise_all. destruct (start_all (map f xs) h) as [h1 os].
  exists evs. auto.
Qed.

Lemma sends_translateItem (targetLangCode : jsstring) (item : ActionItem) :
  sends (translateItem env targetLangCode item)
    (map (translate_request env targetLangCode en)
       (pieces (step item) ++ pieces (description item))).
Proof.
  intros h.
  destruct (sends_Promise_all2 _ _ _ _
              (sends_translateText (step item) targetLangCode en)
              (sends_translateText (description item) targetLangCode en) h)
    as (evs & Hf & Hr).
  exists evs. rewrite map_app. split; [|exact Hr].
  unfold translateItem, bind.
  destruct (Promise_all2 env _ _ h) as [h1 [[s d] | e]]; exact Hf.
Qed.

Lemma sends_translateActionPlan (plan : list ActionItem)
    (targetLangCode : jsstring) :
  sends (translateActionPlan env plan targetLangCode)
    (map (translate_request env targetLangCode en) (plan_texts plan)).
Proof.
  intros h. unfold translateActionPlan.
  destruct (sends_Promise_all (translateItem env targetLangCode)
              (fun item =>
                 map (translate_request env targetLangCode en)
                   (pieces (step item) ++ pieces (description item)))
              plan (sends_translateItem targetLangCode) h)
    as (evs & Hf & Hr).
  exists evs. split; [exact Hf|]. rewrite Hr. f_equal.
  unfold plan_texts. clear.
  induction plan as [|item plan IH]; [reflexivity|].
  simpl. rewrite !map_app, IH. reflexivity.
Qed.

End MoreAdapterFacts.

Lemma strip_sentence_shape (s : jsstring) :
  sentence_shape s -> strip s <> [].
Proof.
  intros (body & terms & -> & _ & _ & Ht & Hall).
  rewrite strip_app. destruct terms as [|c terms]; [contradiction|].
  simpl in Hall. apply andb_true_iff in Hall. destruct Hall as [Hc _].
  unfold strip at 2. simpl. rewrite (terminator_not_space c Hc). simpl.
  destruct (strip body); discriminate.
Qed.

(** A text longer than the maximum size gives at least one chunk. *)
Lemma chunkText_long_nonempty (text : jsstring) (maxSize : nat) :
  maxSize < length text -> chunkText text maxSize <> [].
Proof.
  intros Hlen Hnil.
  destruct (sentences_cases text) as [[E _] | [Hshape Hne]].
  - revert Hnil. unfold chunkText. rewrite E.
    unfold chunk_loop, fold_left, chunk_step. rewrite app_nil_l.
    simpl truthy. cbv iota. apply Nat.ltb_lt in Hlen. rewrite Hlen.
    destruct (truthy (trim (substring_from text maxSize))); discriminate.
  - pose proof (flush_content (chunk_loop maxSize (sentences text) ([], [])))
      as Hc.
    rewrite <- chunkText_flush, Hnil, chunk_loop_content in Hc. simpl in Hc.
    destruct (sentences text) as [|s ss]; [contradiction|].
    inversion Hshape as [|? ? Hs _]; subst. simpl in Hc.
    rewrite strip_app in Hc. apply (strip_sentence_shape s Hs).
    destruct (strip s); [reflexivity | discriminate].
Qed.

(** X7.  A fulfilled [translateText] never gives the empty string: the
    adapter rejects an empty translation of a piece, and a text longer
    than 25,000 code units always gives at least one chunk. *)
Theorem translateText_result_nonempty (env : Env)
    (text targetLangCode sourceLangCode t : jsstring) (h : Trace) :
  snd (TranslationTs.translateText env text targetLangCode sourceLangCode h)
  = Fulfilled t ->
  t <> [].
Proof.
  intros Hres Ht. subst t.
  destruct (translateText_requests env targetLangCode sourceLangCode text h)
    as (evs & Hf & Hr).
  destruct (translateText_runs env targetLangCode sourceLangCode text h)
    as (evs2 & Hf2 & _ & Hs).
  assert (evs2 = evs) by (rewrite Hf in Hf2; eapply app_inv_head, eq_sym, Hf2).
  subst evs2. rewrite Hres in Hs. simpl in Hs. destruct Hs as [Hok Hjoin].
  assert (Hp : pieces text = []).
  { destruct (pieces text) as [|c cs] eqn:Ep; [reflexivity|]. exfalso.
    destruct evs as [|ev evs]; [discriminate|]. simpl in Hr, Hok.
    injection Hr as Hreq _. apply orb_false_iff in Hok. destruct Hok as [Hev _].
    apply (join_nonempty space (event_text ev) (map event_text evs)).
    - eapply event_text_nonempty; eassumption.
    - first [exact Hjoin | symmetry; exact Hjoin]. }
  unfold pieces in Hp.
  destruct (length text <=? TranslationTs.MAX_TRANSLATE_CHUNK) eqn:E;
    [discriminate|].
  apply Nat.leb_gt in E. revert Hp. apply chunkText_long_nonempty, E.
Qed.

Lemma translateText_result_nonempty_witness :
  snd (TranslationTs.translateText Samples.base_env (str "Pay rent.")
         (str "es") (str "en") []) = Fulfilled (str "es:Pay rent.")
  /\ str "es:Pay rent." <> [].
Proof.
  assert (H : snd (TranslationTs.translateText Samples.base_env
                     (str "Pay rent.") (str "es") (str "en") [])
              = Fulfilled (str "es:Pay rent.")) by reflexivity.
  split; [exact H|].
  exact (translateText_result_nonempty Samples.base_env (str "Pay rent.")
           (str "es") (str "en") (str "es:Pay rent.") [] H).
Defined.

(** X8.  [translateActionPlan] sends, whatever the answers are, one
    request per piece of every item's step and description, item after
    item, the step before the description: a failed call does not keep
    the later ones from being issued. *)
Theorem translateActionPlan_requests (env : Env) (plan : list ActionItem)
    (targetLangCode : jsstring) (h : Trace) :
  let r := TranslationTs.translateActionPlan env plan targetLangCode h in
  fst r = h ++ events_since h (fst r)
  /\ map event_request (events_since h (fst r))
     = map Some
         (map (TranslationTs.translate_request env targetLangCode
                 TranslationTs.en)
            (plan_texts plan)).
Proof.
  intros r. unfold r.
  destruct (sends_translateActionPlan env plan targetLangCode h)
    as (evs & Hf & Hr).
  rewrite Hf, events_since_app. auto.
Qed.

Section MorePipelineFacts.

Import TranslationTs.

Variable env : Env.

Lemma generateSummaryAndActions_trace (fullText : jsstring) (h : Trace) :
  fst (generateSummaryAndActions env fullText h)
  = h ++ [EvGenerate (make_prompt fullText)
            (generateContent env h (make_prompt fullText))].
Proof.
  unfold generateSummaryAndActions, bind, call_gemini.
  destruct (generateContent env h (make_prompt fullText)) as [e | raw];
    simpl; [reflexivity|].
  destruct (truthy raw); simpl; [|reflexivity].
  destruct (JSON_parse env raw) as [e | parsed]; simpl; [reflexivity|].
  destruct (truthy (parsed_summary parsed)); simpl; [|reflexivity].
  destruct (parsed_actionPlan parsed); reflexivity.
Qed.

(** Once the model has answered, the calls of the orchestrator are the
    translation requests of the summary and then of the plan. *)
Lemma translations_trace (targetLang langCode fullText : jsstring)
    (out : LLMOutput) (h : Trace) :
  exists tr,
    fst ((' (translatedSummary, translatedActions) <-
            Promise_all2 env
              (translateText env (summary out) langCode en)
              (translateActionPlan env (llm_actionPlan out) langCode) ;;
          stamp <- now env ;;
          ret (Success (mkProcessingResult translatedSummary translatedActions
                          targetLang (length translatedSummary)
                          (length fullText) stamp))) h)
    = h ++ tr
    /\ map event_request tr
       = map Some
           (map (translate_request env langCode en)
              (pieces (summary out) ++ plan_texts (llm_actionPlan out))).
Proof.
  destruct (sends_Promise_all2 env _ _ _ _
              (sends_translateText env (summary out) langCode en)
              (sends_translateActionPlan env (llm_actionPlan out) langCode) h)
    as (tr & Hf & Hr).
  exists tr. rewrite map_app. split; [|exact Hr].
  unfold bind. destruct (Promise_all2 env _ _ h) as [h1 [[s p] | e]];
    exact Hf.
Qed.

Lemma bind_fulfilled {A B} (m : M A) (k : A -> M B) (h h1 : Trace) (a : A) :
  m h = (h1, Fulfilled a) -> bind m k h = k a h1.
Proof. intros H. unfold bind. rewrite H. reflexivity. Qed.

Lemma bind_rejected {A B} (m : M A) (k : A -> M B) (h h1 : Trace)
    (e : Thrown) :
  m h = (h1, Rejected e) -> bind m k h = (h1, Rejected e).
Proof. intros H. unfold bind. rewrite H. reflexivity. Qed.

Lemma steps_2_and_3_calls (targetLang langCode fullText : jsstring)
    (h : Trace) :
  let e2 := EvGenerate (make_prompt fullText)
              (generateContent env h (make_prompt fullText)) in
  match snd (generateSummaryAndActions env fullText h) with
  | Rejected _ =>
      fst (steps_2_and_3 env targetLang langCode fullText h) = h ++ [e2]
  | Fulfilled out =>
      exists tr,
        fst (steps_2_and_3 env targetLang langCode fullText h)
        = h ++ e2 :: tr
        /\ map event_request tr
           = map Some
               (map (translate_request env langCode en)
                  (pieces (summary out) ++ plan_texts (llm_actionPlan out)))
  end.
Proof.
  intros e2. pose proof (generateSummaryAndActions_trace fullText h) as Hg.
  fold e2 in Hg.
  destruct (generateSummaryAndActions env fullText h) as [h2 [out | e]] eqn:G;
    simpl in Hg; subst h2; simpl snd; unfold steps_2_and_3.
  - rewrite (bind_fulfilled _ _ _ _ _ G).
    destruct (translations_trace targetLang langCode fullText out
                (h ++ [e2])) as (tr & Hf & Hr).
    exists tr. rewrite Hf, <- app_assoc. auto.
  - rewrite (bind_rejected _ _ _ _ _ G). reflexivity.
Qed.

End MorePipelineFacts.

(** X9.  The calls of one run of [processPDFDocument], in order: none for
    an unsupported language; otherwise one extraction of the given path;
    then, only when the extraction gave text that is not blank, one model
    call with the prompt made from that text; then, only when the answer
    of the model was accepted, one translation request for every piece of
    the summary followed by those of every item of the plan, all of them
    issued whatever the translation service answers. *)
Theorem processPDFDocument_calls (env : Env) (pdfPath targetLang : jsstring)
    (h : Trace) :
  let r := TranslationTs.processPDFDocument env pdfPath targetLang h in
  let evs := events_since h (fst r) in
  fst r = h ++ evs
  /\ match getLanguageCode env targetLang with
     | None => evs = []
     | Some langCode =>
         let e1 := EvExtract pdfPath (pdf_parse env h pdfPath) in
         match snd (TranslationTs.extractTextFromPDF env pdfPath h) with
         | Rejected _ => evs = [e1]
         | Fulfilled fullText =>
             let e2 :=
               EvGenerate (TranslationTs.make_prompt fullText)
                 (generateContent env (h ++ [e1])
                    (TranslationTs.make_prompt fullText)) in
             match
               snd (TranslationTs.generateSummaryAndActions env fullText
                      (h ++ [e1]))
             with
             | Rejected _ => evs = [e1; e2]
             | Fulfilled out =>
                 exists tr,
                   evs = e1 :: e2 :: tr
                   /\ map event_request tr
                      = map Some
                          (map (TranslationTs.translate_request env langCode
                                  TranslationTs.en)
                             (pieces (TranslationTs.summary out)
                              ++ plan_texts (TranslationTs.llm_actionPlan out)))
             end
         end
     end.
Proof.
  intros r evs. unfold evs, r. clear r evs.
  rewrite processPDFDocument_unfold. simpl fst.
  destruct (getLanguageCode env targetLang) as [langCode|] eqn:Hlang.
  - rewrite (body_supported env pdfPath targetLang langCode Hlang).
    pose proof (extractTextFromPDF_run env pdfPath h) as Hx.
    destruct (TranslationTs.extractTextFromPDF env pdfPath h)
      as [h1 [fullText | e]] eqn:X; injection Hx as Hh1 _; subst h1;
      simpl snd.
    + rewrite (bind_fulfilled _ _ _ _ _ X). cbv zeta.
      pose proof (steps_2_and_3_calls env targetLang langCode fullText
                    (h ++ [EvExtract pdfPath (pdf_parse env h pdfPath)]))
        as Hs.
      cbv zeta in Hs.
      destruct (snd (TranslationTs.generateSummaryAndActions env fullText
                       (h ++ [EvExtract pdfPath (pdf_parse env h pdfPath)])))
        as [out | e].
      * destruct Hs as (tr & Hf & Hr). rewrite Hf, <- app_assoc.
        rewrite events_since_app. simpl. split; [reflexivity|].
        exists tr. auto.
      * rewrite Hs, <- app_assoc, events_since_app. auto.
    + rewrite (bind_rejected _ _ _ _ _ X). simpl fst.
      rewrite events_since_app. auto.
  - rewrite (body_unsupported env pdfPath targetLang Hlang). simpl.
    pose proof (events_since_app h []) as He. rewrite app_nil_r in He.
    rewrite He, app_nil_r. auto.
Qed.

(** ** The earlier pipeline of [translation.js] *)

Section JsTranslateFacts.

Variable env : Env.
Variable targetLanguage : LangValue.
Variable sourceLanguage : jsstring.

Local Notation "'jsreq'" :=
  (fun c => TranslationJs.request c targetLanguage sourceLanguage env).

Local Notation "'sequential'" :=
  (sequential_calls env targetLanguage sourceLanguage).

Lemma sequential_cons (c : jsstring) (cs : list jsstring) (ev : Event)
    (evs : list Event) :
  event_request ev = Some (jsreq c) -> js_call_failed ev = false ->
  sequential cs evs -> sequential (c :: cs) (ev :: evs).
Proof.
  intros Hev Hok [Hr Hl]. split.
  - simpl. rewrite Hev, Hr. reflexivity.
  - destruct evs as [|ev' evs]; [reflexivity|].
    change (removelast (ev :: ev' :: evs))
      with (ev :: removelast (ev' :: evs)).
    simpl existsb. rewrite Hok. exact Hl.
Qed.

Lemma sequential_one (c : jsstring) (cs : list jsstring) (ev : Event) :
  event_request ev = Some (jsreq c) -> sequential (c :: cs) [ev].
Proof. intros Hev. split; simpl; [rewrite Hev|]; reflexivity. Qed.

Lemma translate_chunks_trace (chunks : list jsstring) :
  forall h : Trace,
    exists evs,
      fst (TranslationJs.translate_chunks env targetLanguage sourceLanguage
             chunks h) = h ++ evs
      /\ sequential chunks evs
      /\ match
           snd (TranslationJs.translate_chunks env targetLanguage
                  sourceLanguage chunks h)
         with
         | Fulfilled ts =>
             length evs = length chunks
             /\ existsb js_call_failed evs = false
             /\ ts = map event_text evs
         | Rejected e =>
             existsb js_call_failed evs = true
             /\ exists pre ev,
                  evs = pre ++ [ev]
                  /\ js_call_failed ev = true
                  /\ e = js_call_throws env ev
         end.
Proof.
  induction chunks as [|c cs IH]; intros h.
  - exists []. simpl. rewrite app_nil_r. repeat split.
  - simpl TranslationJs.translate_chunks.
    destruct (translate_api env h (jsreq c)) as [e | [|t ts]] eqn:R.
    + assert (C : call_translate env (jsreq c) h
                  = (h ++ [EvTranslate (jsreq c) (TranslateRejects e)],
                     Rejected e))
        by (unfold call_translate; rewrite R; reflexivity).
      rewrite (bind_rejected _ _ _ _ _ C).
      eexists. split; [reflexivity|]. split.
      * apply sequential_one. reflexivity.
      * split; [reflexivity|]. exists [], (EvTranslate (jsreq c)
                                              (TranslateRejects e)).
        auto.
    + assert (C : call_translate env (jsreq c) h
                  = (h ++ [EvTranslate (jsreq c) (TranslateReplies [])],
                     Fulfilled []))
        by (unfold call_translate; rewrite R; reflexivity).
      rewrite (bind_fulfilled _ _ _ _ _ C).
      rewrite (bind_rejected (TranslationJs.first_translatedText env [])
                 _ _ _ _ eq_refl).
      eexists. split; [reflexivity|]. split.
      * apply sequential_one. reflexivity.
      * split; [reflexivity|]. exists [], (EvTranslate (jsreq c)
                                              (TranslateReplies [])).
        auto.
    + assert (C : call_translate env (jsreq c) h
                  = (h ++ [EvTranslate (jsreq c) (TranslateReplies (t :: ts))],
                     Fulfilled (t :: ts)))
        by (unfold call_translate; rewrite R; reflexivity).
      rewrite (bind_fulfilled _ _ _ _ _ C).
      rewrite (bind_fulfilled
                 (TranslationJs.first_translatedText env (t :: ts))
                 _ _ _ t eq_refl).
      destruct (IH (h ++ [EvTranslate (jsreq c) (TranslateReplies (t :: ts))]))
        as (evs & Hf & Hseq & Hs).
      exists (EvTranslate (jsreq c) (TranslateReplies (t :: ts)) :: evs).
      destruct (TranslationJs.translate_chunks env targetLanguage
                  sourceLanguage cs
                  (h ++ [EvTranslate (jsreq c) (TranslateReplies (t :: ts))]))
        as [h1 [ts' | e]] eqn:T;
        simpl in Hf, Hs; subst h1.
      * rewrite (bind_fulfilled _ _ _ _ _ T). simpl fst. simpl snd.
        rewrite <- app_assoc. split; [reflexivity|]. split.
        -- apply sequential_cons; auto.
        -- destruct Hs as (Hlen & Hok & ->). simpl. rewrite Hlen, Hok. auto.
      * rewrite (bind_rejected _ _ _ _ _ T). simpl fst. simpl snd.
        rewrite <- app_assoc. split; [reflexivity|]. split.
        -- apply sequential_cons; auto.
        -- destruct Hs as (Hfail & pre & ev & -> & Hev & He).
           split; [simpl; exact Hfail|].
           exists (EvTranslate (jsreq c) (TranslateReplies (t :: ts)) :: pre),
             ev.
           auto.
Qed.

Lemma js_translateText_trace (text : jsstring) (h : Trace) :
  let r := TranslationJs.translateText env text targetLanguage sourceLanguage
             h in
  exists evs,
    fst r = h ++ evs
    /\ sequential (js_pieces text) evs
    /\ match snd r with
       | Fulfilled t =>
           length evs = length (js_pieces text)
           /\ existsb js_call_failed evs = false
           /\ t = join space (map event_text evs)
       | Rejected e =>
           existsb js_call_failed evs = true
           /\ exists pre ev,
                evs = pre ++ [ev]
                /\ js_call_failed ev = true
                /\ e = ThrownError
                         (js_translation_failed env (js_call_throws env ev))
       end.
Proof.
  unfold TranslationJs.translateText, js_pieces. rewrite rethrow_run.
  simpl fst. simpl snd.
  destruct (length text <=? TranslationJs.maxChunkSize).
  - unfold bind, call_translate.
    destruct (translate_api env h (jsreq text))
      as [[e | | v] | [|t ts]] eqn:R;
      simpl; eexists; (split; [reflexivity|]);
      (split; [apply sequential_one; reflexivity|]); auto;
      (split; [reflexivity|]); eexists []; eexists;
      (split; [reflexivity|]); split; reflexivity.
  - destruct (translate_chunks_trace
                (TranslationJs.chunkText text TranslationJs.maxChunkSize) h)
      as (evs & Hf & Hseq & Hs).
    exists evs. unfold bind.
    destruct (TranslationJs.translate_chunks env targetLanguage
                sourceLanguage _ h) as [h1 [ts | e]];
      simpl in Hf, Hs; subst h1; simpl.
    + destruct Hs as (Hlen & Hok & ->). auto.
    + split; [reflexivity|]. split; [exact Hseq|].
      destruct Hs as (Hfail & pre & ev & Hevs & Hev & ->).
      assert (Hre : forall c : Thrown,
                 match c with
                 | ThrownError e =>
                     @Rejected jsstring
                       (ThrownError
                          (mkError (str "Translation failed: " ++ message e)))
                 | ThrownOther =>
                     Rejected
                       (ThrownError
                          (mkError (str "Translation failed: "
                                    ++ str "undefined")))
                 | ThrownNullish v =>
                     Rejected
                       (ThrownError
                          (mkError (TypeError_reading_message env v)))
                 end
                 = Rejected (ThrownError (js_translation_failed env c)))
        by (intros [? | | ?]; reflexivity).
      rewrite Hre. split; [exact Hfail|]. exists pre, ev. auto.
Qed.

(** Every call of [translateText] goes from the source language to the
    target it was given. *)
Lemma sequential_translates (pieces : list jsstring) (evs : list Event) :
  sequential pieces evs ->
  Forall (translates sourceLanguage targetLanguage) evs.
Proof.
  intros [Hr _]. revert Hr. generalize (length evs) as n.
  revert pieces. induction evs as [|ev evs IH]; intros pieces n Hr;
    [constructor|].
  destruct pieces as [|c cs]; [destruct n; discriminate|].
  destruct n as [|n]; [discriminate|]. simpl in Hr.
  injection Hr as Hev Hr. constructor; [|eapply IH, Hr].
  destruct ev as [? ? | ? ? | req resp]; try discriminate.
  simpl in Hev. injection Hev as ->. eexists. exists resp.
  split; [reflexivity|]. split; reflexivity.
Qed.

End JsTranslateFacts.

(** X10.  [translateText] of [translation.js] sends the pieces of the
    text one call after the other and stops at the first call that fails:
    the requests are those of the first pieces, in order, and every call
    but the last one was answered.  When it fulfils, every piece was sent
    and answered and the result is the answers joined by single spaces
    (an empty answer included).  When it rejects, the last call failed,
    and it rejects with an [Error] made from what that call threw (the
    rejection of the service, or the [TypeError] of reading the text of
    an absent translation): its message is the message of what was
    thrown after "Translation failed: ", with "undefined" for the
    message of a thrown value that has none, unless [undefined] or
    [null] was thrown, in which case the [catch] block itself throws and
    the rejection is the [TypeError] of reading [message] on that
    value. *)
Theorem js_translateText_sequential (env : Env) (text : jsstring)
    (targetLanguage : LangValue) (sourceLanguage : jsstring) (h : Trace) :
  let r := TranslationJs.translateText env text targetLanguage sourceLanguage
             h in
  let evs := events_since h (fst r) in
  let reqs :=
    map (fun c => TranslationJs.request c targetLanguage sourceLanguage env)
      (js_pieces text) in
  fst r = h ++ evs
  /\ map event_request evs = map Some (firstn (length evs) reqs)
  /\ existsb js_call_failed (removelast evs) = false
  /\ match snd r with
     | Fulfilled t =>
         length evs = length reqs
         /\ existsb js_call_failed evs = false
         /\ t = join space (map event_text evs)
     | Rejected e =>
         existsb js_call_failed evs = true
         /\ exists ev,
              evs = removelast evs ++ [ev]
              /\ js_call_failed ev = true
              /\ e = ThrownError
                       match js_call_throws env ev with
                       | ThrownError cause =>
                           mkError (str "Translation failed: "
                                    ++ message cause)
                       | ThrownOther =>
                           mkError (str "Translation failed: undefined")
                       | ThrownNullish v =>
                           mkError (TypeError_reading_message env v)
                       end
     end.
Proof.
  intros r evs reqs. unfold evs, reqs, r. clear r evs reqs.
  destruct (js_translateText_trace env targetLanguage sourceLanguage text h)
    as (evs & Hf & [Hr Hl] & Hs).
  rewrite Hf, events_since_app, length_map.
  split; [reflexivity|]. split; [exact Hr|]. split; [exact Hl|].
  destruct (snd (TranslationJs.translateText env text targetLanguage
                   sourceLanguage h)) as [t | e]; [exact Hs|].
  destruct Hs as (Hfail & pre & ev & -> & Hev & ->).
  split; [exact Hfail|]. exists ev. rewrite removelast_last.
  split; [reflexivity|]. split; [exact Hev|]. reflexivity.
Qed.

Section JsActionPlanFacts.

Variable env : Env.

Lemma events_since_refl (h : Trace) : events_since h h = [].
Proof.
  pose proof (events_since_app h []) as H. rewrite app_nil_r in H. exact H.
Qed.

Lemma plan_template_length (docType : TranslationJs.DocType)
    (terms : jsstring) :
  length (TranslationJs.plan_template docType terms) = 3.
Proof. destruct docType; reflexivity. Qed.

Lemma translate_actions_trace (langCode : LangValue)
    (plan : list TranslationJs.ActionItem) :
  forall h : Trace,
    exists evs,
      fst (TranslationJs.translate_actions env langCode plan h) = h ++ evs
      /\ Forall (translates (str "en") langCode) evs
      /\ match snd (TranslationJs.translate_actions env langCode plan h) with
         | Fulfilled plan' =>
             existsb js_call_failed evs = false
             /\ map TranslationJs.priority plan'
                = map TranslationJs.priority plan
         | Rejected _ => existsb js_call_failed evs = true
         end.
Proof.
  induction plan as [|action rest IH]; intros h.
  - exists []. simpl. rewrite app_nil_r. auto.
  - simpl TranslationJs.translate_actions.
    destruct (js_translateText_trace env langCode (str "en")
                (TranslationJs.step action) h) as (e1 & Hf1 & Hq1 & Hs1).
    apply sequential_translates in Hq1.
    destruct (TranslationJs.translateText env (TranslationJs.step action)
                langCode (str "en") h) as [h1 [s | e]] eqn:T1;
      simpl in Hf1, Hs1; subst h1.
    2:{ rewrite (bind_rejected _ _ _ _ _ T1). exists e1. simpl.
        split; [reflexivity|]. split; [exact Hq1 | apply Hs1]. }
    rewrite (bind_fulfilled _ _ _ _ _ T1).
    destruct (js_translateText_trace env langCode (str "en")
                (TranslationJs.description action) (h ++ e1))
      as (e2 & Hf2 & Hq2 & Hs2).
    apply sequential_translates in Hq2.
    destruct (TranslationJs.translateText env
                (TranslationJs.description action) langCode (str "en")
                (h ++ e1)) as [h2 [d | e]] eqn:T2;
      simpl in Hf2, Hs2; subst h2.
    2:{ rewrite (bind_rejected _ _ _ _ _ T2). exists (e1 ++ e2). simpl.
        rewrite app_assoc. split; [reflexivity|]. split.
        - apply Forall_app; auto.
        - rewrite existsb_app. destruct Hs2 as [-> _]. apply orb_true_r. }
    rewrite (bind_fulfilled _ _ _ _ _ T2).
    destruct (IH ((h ++ e1) ++ e2)) as (e3 & Hf3 & Hq3 & Hs3).
    destruct Hs1 as (_ & Hok1 & _). destruct Hs2 as (_ & Hok2 & _).
    exists (e1 ++ e2 ++ e3).
    destruct (TranslationJs.translate_actions env langCode rest
                ((h ++ e1) ++ e2)) as [h3 [rest' | e]] eqn:T3;
      simpl in Hf3, Hs3; subst h3.
    + rewrite (bind_fulfilled _ _ _ _ _ T3). simpl.
      rewrite <- !app_assoc. split; [reflexivity|]. split.
      * repeat (apply Forall_app; split); assumption.
      * destruct Hs3 as [Hok3 Hp]. rewrite !existsb_app, Hok1, Hok2, Hok3, Hp.
        auto.
    + rewrite (bind_rejected _ _ _ _ _ T3). simpl.
      rewrite <- !app_assoc. split; [reflexivity|]. split.
      * repeat (apply Forall_app; split); assumption.
      * rewrite !existsb_app, Hs3, !orb_true_r. reflexivity.
Qed.

End JsActionPlanFacts.

(** The calls and the result of [generateActionPlan]. *)
Lemma js_generateActionPlan_trace (env : Env)
    (summary targetLanguage fullText : jsstring) (h : Trace) :
  let r := TranslationJs.generateActionPlan env summary targetLanguage
             fullText h in
  let evs := events_since h (fst r) in
  let template :=
    TranslationJs.plan_template
      (TranslationJs.detectDocumentType env
         (if truthy fullText then fullText else summary))
      (join (str ", ") (firstn 3 (TranslationJs.extractKeyTerms env summary)))
  in
  fst r = h ++ evs
  /\ Forall (translates (str "en")
              (TranslationJs.lookup_language targetLanguage)) evs
  /\ (exists plan,
        snd r = Fulfilled plan
        /\ length plan = 3
        /\ if existsb js_call_failed evs
           then plan = TranslationJs.fallback_plan
           else map TranslationJs.priority plan
                = map TranslationJs.priority template)
  /\ (jseqb targetLanguage (str "en") = true ->
      r = (h, Fulfilled template)).
Proof.
  intros r evs template. unfold evs, r. clear r evs.
  unfold TranslationJs.generateActionPlan, try_catch. cbv zeta.
  fold template.
  destruct (jseqb targetLanguage (str "en")) eqn:E;
    [change (negb true) with false | change (negb false) with true];
    cbv iota.
  - simpl. rewrite events_since_refl, app_nil_r.
    split; [reflexivity|]. split; [constructor|]. split; [|reflexivity].
    exists template. split; [reflexivity|]. split; [|reflexivity].
    apply plan_template_length.
  - destruct (translate_actions_trace env
                (TranslationJs.lookup_language targetLanguage) template h)
      as (evs & Hf & Hq & Hs).
    destruct (TranslationJs.translate_actions env
                (TranslationJs.lookup_language targetLanguage) template h)
      as [h1 [plan | e]]; simpl in Hf, Hs; subst h1; simpl;
      rewrite events_since_app;
      (split; [reflexivity|]); (split; [exact Hq|]);
      (split; [|discriminate]).
    + destruct Hs as [Hok Hp]. exists plan. rewrite Hok.
      split; [reflexivity|]. split; [|exact Hp].
      rewrite <- (length_map TranslationJs.priority), Hp, length_map.
      apply plan_template_length.
    + exists TranslationJs.fallback_plan. rewrite Hs. auto.
Qed.

(** X11.  [generateActionPlan] of [translation.js] never rejects and
    always gives three items.  Every call it makes is a translation from
    "en" to [SUPPORTED_LANGUAGES[targetLanguage]], the key taken as it
    was given.  When one of these calls failed the result is the fixed
    fallback plan, in English; when none did, the items carry the
    priorities of the template chosen for the document type.  With the
    target "en" it makes no call and returns the template itself. *)
Theorem js_generateActionPlan_plan (env : Env)
    (summary targetLanguage fullText : jsstring) (h : Trace) :
  let r := TranslationJs.generateActionPlan env summary targetLanguage
             fullText h in
  let evs := events_since h (fst r) in
  let template :=
    TranslationJs.plan_template
      (TranslationJs.detectDocumentType env
         (if truthy fullText then fullText else summary))
      (join (str ", ") (firstn 3 (TranslationJs.extractKeyTerms env summary)))
  in
  fst r = h ++ evs
  /\ Forall (translates (str "en")
              (TranslationJs.lookup_language targetLanguage)) evs
  /\ (exists plan,
        snd r = Fulfilled plan
        /\ length plan = 3
        /\ if existsb js_call_failed evs
           then plan = TranslationJs.fallback_plan
           else map TranslationJs.priority plan
                = map TranslationJs.priority template)
  /\ (jseqb targetLanguage (str "en") = true ->
      r = (h, Fulfilled template)).
Proof.
  exact (js_generateActionPlan_trace env summary targetLanguage fullText h).
Qed.

Lemma js_generateActionPlan_plan_witness :
  TranslationJs.generateActionPlan Samples.base_env (str "Pay the invoice.")
    (str "en") [] []
  = ([], Fulfilled
           (TranslationJs.plan_template TranslationJs.financial
              (str "invoice"))).
Proof.
  destruct (js_generateActionPlan_plan Samples.base_env
              (str "Pay the invoice.") (str "en") [] [])
    as (_ & _ & _ & H).
  exact (H eq_refl).
Defined.

Section JsPipelineFacts.

Variable env : Env.

Lemma startsWith_app (p s : jsstring) : startsWith (p ++ s) p = true.
Proof.
  induction p as [|c p IH]; simpl; [destruct s; reflexivity|].
  unfold char_eqb. rewrite N.eqb_refl. exact IH.
Qed.

Lemma js_extractTextFromPDF_run (pdfPath : jsstring) (h : Trace) :
  TranslationJs.extractTextFromPDF env pdfPath h
  = (h ++ [EvExtract pdfPath (pdf_parse env h pdfPath)],
     match pdf_parse env h pdfPath with
     | PdfThrows (ThrownError e) =>
         Rejected
           (ThrownError
              (mkError (str "Failed to extract text from PDF: "
                          ++ message e)))
     | PdfThrows ThrownOther =>
         Rejected
           (ThrownError
              (mkError (str "Failed to extract text from PDF: undefined")))
     | PdfThrows (ThrownNullish v) =>
         Rejected (ThrownError (mkError (TypeError_reading_message env v)))
     | PdfData text => Fulfilled text
     end).
Proof.
  unfold TranslationJs.extractTextFromPDF. rewrite rethrow_run.
  unfold call_pdf. simpl.
  destruct (pdf_parse env h pdfPath) as [[e | | v] | text]; reflexivity.
Qed.

(** [translateText] of [translation.js] always has a piece to send. *)
Lemma js_pieces_nonempty (text : jsstring) : js_pieces text <> [].
Proof.
  unfold js_pieces.
  destruct (length text <=? TranslationJs.maxChunkSize) eqn:E;
    [discriminate|].
  apply Nat.leb_gt in E. intros Hnil.
  apply (chunkText_long_nonempty text TranslationJs.maxChunkSize E).
  rewrite chunkText_filter_js, Hnil; [reflexivity|].
  apply Nat.leb_le. reflexivity.
Qed.

Lemma js_translateText_calls_nonempty (targetLanguage : LangValue)
    (sourceLanguage text : jsstring) (h : Trace) :
  events_since h
    (fst (TranslationJs.translateText env text targetLanguage sourceLanguage
            h)) <> [].
Proof.
  destruct (js_translateText_trace env targetLanguage sourceLanguage text h)
    as (evs & Hf & _ & Hs).
  rewrite Hf, events_since_app.
  destruct (snd (TranslationJs.translateText env text targetLanguage
                   sourceLanguage h)) as [t | e].
  - destruct Hs as (Hlen & _). intros ->.
    apply (js_pieces_nonempty text). apply length_zero_iff_nil.
    symmetry. exact Hlen.
  - destruct Hs as (Hfail & _). intros ->. discriminate.
Qed.

Lemma js_call_throws_nullish (ev : Event) (v : Nullish) :
  js_call_throws env ev = ThrownNullish v ->
  event_rejection ev = Some (ThrownNullish v).
Proof.
  destruct ev as [? ? | ? ? | req [e | ts]]; try discriminate.
  simpl. intros ->. reflexivity.
Qed.

(** One run of the earlier pipeline for a language that passes its
    check, stage by stage. *)
Lemma js_pipeline_run (pdfPath targetLang : jsstring)
    (options : TranslationJs.Options) (h : Trace) :
  TranslationJs.lang_truthy
    (TranslationJs.lookup_language (toLowerCase env targetLang)) = true ->
  let r := TranslationJs.processPDFDocument env pdfPath targetLang options h
  in
  let h1 := h ++ [EvExtract pdfPath (pdf_parse env h pdfPath)] in
  let failure (h' : Trace) (msg : jsstring) :=
    (h', Fulfilled
           (TranslationJs.Failure
              (TranslationJs.mkProcessingError msg (toISOString_now env h'))))
  in
  match pdf_parse env h pdfPath with
  | PdfThrows (ThrownError e) =>
      r = failure h1 (str "Failed to extract text from PDF: " ++ message e)
  | PdfThrows ThrownOther =>
      r = failure h1 (str "Failed to extract text from PDF: undefined")
  | PdfThrows (ThrownNullish v) =>
      r = failure h1 (TypeError_reading_message env v)
  | PdfData fullText =>
      if truthy (trim fullText) then
        let summary :=
          TranslationJs.summarizeText fullText
            (TranslationJs.opt_summaryLength options) in
        let t :=
          TranslationJs.translateText env summary
            (TranslationJs.lookup_language (toLowerCase env targetLang))
            (TranslationJs.opt_sourceLanguage options) h1 in
        let g :=
          TranslationJs.generateActionPlan env summary targetLang fullText
            (fst t) in
        match snd t with
        | Rejected e =>
            exists msg, e = ThrownError (mkError msg) /\ r = failure (fst t) msg
        | Fulfilled translatedSummary =>
            exists plan,
              snd g = Fulfilled plan
              /\ r = (fst g,
                      Fulfilled
                        (TranslationJs.Success
                           (TranslationJs.mkProcessingResult fullText
                              (length fullText) summary (length summary)
                              translatedSummary plan targetLang
                              (TranslationJs.lookup_language
                                 (toLowerCase env targetLang))
                              (toISOString_now env (fst g)))))
        end
      else r = failure h1 (str "No text could be extracted from the PDF")
  end.
Proof.
  intros Hlang. cbv zeta.
  unfold TranslationJs.processPDFDocument, try_catch. cbv zeta.
  rewrite Hlang. change (negb true) with false. cbv iota.
  pose proof (js_extractTextFromPDF_run pdfPath h) as X.
  destruct (pdf_parse env h pdfPath) as [[e | | v] | fullText].
  1-3: (rewrite (bind_rejected _ _ _ _ _ X); reflexivity).
  rewrite (bind_fulfilled _ _ _ _ _ X). rewrite blank_test.
  destruct (truthy (trim fullText)) eqn:B;
    [change (negb true) with false | change (negb false) with true];
    cbv iota; [|reflexivity].
  destruct (js_translateText_trace env
              (TranslationJs.lookup_language (toLowerCase env targetLang))
              (TranslationJs.opt_sourceLanguage options)
              (TranslationJs.summarizeText fullText
                 (TranslationJs.opt_summaryLength options))
              (h ++ [EvExtract pdfPath (PdfData fullText)]))
    as (tr1 & _ & _ & Hs1).
  destruct (TranslationJs.translateText env _ _ _
              (h ++ [EvExtract pdfPath (PdfData fullText)]))
    as [h2 [translated | e]] eqn:T; simpl in Hs1; simpl fst; simpl snd.
  2:{ rewrite (bind_rejected _ _ _ _ _ T).
      destruct Hs1 as (_ & pre & ev & _ & _ & He). clear T. subst e.
      destruct (js_translation_failed env (js_call_throws env ev)) as [msg].
      exists msg. split; reflexivity. }
  rewrite (bind_fulfilled _ _ _ _ _ T).
  destruct (generateActionPlan_never_rejects env
              (TranslationJs.summarizeText fullText
                 (TranslationJs.opt_summaryLength options))
              targetLang fullText h2) as [plan Hplan].
  destruct (TranslationJs.generateActionPlan env _ targetLang fullText h2)
    as [h3 o] eqn:G. simpl in Hplan. subst o.
  rewrite (bind_fulfilled _ _ _ _ _ G). exists plan. split; reflexivity.
Qed.

End JsPipelineFacts.

(** X12.  [processPDFDocument] of [translation.js] never rejects.  A
    failure carries one of four messages: the language is not supported,
    the text could not be extracted, the PDF has no text, or the
    translation of the summary failed; or, when a call of the run was
    rejected with [undefined] or [null], the message of the [TypeError]
    of reading [message] on that value, which the [catch] block of the
    stage threw in place of its own error.  A success carries a text that
    is not blank, its length, the summary made from it with the requested
    length, three action items, the language as it was given and the
    code found for it in lower case. *)
Theorem js_processPDFDocument_total (env : Env)
    (pdfPath targetLang : jsstring) (options : TranslationJs.Options)
    (h : Trace) :
  let r := TranslationJs.processPDFDocument env pdfPath targetLang options h
  in
  exists out,
    snd r = Fulfilled out
    /\ match out with
       | TranslationJs.Success res => js_result_ok env targetLang options res
       | TranslationJs.Failure e =>
           js_failure_message (TranslationJs.error e) = true
           \/ exists v,
                from_calls v (events_since h (fst r))
                /\ TranslationJs.error e = TypeError_reading_message env v
       end.
Proof.
  intros r. unfold r. clear r.
  destruct (TranslationJs.lang_truthy
              (TranslationJs.lookup_language (toLowerCase env targetLang)))
    eqn:Hlang.
  2:{ unfold TranslationJs.processPDFDocument, try_catch. cbv zeta.
      rewrite Hlang. eexists. split; [reflexivity|]. left.
      unfold js_failure_message.
      cbv beta iota delta [TranslationJs.error message or_absent].
      rewrite startsWith_app. reflexivity. }
  pose proof (js_pipeline_run env pdfPath targetLang options h Hlang) as Hrun.
  cbv zeta in Hrun.
  destruct (pdf_parse env h pdfPath) as [[e | | v] | fullText] eqn:P.
  { rewrite Hrun. eexists. split; [reflexivity|]. left.
    unfold js_failure_message.
    cbv beta iota delta [TranslationJs.error message or_absent].
    rewrite startsWith_app, orb_true_r. reflexivity. }
  { rewrite Hrun. eexists. split; [reflexivity|]. left. reflexivity. }
  { rewrite Hrun. eexists. split; [reflexivity|]. right. exists v.
    simpl fst. rewrite events_since_app. split; [|reflexivity].
    left. reflexivity. }
  destruct (truthy (trim fullText)) eqn:B.
  2:{ rewrite Hrun. eexists. split; [reflexivity|]. left. reflexivity. }
  destruct (js_translateText_trace env
              (TranslationJs.lookup_language (toLowerCase env targetLang))
              (TranslationJs.opt_sourceLanguage options)
              (TranslationJs.summarizeText fullText
                 (TranslationJs.opt_summaryLength options))
              (h ++ [EvExtract pdfPath (PdfData fullText)]))
    as (tr1 & Hf1 & _ & Hs1).
  cbv zeta in Hs1.
  destruct (TranslationJs.translateText env _ _ _
              (h ++ [EvExtract pdfPath (PdfData fullText)]))
    as [h2 [translated | e]]; simpl in Hf1, Hs1, Hrun; subst h2.
  - destruct Hrun as (plan & Hplan & ->). eexists.
    split; [reflexivity|].
    destruct (js_generateActionPlan_trace env
                (TranslationJs.summarizeText fullText
                   (TranslationJs.opt_summaryLength options))
                targetLang fullText
                ((h ++ [EvExtract pdfPath (PdfData fullText)]) ++ tr1))
      as (_ & _ & (plan' & Hp & Hlen & _) & _).
    rewrite Hplan in Hp. injection Hp as <-.
    unfold js_result_ok. simpl. auto 10.
  - destruct Hrun as (msg & He & ->). eexists. split; [reflexivity|].
    destruct Hs1 as (_ & pre & ev & -> & _ & He').
    rewrite He' in He. injection He as He.
    cbv beta iota delta [TranslationJs.error]. simpl fst.
    destruct (js_call_throws env ev) as [c | | v] eqn:C;
      unfold js_translation_failed in He; injection He as <-.
    + left. destruct (message c); reflexivity.
    + left. reflexivity.
    + right. exists v. split; [|reflexivity].
      rewrite <- app_assoc, events_since_app.
      apply (from_calls_app_r v [_]), from_calls_app_r.
      left. apply (js_call_throws_nullish env), C.
Qed.

(** X13.  The calls of one run of [processPDFDocument] of
    [translation.js]: none when the lower-cased language has no entry;
    otherwise one extraction of the given path, and nothing more when it
    fails or gives no text.  Otherwise the calls of the run of
    [translateText] on the summary follow, at least one, from the source
    language of the options to the value found for the lower-cased
    language; when that run rejects, which it does exactly when one of
    its calls failed, they are the last calls; when it is fulfilled the
    calls of the run of [generateActionPlan] follow, from "en" to what
    [SUPPORTED_LANGUAGES] holds for the language as it was given. *)
Theorem js_processPDFDocument_calls (env : Env)
    (pdfPath targetLang : jsstring) (options : TranslationJs.Options)
    (h : Trace) :
  let r := TranslationJs.processPDFDocument env pdfPath targetLang options h
  in
  let evs := events_since h (fst r) in
  let e1 := EvExtract pdfPath (pdf_parse env h pdfPath) in
  let langCode :=
    TranslationJs.lookup_language (toLowerCase env targetLang) in
  fst r = h ++ evs
  /\ if TranslationJs.lang_truthy langCode then
       match pdf_parse env h pdfPath with
       | PdfThrows _ => evs = [e1]
       | PdfData fullText =>
           if truthy (trim fullText) then
             let summary :=
               TranslationJs.summarizeText fullText
                 (TranslationJs.opt_summaryLength options) in
             let t :=
               TranslationJs.translateText env summary langCode
                 (TranslationJs.opt_sourceLanguage options) (h ++ [e1]) in
             let tr1 := events_since (h ++ [e1]) (fst t) in
             tr1 <> []
             /\ Forall (translates (TranslationJs.opt_sourceLanguage options)
                          langCode) tr1
             /\ match snd t with
                | Rejected _ =>
                    existsb js_call_failed tr1 = true /\ evs = e1 :: tr1
                | Fulfilled _ =>
                    let g :=
                      TranslationJs.generateActionPlan env summary targetLang
                        fullText (fst t) in
                    let tr2 := events_since (fst t) (fst g) in
                    existsb js_call_failed tr1 = false
                    /\ evs = e1 :: tr1 ++ tr2
                    /\ Forall (translates (str "en")
                                 (TranslationJs.lookup_language targetLang))
                         tr2
                end
           else evs = [e1]
       end
     else evs = [].
Proof.
  intros r evs e1 langCode. unfold evs, r, e1, langCode.
  clear r evs e1 langCode.
  destruct (TranslationJs.lang_truthy
              (TranslationJs.lookup_language (toLowerCase env targetLang)))
    eqn:Hlang.
  2:{ unfold TranslationJs.processPDFDocument, try_catch. cbv zeta.
      rewrite Hlang. simpl. rewrite events_since_refl, app_nil_r. auto. }
  pose proof (js_pipeline_run env pdfPath targetLang options h Hlang) as Hrun.
  cbv zeta in Hrun.
  destruct (pdf_parse env h pdfPath) as [[e | | v] | fullText] eqn:P.
  1-3: (rewrite Hrun; simpl fst; rewrite events_since_app; auto).
  destruct (truthy (trim fullText)) eqn:B.
  2:{ rewrite Hrun. simpl fst. rewrite events_since_app. auto. }
  cbv zeta.
  pose proof (js_translateText_calls_nonempty env
                (TranslationJs.lookup_language (toLowerCase env targetLang))
                (TranslationJs.opt_sourceLanguage options)
                (TranslationJs.summarizeText fullText
                   (TranslationJs.opt_summaryLength options))
                (h ++ [EvExtract pdfPath (PdfData fullText)])) as Hne.
  destruct (js_translateText_trace env
              (TranslationJs.lookup_language (toLowerCase env targetLang))
              (TranslationJs.opt_sourceLanguage options)
              (TranslationJs.summarizeText fullText
                 (TranslationJs.opt_summaryLength options))
              (h ++ [EvExtract pdfPath (PdfData fullText)]))
    as (tr1 & Hf1 & Hq1 & Hs1).
  cbv zeta in Hs1. apply sequential_translates in Hq1.
  destruct (TranslationJs.translateText env _ _ _
              (h ++ [EvExtract pdfPath (PdfData fullText)]))
    as [h2 [translated | e]]; simpl in Hf1, Hs1, Hrun, Hne; subst h2;
    simpl fst; simpl snd; rewrite events_since_app in *.
  - destruct Hrun as (plan & _ & ->). simpl fst.
    destruct (js_generateActionPlan_trace env
                (TranslationJs.summarizeText fullText
                   (TranslationJs.opt_summaryLength options))
                targetLang fullText
                ((h ++ [EvExtract pdfPath (PdfData fullText)]) ++ tr1))
      as (Hf2 & Hq2 & _).
    cbv zeta in Hf2, Hq2.
    set (tr2 := events_since
                  ((h ++ [EvExtract pdfPath (PdfData fullText)]) ++ tr1)
                  (fst (TranslationJs.generateActionPlan env
                          (TranslationJs.summarizeText fullText
                             (TranslationJs.opt_summaryLength options))
                          targetLang fullText
                          ((h ++ [EvExtract pdfPath (PdfData fullText)])
                           ++ tr1)))) in *.
    rewrite Hf2, <- !app_assoc, events_since_app. simpl app.
    split; [reflexivity|]. split; [exact Hne|]. split; [exact Hq1|].
    split; [apply Hs1|]. split; [reflexivity | exact Hq2].
  - destruct Hrun as (msg & _ & ->). simpl fst.
    rewrite <- app_assoc, events_since_app. simpl app.
    split; [reflexivity|]. split; [exact Hne|]. split; [exact Hq1|].
    split; [apply Hs1 | reflexivity].
Qed.

(** ** The summary and the key terms of [translation.js] *)

(** With a word that is an inherited name the comparator of [sort] is
    not consistent, and the order of the terms is the engine's: here an
    engine that leaves the entries where they are. *)
Example extractKeyTerms_engine_order :
  TranslationJs.extractKeyTerms Samples.base_env
    (str "alpha constructor beta beta")
  = [str "alpha"; str "constructor"; str "beta"]
  /\ TranslationJs.extractKeyTerms Samples.base_env
       (str "alpha gamma beta beta")
     = [str "beta"; str "alpha"; str "gamma"].
Proof. split; vm_compute; reflexivity. Qed.

Section SummaryFacts.



Variable maxLength : nat.



End SummaryFacts.



Section KeyTermFacts.

Lemma split_spaces_pieces (P : char16 -> bool) (s : jsstring) :
  forall (cur : jsstring) (in_sep : bool),
    forallb P cur = true ->
    (forall c, In c s -> is_space c = false -> P c = true) ->
    Forall (fun w => forallb P w = true)
      (TranslationJs.split_spaces cur in_sep s).
Proof.
  assert (Hrev : forall cur, forallb P cur = true ->
                             forallb P (reverse cur) = true).
  { intros cur H. rewrite reverse_rev. rewrite forallb_forall in *.
    intros x Hx. apply H, in_rev, Hx. }
  induction s as [|c s IH]; intros cur in_sep Hcur Hs; simpl.
  - constructor; [apply Hrev, Hcur | constructor].
  - assert (Hs' : forall c0, In c0 s -> is_space c0 = false -> P c0 = true)
      by (intros c0 H0; apply Hs; right; exact H0).
    destruct (is_space c) eqn:E.
    + destruct in_sep.
      * apply IH; auto.
      * constructor; [apply Hrev, Hcur | apply IH; auto].
    + apply IH; [|exact Hs']. simpl. rewrite Hcur, (Hs c (or_introl eq_refl) E).
      reflexivity.
Qed.

Lemma bump_keys_In (wc : list (jsstring * TranslationJs.Tally))
    (w k : jsstring) :
  In k (map fst (TranslationJs.bump wc w)) -> In k (map fst wc) \/ k = w.
Proof.
  induction wc as [|[w' t] rest IH].
  - change (TranslationJs.bump [] w)
      with (if TranslationJs.mem w TranslationJs.Object_prototype_functions
            then [(w, TranslationJs.NotNumber)]
            else [(w, TranslationJs.Count 1)]).
    destruct (TranslationJs.mem w TranslationJs.Object_prototype_functions);
      simpl; intros [H | []]; auto.
  - simpl. destruct (jseqb w' w); simpl; [auto|].
    intros [H | H]; [auto|]. destruct (IH H); auto.
Qed.

Lemma bump_NoDup (wc : list (jsstring * TranslationJs.Tally))
    (w : jsstring) :
  NoDup (map fst wc) -> NoDup (map fst (TranslationJs.bump wc w)).
Proof.
  induction wc as [|[w' t] rest IH]; intros H.
  - change (TranslationJs.bump [] w)
      with (if TranslationJs.mem w TranslationJs.Object_prototype_functions
            then [(w, TranslationJs.NotNumber)]
            else [(w, TranslationJs.Count 1)]).
    destruct (TranslationJs.mem w TranslationJs.Object_prototype_functions);
      simpl; constructor; auto; constructor.
  - simpl in *. destruct (jseqb w' w) eqn:E; simpl; [exact H|].
    inversion H as [|? ? Hnin Hnd]; subst. constructor; [|apply IH, Hnd].
    intros Hin. apply bump_keys_In in Hin. destruct Hin as [Hin | ->].
    + contradiction.
    + rewrite jseqb_refl in E. discriminate.
Qed.

Lemma count_words_keys (words : list jsstring) :
  forall wc : list (jsstring * TranslationJs.Tally),
    NoDup (map fst wc) ->
    NoDup (map fst (fold_left TranslationJs.count_word words wc))
    /\ forall k,
         In k (map fst (fold_left TranslationJs.count_word words wc)) ->
         In k (map fst wc) \/ In k words.
Proof.
  induction words as [|w words IH]; intros wc H; simpl; [auto|].
  assert (H1 : NoDup (map fst (TranslationJs.count_word wc w))).
  { unfold TranslationJs.count_word.
    destruct (jseqb w TranslationJs.proto_name); [exact H|].
    apply bump_NoDup, H. }
  destruct (IH _ H1) as [Hnd Hin]. split; [exact Hnd|].
  intros k Hk. destruct (Hin k Hk) as [Hk' | Hk']; [|auto].
  unfold TranslationJs.count_word in Hk'.
  destruct (jseqb w TranslationJs.proto_name); [auto|].
  apply bump_keys_In in Hk'. destruct Hk' as [? | ->]; auto.
Qed.

Lemma insert_index_perm {V} (x : jsstring * V) (l : list (jsstring * V)) :
  Permutation (TranslationJs.insert_index x l) (x :: l).
Proof.
  induction l as [|y l IH]; simpl; [reflexivity|].
  destruct (_ <? _)%N; [reflexivity|].
  rewrite IH. apply perm_swap.
Qed.

Lemma insert_entry_perm (x : jsstring * TranslationJs.Tally)
    (l : list (jsstring * TranslationJs.Tally)) :
  Permutation (TranslationJs.insert_entry x l) (x :: l).
Proof.
  induction l as [|y l IH]; simpl; [reflexivity|].
  destruct (TranslationJs.sorts_after y x); [reflexivity|].
  rewrite IH. apply perm_swap.
Qed.

Lemma fold_insert_perm {X} (ins : X -> list X -> list X) :
  (forall x l, Permutation (ins x l) (x :: l)) ->
  forall l acc : list X,
    Permutation (fold_left (fun acc x => ins x acc) l acc) (l ++ acc).
Proof.
  intros Hins. induction l as [|x l IH]; intros acc; simpl; [reflexivity|].
  rewrite IH, Hins. symmetry. apply Permutation_middle.
Qed.

Lemma filter_split_perm {X} (p : X -> bool) (l : list X) :
  Permutation (filter p l ++ filter (fun x => negb (p x)) l) l.
Proof.
  induction l as [|x l IH]; simpl; [reflexivity|].
  destruct (p x); simpl.
  - constructor. exact IH.
  - rewrite <- Permutation_middle. constructor. exact IH.
Qed.

Lemma Object_entries_perm {V} (o : list (jsstring * V)) :
  Permutation (TranslationJs.Object_entries o) o.
Proof.
  unfold TranslationJs.Object_entries.
  rewrite (fold_insert_perm TranslationJs.insert_index insert_index_perm).
  rewrite app_nil_r.
  apply (filter_split_perm
           (fun x => TranslationJs.is_array_index (fst x)) o).
Qed.

Lemma nth_split_eq {X} (d : X) :
  forall (l : list X) (i : nat),
    i < length l -> l = firstn i l ++ nth i l d :: skipn (S i) l.
Proof.
  induction l as [|x l IH]; intros [|i] Hi; simpl in *; try lia.
  - reflexivity.
  - f_equal. apply IH. lia.
Qed.

(** Whatever the choices, the entries are taken once each. *)
Lemma take_in_order_perm {X} :
  forall (fuel : nat) (choices : list nat) (l : list X),
    fuel = length l ->
    Permutation (TranslationJs.take_in_order fuel choices l) l.
Proof.
  induction fuel as [|fuel IH]; intros choices l Hlen.
  - destruct l; [constructor | discriminate].
  - destruct l as [|x l]; [discriminate|].
    change (TranslationJs.take_in_order (S fuel) choices (x :: l))
      with (nth (hd 0 choices mod length (x :: l)) (x :: l) x
            :: TranslationJs.take_in_order fuel (tl choices)
                 (firstn (hd 0 choices mod length (x :: l)) (x :: l)
                  ++ skipn (S (hd 0 choices mod length (x :: l))) (x :: l))).
    assert (Hi : hd 0 choices mod length (x :: l) < length (x :: l))
      by (apply Nat.mod_upper_bound; discriminate).
    revert Hi. generalize (hd 0 choices mod length (x :: l)) as i.
    intros i Hi.
    rewrite (nth_split_eq x (x :: l) i Hi) at 4.
    rewrite <- Permutation_middle. constructor. apply IH.
    rewrite length_app, length_firstn, length_skipn.
    simpl length in *. lia.
Qed.

Lemma sort_entries_perm (env : Env)
    (l : list (jsstring * TranslationJs.Tally)) :
  Permutation (TranslationJs.sort_entries env l) l.
Proof.
  unfold TranslationJs.sort_entries.
  destruct (TranslationJs.consistent l).
  - rewrite (fold_insert_perm TranslationJs.insert_entry insert_entry_perm).
    rewrite app_nil_r. reflexivity.
  - apply take_in_order_perm. reflexivity.
Qed.

Lemma NoDup_firstn {X} (n : nat) (l : list X) :
  NoDup l -> NoDup (firstn n l).
Proof.
  revert n. induction l as [|x l IH]; intros [|n] H; simpl;
    try constructor.
  - inversion H as [|? ? Hnin _]; subst. intros Hin. apply Hnin.
    rewrite <- (firstn_skipn n l). apply in_or_app. left. exact Hin.
  - inversion H; subst. apply IH. assumption.
Qed.

End KeyTermFacts.

(** X15.  [extractKeyTerms] gives at most ten terms, all different, each
    one a run of word characters more than three code units long that is
    not one of the common words. *)
Theorem extractKeyTerms_terms (env : Env) (text : jsstring) :
  let terms := TranslationJs.extractKeyTerms env text in
  length terms <= 10
  /\ NoDup terms
  /\ Forall (fun w =>
               3 < length w
               /\ forallb TranslationJs.is_word w = true
               /\ TranslationJs.mem w TranslationJs.commonWords = false)
       terms.
Proof.
  intros terms. unfold terms, TranslationJs.extractKeyTerms. clear terms.
  set (pieces0 :=
         TranslationJs.split_spaces [] false
           (map (fun c => if TranslationJs.is_word c || is_space c
                          then c else 32%N) (toLowerCase env text))).
  set (words :=
         filter (fun word => (3 <? length word)
                             && negb (TranslationJs.mem word
                                        TranslationJs.commonWords)) pieces0).
  set (wordCount := fold_left TranslationJs.count_word words []).
  set (sorted :=
         TranslationJs.sort_entries env
           (TranslationJs.Object_entries wordCount)).
  destruct (count_words_keys words [] (NoDup_nil _)) as [Hnd Hin].
  fold wordCount in Hnd, Hin.
  assert (Hperm : Permutation (map fst sorted) (map fst wordCount)).
  { apply Permutation_map. unfold sorted.
    rewrite sort_entries_perm. apply Object_entries_perm. }
  split; [|split].
  - rewrite length_map. apply firstn_le_length.
  - rewrite <- firstn_map. apply NoDup_firstn.
    eapply Permutation_NoDup; [symmetry; exact Hperm | exact Hnd].
  - apply Forall_forall. intros w Hw. rewrite <- firstn_map in Hw.
    assert (Hs : In w (map fst sorted)).
    { rewrite <- (firstn_skipn 10 (map fst sorted)). apply in_or_app.
      left. exact Hw. }
    apply (Permutation_in _ Hperm) in Hs.
    destruct (Hin w Hs) as [[] | Hwords].
    unfold words in Hwords. apply filter_In in Hwords.
    destruct Hwords as [Hp Hf]. apply andb_true_iff in Hf.
    destruct Hf as [Hlen Hcommon]. apply Nat.ltb_lt in Hlen.
    apply negb_true_iff in Hcommon. split; [exact Hlen|].
    split; [|exact Hcommon].
    assert (Hall : Forall (fun w => forallb TranslationJs.is_word w = true)
                     pieces0).
    { apply split_spaces_pieces; [reflexivity|].
      intros c Hc Hsp. apply in_map_iff in Hc. destruct Hc as (c0 & <- & _).
      destruct (TranslationJs.is_word c0) eqn:W; simpl in *; [exact W|].
      destruct (is_space c0) eqn:S0; [congruence | discriminate]. }
    rewrite Forall_forall in Hall. apply Hall, Hp.
Qed.

(** ** The route and the page *)

Section RouteFacts.

Import Upload Route.

Variable env : Env.
Variable host : Host.

Lemma caught_well_formed (e : JsError) : well_formed (caught e).
Proof.
  unfold well_formed, caught. simpl. split; [auto|].
  destruct (message e); simpl; discriminate.
Qed.

Lemma events_since_calls (h evs : Trace) :
  events_since h (h ++ evs) = evs.
Proof. apply events_since_app. Qed.

Ltac catch_block Hp :=
  unfold POST_catch, catch_message, hbind, htry, unlink, step, json, hret,
    hthrow;
  simpl;
  rewrite ?Hp; simpl;
  repeat match goal with
         | |- context [fs_unlink ?a ?b ?c] =>
             destruct (fs_unlink a b c)
         end;
  (eexists; eexists; eexists; split; [reflexivity|]; simpl;
   split; [first [rewrite <- ?app_assoc; reflexivity
                  | symmetry; apply app_nil_r]|];
   split; [first [apply caught_well_formed
                  | apply (caught_well_formed (mkError _))]|];
   split; [discriminate|]).

(** A request that passed the validation. *)
Lemma process_upload_run (file : File) (language : jsstring) (log0 : Log) :
  exists steps response st,
    htry (process_upload env host file language) (POST_catch env host)
      (mkState log0 None)
    = (st, Fulfilled response)
    /\ log st = log0 ++ steps
    /\ well_formed response
    /\ status response <> 400
    /\ (truthy (upload_path host file log0) = true ->
        handled env host file language log0 steps response).
Proof.
  unfold process_upload, handled. cbv zeta.
  set (p := upload_path host file log0) in *.
  pose proof (fun h =>
                processPDFDocument_settles env p (toLowerCase env language) h)
    as Hrun.
  unfold htry, hbind, new_uuid, set_tempFilePath, settle, hret, hthrow.
  cbv beta iota. simpl log.
  change (path_join host (tmpdir host)
            (randomUUID host log0 ++ str "-" ++ replace_unsafe (name file)))
    with p.
  revert Hrun.
  generalize (TranslationTs.processPDFDocument env p
                (toLowerCase env language)) as run.
  intros run Hrun.
  destruct (arrayBuffer file) as [e | data].
  { destruct (truthy p) eqn:Hp; catch_block Hp;
      first [discriminate | intros _; split; reflexivity]. }
  unfold writeFile at 1. simpl.
  destruct (fs_writeFile host log0 p data) as [e | ].
  { destruct (truthy p) eqn:Hp; catch_block Hp;
      first [discriminate | intros _; split; reflexivity]. }
  unfold await_pipeline, step. simpl.
  destruct (Hrun (calls (log0 ++ [WriteFile p data None])))
    as (evs & Hf & Hs).
  destruct (run (calls (log0 ++ [WriteFile p data None]))) as [h' o].
  simpl in Hf, Hs. subst h'. simpl fst. simpl snd.
  rewrite events_since_calls.
  destruct o as [out | e].
  2:{ destruct Hs as (v & -> & Hv).
      destruct (truthy p) eqn:Hp; catch_block Hp;
        first [discriminate
              | intros _; split; [reflexivity|]; exists v; auto]. }
  simpl.
  destruct (fs_unlink host
              ((log0 ++ [WriteFile p data None]) ++ map Call evs) p)
    as [e | ].
  { destruct (truthy p) eqn:Hp; catch_block Hp;
      first [discriminate | intros _; split; reflexivity]. }
  destruct out as [res | e]; unfold json, hret;
    (eexists; eexists; eexists; split; [reflexivity|]; simpl;
     split; [rewrite <- !app_assoc; reflexivity|]).
  - split; [reflexivity|]. split; [discriminate|]. intros _.
    split; reflexivity.
  - split; [split; [auto | exact Hs]|]. split; [discriminate|].
    intros _. split; reflexivity.
Qed.

Lemma skipn_log (log0 steps : Log) : skipn (length log0) (log0 ++ steps) = steps.
Proof. rewrite skipn_app, skipn_all, Nat.sub_diag. reflexivity. Qed.

Lemma skipn_log_nil (log0 : Log) : skipn (length log0) log0 = [].
Proof. apply skipn_all. Qed.

(** Every request: a rejection of the validation leaves no step. *)
Lemma POST_cases (request : NextRequest) (log0 : Log) :
  exists steps response,
    handle env host request log0 = (steps, Fulfilled response)
    /\ well_formed response
    /\ match formData request with
       | inl e => steps = [] /\ response = caught e
       | inr form =>
           match get_file form, get_language form with
           | Some (EntryFile file), Some (EntryString language) =>
               if valid_upload env file language then
                 status response <> 400
                 /\ (truthy (upload_path host file log0) = true ->
                     handled env host file language log0 steps response)
               else steps = [] /\ status response = 400
           | _, _ => steps = [] /\ status response = 400
           end
       end.
Proof.
  assert (Hne : forall a b : jsstring, a <> [] -> a ++ b <> [])
    by (intros [|c a] b H; [contradiction | discriminate]).
  assert (H400 : forall msg : jsstring,
             msg <> [] ->
             exists steps response,
               (let '(st, o) :=
                  (mkState log0 None,
                   Fulfilled (mkNextResponse (ErrorBody msg) 400)) in
                (skipn (length log0) (log st), o))
               = (steps, Fulfilled response)
               /\ well_formed response
               /\ steps = [] /\ status response = 400).
  { intros msg Hmsg. eexists. eexists. simpl. rewrite skipn_log_nil.
    split; [reflexivity|]. split; [|auto]. split; auto. }
  unfold handle, POST, POST_try.
  destruct (formData request) as [e | form].
  { unfold htry, hbind, settle, hthrow, POST_catch, catch_message, json,
      hret.
    simpl. rewrite skipn_log_nil. eexists. eexists. split; [reflexivity|].
    split; [apply caught_well_formed | auto]. }
  unfold htry at 1, hbind at 1, settle at 1, hret at 1. cbv beta iota.
  destruct (get_file form) as [[file | s] | ];
    [ | destruct (get_language form) as [[? | ?] | ] | ].
  2-5: (destruct (H400 no_file_message) as (steps & response & H1 & H2 & H3);
        [discriminate|];
        exists steps, response; split; [exact H1|]; split; [exact H2|];
        try exact H3;
        destruct (get_language form) as [[? | ?] | ]; exact H3).
  destruct (get_language form) as [[f' | language] | ].
  1,3: (destruct (H400 invalid_language_message)
          as (steps & response & H1 & H2 & H3);
        [discriminate|];
        exists steps, response; split; [exact H1|]; split; [exact H2|];
        exact H3).
  unfold valid_upload.
  destruct (has VALID_LANGUAGE_KEYS (toLowerCase env language)); simpl negb;
    cbv iota.
  2:{ destruct (H400 invalid_language_message)
        as (steps & response & H1 & H2 & H3); [discriminate|].
      exists steps, response. auto. }
  destruct (isPDF env file); simpl negb; cbv iota.
  2:{ destruct (H400 (str "Only PDF files are supported."))
        as (steps & response & H1 & H2 & H3); [discriminate|].
      exists steps, response. auto. }
  destruct (MAX_FILE_SIZE_BYTES <? size file)%N; simpl negb; cbv iota.
  { destruct (H400 (too_large_message file))
      as (steps & response & H1 & H2 & H3); [discriminate|].
    exists steps, response. auto. }
  destruct (size file =? 0)%N; simpl negb; cbv iota.
  { destruct (H400 (str "The uploaded file is empty."))
      as (steps & response & H1 & H2 & H3); [discriminate|].
    exists steps, response. auto. }
  destruct (process_upload_run file language log0)
    as (steps & response & st & Hrun & Hlog & Hwf & Hst & Hh).
  exists steps, response.
  change (andb (andb (andb true true) true) true) with true.
  change (negb true) with false. cbv iota.
  unfold htry in Hrun. rewrite Hrun, Hlog, skipn_log. auto.
Qed.

End RouteFacts.

(** X16.  [POST] never rejects.  Its response is the success result of
    the pipeline with status 200, or an error with status 400 or 500 and
    a message that is not empty. *)
Theorem POST_total (env : Env) (host : Route.Host)
    (request : Route.NextRequest) (log0 : Route.Log) :
  exists steps response,
    Route.handle env host request log0 = (steps, Fulfilled response)
    /\ well_formed response.
Proof.
  destruct (POST_cases env host request log0)
    as (steps & response & H & Hwf & _).
  exists steps, response. auto.
Qed.

(** X17.  What [POST] does, for a host whose [path.join] never gives the
    empty path.  A request that fails the validation (no file, a language
    that is not a supported key, not a PDF, more than 10 MB, empty) gets
    status 400 and nothing is written or called; a request whose form
    cannot be read gets the response of the [catch] block, also without
    any step.  For a request that passes, the steps and the response
    follow from the answers of the upload, of the file system and of the
    pipeline: the upload could not be read, and the file that was never
    written is unlinked; the write failed, and the file is unlinked; the
    file was written, the pipeline ran on it with the lower-cased
    language, seeing the calls made so far, and the file was removed,
    with status 200 for a success result and 500 for an error result;
    the removal failed, in which case it is tried once more and the
    response is the error of the first removal, whatever the pipeline
    returned; or the pipeline rejected, with the [TypeError] of its own
    [catch] block, in which case the file is unlinked once, whether that
    works or not, and the response carries the message of the
    [TypeError].  All steps name the one path made from the temporary
    directory, the UUID and the sanitised file name. *)
Theorem POST_steps (env : Env) (host : Route.Host)
    (request : Route.NextRequest) (log0 : Route.Log) :
  (forall a b, truthy (Route.path_join host a b) = true) ->
  exists steps response,
    Route.handle env host request log0 = (steps, Fulfilled response)
    /\ match Route.formData request with
       | inl e => steps = [] /\ response = caught e
       | inr form =>
           match Route.get_file form, Route.get_language form with
           | Some (Route.EntryFile file), Some (Route.EntryString language) =>
               if valid_upload env file language then
                 handled env host file language log0 steps response
               else steps = [] /\ Route.status response = 400
           | _, _ => steps = [] /\ Route.status response = 400
           end
       end.
Proof.
  intros Hjoin.
  destruct (POST_cases env host request log0)
    as (steps & response & H & _ & Hc).
  exists steps, response. split; [exact H|].
  destruct (Route.formData request) as [e | form]; [exact Hc|].
  destruct (Route.get_file form) as [[file | s] | ]; try exact Hc.
  destruct (Route.get_language form) as [[f' | language] | ]; try exact Hc.
  destruct (valid_upload env file language); [|exact Hc].
  apply Hc, Hjoin.
Qed.

Lemma POST_steps_witness :
  exists steps response,
    Route.handle Samples.base_env MoreSamples.stubborn_host
      (Route.mkNextRequest
         (inr (upload_form MoreSamples.lease (str "Spanish")))) []
    = (steps, Fulfilled response)
    /\ handled Samples.base_env MoreSamples.stubborn_host MoreSamples.lease
         (str "Spanish") [] steps response.
Proof.
  destruct (POST_steps Samples.base_env MoreSamples.stubborn_host
              (Route.mkNextRequest
                 (inr (upload_form MoreSamples.lease (str "Spanish")))) [])
    as (steps & response & H & Hh).
  - intros a b. destruct a; reflexivity.
  - exists steps, response. split; [exact H | exact Hh].
Defined.

(** A run in which the pipeline succeeds and the temporary file cannot be
    removed: the response is the error of the removal. *)
Example cleanup_failure_hides_success :
  let evs :=
    fst (TranslationTs.processPDFDocument Samples.base_env
           MoreSamples.lease_path (str "spanish") []) in
  let busy := mkError (str "EBUSY: resource busy or locked") in
  TranslationTs.success
    (match snd (TranslationTs.processPDFDocument Samples.base_env
                  MoreSamples.lease_path (str "spanish") []) with
     | Fulfilled out => out
     | Rejected e =>
         TranslationTs.Failure (TranslationTs.mkProcessingError [] [])
     end) = true
  /\ Route.handle Samples.base_env MoreSamples.stubborn_host
       (Route.mkNextRequest
          (inr (upload_form MoreSamples.lease (str "Spanish")))) []
     = (Route.WriteFile MoreSamples.lease_path [37; 80; 68; 70]%N None
        :: map Route.Call evs
        ++ [Route.Unlink MoreSamples.lease_path (Some busy);
            Route.Unlink MoreSamples.lease_path (Some busy)],
        Fulfilled (caught busy)).
Proof. split; vm_compute; reflexivity. Qed.

Section LanguageGateFacts.

Variable env : Env.

Lemma jseqb_sym (a b : jsstring) : jseqb a b = jseqb b a.
Proof.
  destruct (jseqb a b) eqn:E1, (jseqb b a) eqn:E2; try reflexivity.
  - apply jseqb_eq in E1. subst. rewrite jseqb_refl in E2. discriminate.
  - apply jseqb_eq in E2. subst. rewrite jseqb_refl in E1. discriminate.
Qed.

Lemma has_keys_find (x : jsstring) (l : list LanguageConfig) :
  Route.has (map key l) x = true
  <-> exists c, find (fun c => jseqb (key c) x) l = Some c.
Proof.
  unfold Route.has. induction l as [|c l IH]; simpl.
  - split; [discriminate | intros [c H]; discriminate].
  - rewrite (jseqb_sym x (key c)). destruct (jseqb (key c) x); simpl.
    + split; [eauto | reflexivity].
    + exact IH.
Qed.

(** The keys that the route accepts are those for which the pipeline
    finds a code. *)
Lemma valid_key_has_code (k : jsstring) :
  Route.has VALID_LANGUAGE_KEYS (toLowerCase env k) = true
  <-> exists code, getLanguageCode env k = Some code.
Proof.
  unfold VALID_LANGUAGE_KEYS, getLanguageCode. rewrite has_keys_find.
  destruct (find _ SUPPORTED_LANGUAGES) as [c|]; simpl.
  - split; eauto.
  - split; intros [c H]; discriminate.
Qed.

End LanguageGateFacts.

(** X18.  The route and the pipeline agree on the languages.  A language
    that passes the check of the route, and whose lower-case form is not
    changed by a second [toLowerCase], is one for which the pipeline
    finds a code, so that the run the route starts begins with the
    extraction and cannot end on "Unsupported language". *)
Theorem route_language_reaches_extraction (env : Env)
    (language pdfPath : jsstring) (h : Trace) :
  Route.has VALID_LANGUAGE_KEYS (toLowerCase env language) = true ->
  toLowerCase env (toLowerCase env language) = toLowerCase env language ->
  exists code evs,
    getLanguageCode env (toLowerCase env language) = Some code
    /\ fst (TranslationTs.processPDFDocument env pdfPath
              (toLowerCase env language) h)
       = h ++ EvExtract pdfPath (pdf_parse env h pdfPath) :: evs.
Proof.
  intros Hhas Hidem. rewrite <- Hidem in Hhas.
  apply valid_key_has_code in Hhas. destruct Hhas as [code Hcode].
  destruct (body_trace env pdfPath (toLowerCase env language) code h Hcode)
    as (evs & Hf & _).
  exists code, evs. split; [exact Hcode|].
  rewrite processPDFDocument_unfold. exact Hf.
Qed.

Lemma route_language_reaches_extraction_witness :
  exists code evs,
    getLanguageCode Samples.base_env
      (toLowerCase Samples.base_env (str "Spanish")) = Some code
    /\ fst (TranslationTs.processPDFDocument Samples.base_env Samples.upload
              (toLowerCase Samples.base_env (str "Spanish")) [])
       = [] ++ EvExtract Samples.upload
                 (pdf_parse Samples.base_env [] Samples.upload) :: evs.
Proof.
  apply (route_language_reaches_extraction Samples.base_env (str "Spanish")
           Samples.upload []); reflexivity.
Defined.

(** X19.  The name under which an upload is stored has the length of the
    name of the file, is made of letters, digits, ".", "-" and "_" only,
    so that it holds no "/" and no backslash, and sanitising it again
    changes nothing. *)
Theorem replace_unsafe_safe (fileName : jsstring) :
  let safeName := Upload.replace_unsafe fileName in
  length safeName = length fileName
  /\ forallb (fun c => Upload.is_safe c || (c =? 95)%N) safeName = true
  /\ ~ In 47%N safeName
  /\ ~ In 92%N safeName
  /\ Upload.replace_unsafe safeName = safeName.
Proof.
  intros safeName. unfold safeName, Upload.replace_unsafe. clear safeName.
  assert (Hall : forallb (fun c => Upload.is_safe c || (c =? 95)%N)
                   (map (fun c => if Upload.is_safe c then c else 95%N)
                      fileName) = true).
  { induction fileName as [|c l IH]; [reflexivity|]. simpl.
    rewrite IH, andb_true_r.
    destruct (Upload.is_safe c) eqn:E; [rewrite E|]; reflexivity. }
  split; [apply length_map|]. split; [exact Hall|].
  rewrite forallb_forall in Hall.
  split; [|split].
  - intros H. apply Hall in H. discriminate.
  - intros H. apply Hall in H. discriminate.
  - rewrite map_map. apply map_ext. intros c.
    destruct (Upload.is_safe c) eqn:E; [rewrite E|]; reflexivity.
Qed.

Section PageFacts.

Import Upload.

Variable env : Env.

Lemma failed_message_nonempty (msg fallback : jsstring) :
  fallback <> [] -> (if truthy msg then msg else fallback) <> [].
Proof. destruct msg; simpl; [auto | discriminate]. Qed.

(** The test of the page on the type of a file is that of the route. *)
Lemma page_type_test (f : File) :
  negb (endsWith (toLowerCase env (name f)) (str ".pdf"))
  && negb (jseqb (type f) (str "application/pdf"))
  = negb (isPDF env f).
Proof. unfold isPDF. rewrite negb_orb. reflexivity. Qed.

Lemma key_supported (lang : LanguageConfig) :
  In lang SUPPORTED_LANGUAGES ->
  key lang <> [] /\ Route.has VALID_LANGUAGE_KEYS (key lang) = true.
Proof.
  intros [<- | [<- | [<- | []]]]; split; (discriminate || reflexivity).
Qed.

End PageFacts.

(** X20.  [handleSubmit] with a file and a language: when it is done the
    page is no longer loading, holds the same file and language, and
    shows either the data of a response that is [ok] and says
    [success], with no error, or no result and an error message that is
    not empty. *)
Theorem handleSubmit_outcome
    (fetch : Route.FormData -> JsError + Route.NextResponse)
    (st : Page.State) (f : Upload.File) :
  Page.file st = Some f ->
  Page.selectedLanguage st <> [] ->
  let st' := Page.handleSubmit fetch st in
  Page.loading st' = false
  /\ Page.file st' = Some f
  /\ Page.selectedLanguage st' = Page.selectedLanguage st
  /\ match fetch (upload_form f (Page.selectedLanguage st)) with
     | inr response =>
         if Page.ok response && Route.body_success (Route.body response)
         then Page.result st' = Some (Route.body response)
              /\ Page.error st' = []
         else Page.result st' = None /\ Page.error st' <> []
     | inl _ => Page.result st' = None /\ Page.error st' <> []
     end.
Proof.
  intros Hfile Hlang st'. unfold st', Page.handleSubmit. clear st'.
  rewrite Hfile. apply truthy_true in Hlang. rewrite Hlang.
  change (negb true) with false. cbv iota zeta.
  fold (upload_form f (Page.selectedLanguage st)).
  destruct (fetch (upload_form f (Page.selectedLanguage st)))
    as [err | response].
  - simpl. do 4 (split; [reflexivity|]).
    apply failed_message_nonempty. discriminate.
  - destruct (Page.ok response); simpl;
      [destruct (Route.body_success (Route.body response)); simpl|];
      do 3 (split; [reflexivity|]);
      first [ split; reflexivity
            | split; [reflexivity|];
              apply failed_message_nonempty; discriminate ].
Qed.

Lemma handleSubmit_outcome_witness :
  let st :=
    Page.mkState (str "spanish") (Some MoreSamples.lease) false false None []
  in
  let st' :=
    Page.handleSubmit (served Samples.base_env MoreSamples.host []) st in
  Page.loading st' = false
  /\ (exists res, Page.result st' = Some (Route.ResultBody res))
  /\ Page.error st' = [].
Proof.
  intros st st'.
  destruct (handleSubmit_outcome (served Samples.base_env MoreSamples.host [])
              st MoreSamples.lease eq_refl)
    as (H1 & _ & _ & H2); [discriminate|].
  split; [exact H1|]. destruct H2 as [H2 H3].
  split; [eexists; exact H2 | exact H3].
Defined.

(** X21.  From the page to the route.  A language chosen with one of the
    buttons of the page, which [toLowerCase] leaves as it is, and a file
    that [validateAndSetFile] accepted make a request that passes the
    validation of the route: the response is never a 400.  After
    [handleSubmit] the page shows the success result when the status is
    200, and otherwise no result and the error message of the route. *)
Theorem page_to_route (env : Env) (host : Route.Host) (log0 : Route.Log)
    (lang : LanguageConfig) (f : Upload.File) (st0 : Page.State) :
  In lang SUPPORTED_LANGUAGES ->
  toLowerCase env (key lang) = key lang ->
  let st :=
    Page.validateAndSetFile env (Some f) (Page.selectLanguage lang st0) in
  Page.file st = Some f ->
  let st' := Page.handleSubmit (served env host log0) st in
  exists steps response,
    Route.handle env host
      (Route.mkNextRequest (inr (upload_form f (key lang)))) log0
    = (steps, Fulfilled response)
    /\ Route.status response <> 400
    /\ match Route.body response with
       | Route.ResultBody res =>
           Route.status response = 200
           /\ Page.result st' = Some (Route.ResultBody res)
           /\ Page.error st' = []
       | Route.ErrorBody msg =>
           Route.status response = 500
           /\ Page.result st' = None
           /\ Page.error st' = msg
       end.
Proof.
  intros Hin Hlower st Hfile st'.
  destruct (key_supported lang Hin) as [Hkey Hhas].
  assert (Hst : st = Page.mkState (key lang) (Some f)
                       (Page.isDragging st0) (Page.loading st0) None []
                /\ valid_upload env f (key lang) = true).
  { unfold st, Page.validateAndSetFile in *.
    rewrite page_type_test in *. unfold valid_upload.
    rewrite Hlower, Hhas.
    destruct (Upload.isPDF env f); simpl in *; [|discriminate].
    destruct (MAX_FILE_SIZE_BYTES <? Upload.size f)%N; simpl in *;
      [discriminate|].
    destruct (Upload.size f =? 0)%N; simpl in *; [discriminate|].
    split; reflexivity. }
  destruct Hst as [Hst Hvalid].
  destruct (POST_cases env host
              (Route.mkNextRequest (inr (upload_form f (key lang)))) log0)
    as (steps & response & Hrun & Hwf & Hc).
  simpl in Hc. rewrite Hvalid in Hc. destruct Hc as [H400 _].
  exists steps, response. split; [exact Hrun|]. split; [exact H400|].
  unfold st', Page.handleSubmit. rewrite Hst. simpl Page.file.
  simpl Page.selectedLanguage. apply truthy_true in Hkey. rewrite Hkey.
  change (negb true) with false. cbv iota zeta.
  fold (upload_form f (key lang)). unfold served. rewrite Hrun. simpl snd.
  cbv iota. unfold well_formed in Hwf.
  destruct response as [[msg | res] code]; simpl in *.
  - destruct Hwf as [[-> | ->] Hmsg]; [contradiction|].
    split; [reflexivity|]. split; [reflexivity|].
    destruct msg; [contradiction | reflexivity].
  - subst code. auto.
Qed.

Lemma page_to_route_witness :
  let spanish :=
    mkLanguageConfig (str "spanish") (str "Spanish") (str "es")
      [55356; 56810; 55356; 56824]%N in
  let st :=
    Page.validateAndSetFile Samples.base_env (Some MoreSamples.lease)
      (Page.selectLanguage spanish Page.initial) in
  let st' :=
    Page.handleSubmit (served Samples.base_env MoreSamples.host []) st in
  exists steps response,
    Route.handle Samples.base_env MoreSamples.host
      (Route.mkNextRequest
         (inr (upload_form MoreSamples.lease (str "spanish")))) []
    = (steps, Fulfilled response)
    /\ Route.status response <> 400
    /\ match Route.body response with
       | Route.ResultBody res =>
           Route.status response = 200
           /\ Page.result st' = Some (Route.ResultBody res)
           /\ Page.error st' = []
       | Route.ErrorBody msg =>
           Route.status response = 500
           /\ Page.result st' = None
           /\ Page.error st' = msg
       end.
Proof.
  intros spanish st st'.
  apply (page_to_route Samples.base_env MoreSamples.host [] spanish
           MoreSamples.lease Page.initial).
  - left. reflexivity.
  - reflexivity.
  - reflexivity.
Defined.

(** ** The earlier route *)

Section OldRouteFacts.

Import Upload Route.

Variable Item : Type.
Variable Output : Type.
Variable processPDFDocument : jsstring -> jsstring -> M Output.
Variable read : Output -> jsstring + OldRoute.Shown Item.
Variable Date_now : Log -> N.
Variable not_a_function : JsError.
Variable undefined_name : JsError.
Variable env : Env.
Variable host : Host.

Local Notation "'old_handle'" :=
  (OldRoute.handle processPDFDocument read Date_now not_a_function
     undefined_name env host).

Local Notation "'old_settled' o" :=
  (match o with
   | Fulfilled response => old_well_formed response
   | Rejected e =>
       exists p l h v,
         snd (processPDFDocument p l h) = Rejected (ThrownNullish v)
         /\ e = ThrownError (mkError (TypeError_reading_message env v))
   end) (at level 10, o at level 9).

Lemma old_caught_well_formed (e : JsError) :
  old_well_formed (@old_caught Item e).
Proof.
  unfold old_well_formed, old_caught. simpl. split; [auto|].
  destruct (message e); simpl; discriminate.
Qed.

Lemma old_reply_well_formed (result : jsstring + OldRoute.Shown Item) :
  old_well_formed (old_reply result).
Proof.
  destruct result as [error | shown]; unfold old_well_formed; simpl;
    [|reflexivity].
  split; [auto|]. destruct error; simpl; discriminate.
Qed.

Ltac run_old :=
  repeat (progress
            (unfold OldRoute.handle, OldRoute.POST, OldRoute.POST_try,
               OldRoute.falsy, OldRoute.language_toLowerCase,
               OldRoute.file_of, htry, hbind, settle, OldRoute.now,
               set_tempFilePath, writeFile, await_pipeline, unlink, step,
               hret, hthrow, OldRoute.json, OldRoute.POST_catch,
               catch_message;
             cbv beta iota zeta
               delta [log tempFilePath formData get_file get_language
                      upload_form fst snd])).

Ltac old_done :=
  eexists; eexists; (split; [reflexivity|]).

(** A request with a supported language and a file named as a PDF. *)
Lemma old_POST_valid (file : File) (language : jsstring) (log0 : Log) :
  truthy language = true ->
  has [str "spanish"; str "french"; str "mandarin"]
    (toLowerCase env language) = true ->
  endsWith (toLowerCase env (name file)) (str ".pdf") = true ->
  exists steps o,
    old_handle (mkNextRequest (inr (upload_form file language))) log0
    = (steps, o)
    /\ old_settled o
    /\ (truthy (old_upload_path host Date_now file log0) = true ->
        old_handled processPDFDocument read Date_now env host file language
          log0 steps o).
Proof.
  intros Hlang Hhas Hpdf. unfold old_handled. cbv zeta.
  set (p := old_upload_path host Date_now file log0).
  assert (Hnil : skipn (length log0) log0 = []) by apply skipn_log_nil.
  assert (Hskip : forall steps, skipn (length log0) (log0 ++ steps) = steps)
    by (intros; apply skipn_log).
  assert (Heqp : p = path_join host (tmpdir host)
                       (decimal (Date_now log0) ++ str "-"
                        ++ replace_unsafe (name file))) by reflexivity.
  clearbody p.
  run_old. rewrite Hlang. change (negb true) with false. run_old.
  rewrite Hhas. change (negb true) with false. run_old.
  rewrite Hpdf. change (negb true) with false. run_old.
  destruct (arrayBuffer file) as [e | data]; run_old; rewrite <- ?Heqp.
  { rewrite Hnil. old_done.
    split; [apply old_caught_well_formed|]. intros _. split; reflexivity. }
  destruct (fs_writeFile host log0 p data) as [e | ]; run_old.
  { destruct (truthy p) eqn:Hp; run_old.
    - destruct (fs_unlink host (log0 ++ [WriteFile p data (Some e)]) p);
        run_old; rewrite <- ?app_assoc, Hskip;
        (old_done; split; [apply old_caught_well_formed|]; intros _;
         split; reflexivity).
    - old_done. split; [apply old_caught_well_formed | discriminate]. }
  destruct (processPDFDocument p (toLowerCase env language)
              (calls (log0 ++ [WriteFile p data None])))
    as [h' [out | [e | | v]]] eqn:R; run_old.
  - destruct (fs_unlink host _ p) as [e | ];
      (destruct (read out) as [error | shown] eqn:Rd; run_old;
       rewrite <- ?app_assoc, Hskip; old_done;
       (split;
        [pose proof (old_reply_well_formed (read out)) as Hwf;
         rewrite Rd in Hwf; exact Hwf|]);
       intros _; split; reflexivity).
  - destruct (truthy p) eqn:Hp; run_old.
    + destruct (fs_unlink host _ p);
        run_old; rewrite <- ?app_assoc, Hskip;
        (old_done; split; [apply old_caught_well_formed|]; intros _;
         split; reflexivity).
    + old_done. split; [apply old_caught_well_formed | discriminate].
  - destruct (truthy p) eqn:Hp; run_old.
    + destruct (fs_unlink host _ p);
        run_old; rewrite <- ?app_assoc, Hskip;
        (old_done; split; [apply (old_caught_well_formed (mkError []))|];
         intros _; split; reflexivity).
    + old_done.
      split; [apply (old_caught_well_formed (mkError [])) | discriminate].
  - assert (Hrej : exists p0 l h v0,
               snd (processPDFDocument p0 l h) = Rejected (ThrownNullish v0)
               /\ @ThrownError (mkError (TypeError_reading_message env v))
                  = ThrownError (mkError (TypeError_reading_message env v0))).
    { exists p, (toLowerCase env language),
        (calls (log0 ++ [WriteFile p data None])), v.
      rewrite R. split; reflexivity. }
    destruct (truthy p) eqn:Hp; run_old.
    + destruct (fs_unlink host _ p);
        run_old; rewrite <- ?app_assoc, Hskip;
        (old_done; split; [exact Hrej|]; intros _; split; reflexivity).
    + old_done. split; [exact Hrej | discriminate].
Qed.

Lemma old_POST_settles (request : NextRequest) (log0 : Log) :
  exists steps o,
    old_handle request log0 = (steps, o) /\ old_settled o.
Proof.
  assert (Hnil : skipn (length log0) log0 = []) by apply skipn_log_nil.
  assert (H400 : forall msg : jsstring,
             msg <> [] ->
             @old_well_formed Item
               (OldRoute.mkNextResponse (OldRoute.ErrorBody msg) 400)).
  { intros msg Hmsg. split; [left; reflexivity | exact Hmsg]. }
  destruct request as [[e | [file language]]].
  { run_old. rewrite Hnil. old_done. apply old_caught_well_formed. }
  destruct file as [[f | s] | ].
  - destruct language as [[g | language] | ].
    + run_old. rewrite Hnil. old_done. apply old_caught_well_formed.
    + destruct (truthy language) eqn:Hlang.
      2:{ run_old. rewrite Hlang. change (negb false) with true. run_old.
          rewrite Hnil. old_done. apply H400. discriminate. }
      destruct (has [str "spanish"; str "french"; str "mandarin"]
                  (toLowerCase env language)) eqn:Hhas.
      2:{ run_old. rewrite Hlang. change (negb true) with false. run_old.
          rewrite Hhas. change (negb false) with true. run_old.
          rewrite Hnil. old_done. apply H400. discriminate. }
      destruct (endsWith (toLowerCase env (name f)) (str ".pdf")) eqn:Hpdf.
      2:{ run_old. rewrite Hlang. change (negb true) with false. run_old.
          rewrite Hhas. change (negb true) with false. run_old.
          rewrite Hpdf. change (negb false) with true. run_old.
          rewrite Hnil. old_done. apply H400. discriminate. }
      destruct (old_POST_valid f language log0 Hlang Hhas Hpdf)
        as (steps & o & H & Hwf & _).
      exists steps, o. auto.
    + run_old. rewrite Hnil. old_done. apply H400. discriminate.
  - destruct (truthy s) eqn:Hs.
    2:{ run_old. rewrite Hs. change (negb false) with true. run_old.
        rewrite Hnil. old_done. apply H400. discriminate. }
    destruct language as [[g | language] | ].
    + run_old. rewrite Hs. change (negb true) with false. run_old.
      rewrite Hnil. old_done. apply old_caught_well_formed.
    + run_old. rewrite Hs. change (negb true) with false. run_old.
      destruct (truthy language) eqn:Hlang;
        [change (negb true) with false | change (negb false) with true];
        run_old.
      2:{ rewrite Hnil. old_done. apply H400. discriminate. }
      destruct (has [str "spanish"; str "french"; str "mandarin"]
                  (toLowerCase env language)) eqn:Hhas;
        [change (negb true) with false | change (negb false) with true];
        run_old; rewrite Hnil; old_done;
        [apply old_caught_well_formed | apply H400; discriminate].
    + run_old. rewrite Hs. change (negb true) with false. run_old.
      rewrite Hnil. old_done. apply H400. discriminate.
  - run_old. rewrite Hnil. old_done. apply H400. discriminate.
Qed.

End OldRouteFacts.

(** [processPDFDocument] of [translation.js] is always fulfilled. *)
Lemma js_processPDFDocument_fulfils (env : Env)
    (pdfPath targetLang : jsstring) (options : TranslationJs.Options)
    (h : Trace) :
  exists out,
    snd (TranslationJs.processPDFDocument env pdfPath targetLang options h)
    = Fulfilled out.
Proof.
  destruct (TranslationJs.lang_truthy
              (TranslationJs.lookup_language (toLowerCase env targetLang)))
    eqn:Hlang.
  2:{ unfold TranslationJs.processPDFDocument, try_catch. cbv zeta.
      rewrite Hlang. eexists. reflexivity. }
  pose proof (js_pipeline_run env pdfPath targetLang options h Hlang) as Hrun.
  cbv zeta in Hrun.
  destruct (pdf_parse env h pdfPath) as [[e | | v] | fullText].
  1-3: (rewrite Hrun; eexists; reflexivity).
  destruct (truthy (trim fullText)).
  2:{ rewrite Hrun. eexists. reflexivity. }
  destruct (snd (TranslationJs.translateText env _ _ _ _)) as [t | e].
  - destruct Hrun as (plan & _ & ->). eexists. reflexivity.
  - destruct Hrun as (msg & _ & ->). eexists. reflexivity.
Qed.

(** X22.  The earlier [POST] never rejects, with either module of the
    repository as [@/lib/translation]: [translation.js], whose
    [processPDFDocument] is always fulfilled, and [translation.ts],
    whose [processPDFDocument] rejects with a [TypeError] object only.
    Its response is a success result with status 200, or an error with
    status 400 or 500 and a message that is not empty.  With any other
    function in the place of [processPDFDocument] the same holds even
    when that function rejects with an [Error]; the handler rejects only
    when that function was rejected with [undefined] or [null], on which
    the [catch] block cannot read [message], and it then rejects with
    that [TypeError]. *)
Theorem old_POST_total (Item Output : Type)
    (processPDFDocument : jsstring -> jsstring -> M Output)
    (read : Output -> jsstring + OldRoute.Shown Item)
    (Date_now : Route.Log -> N) (not_a_function undefined_name : JsError)
    (env : Env) (host : Route.Host) (request : Route.NextRequest)
    (log0 : Route.Log) :
  (exists steps response,
     OldRoute.handle (OldRoute.processPDFDocument_js env) OldRoute.read_js
       Date_now not_a_function undefined_name env host request log0
     = (steps, Fulfilled response)
     /\ old_well_formed response)
  /\ (exists steps response,
        OldRoute.handle (TranslationTs.processPDFDocument env)
          OldRoute.read_ts Date_now not_a_function undefined_name env host
          request log0
        = (steps, Fulfilled response)
        /\ old_well_formed response)
  /\ exists steps o,
       OldRoute.handle processPDFDocument read Date_now not_a_function
         undefined_name env host request log0
       = (steps, o)
       /\ match o with
          | Fulfilled response => old_well_formed response
          | Rejected e =>
              exists p l h v,
                snd (processPDFDocument p l h) = Rejected (ThrownNullish v)
                /\ e = ThrownError
                         (mkError (TypeError_reading_message env v))
          end.
Proof.
  split; [|split].
  - destruct (old_POST_settles _ _ (OldRoute.processPDFDocument_js env)
                OldRoute.read_js Date_now not_a_function undefined_name env
                host request log0)
      as (steps & [response | e] & H & Hs).
    + exists steps, response. auto.
    + destruct Hs as (p & l & h & v & Hrej & _).
      destruct (js_processPDFDocument_fulfils env p l
                  TranslationJs.default_options h) as [out Hout].
      unfold OldRoute.processPDFDocument_js in Hrej.
      rewrite Hout in Hrej. discriminate.
  - destruct (old_POST_settles _ _ (TranslationTs.processPDFDocument env)
                OldRoute.read_ts Date_now not_a_function undefined_name env
                host request log0)
      as (steps & [response | e] & H & Hs).
    + exists steps, response. auto.
    + destruct Hs as (p & l & h & v & Hrej & _).
      destruct (processPDFDocument_settles env p l h) as (evs & _ & Hset).
      rewrite Hrej in Hset. destruct Hset as (v0 & Hv0 & _).
      discriminate.
  - apply old_POST_settles.
Qed.

(** X23.  What the earlier [POST] does with a request that passes its
    validation (a language that is one of the three keys in lower case,
    a file whose name ends in ".pdf"), for a path that is not empty; the
    steps and the outcome follow from the answers of the upload, of the
    file system and of the pipeline.  When the upload cannot be read
    nothing is written and nothing is unlinked.  When the write fails the
    file is unlinked.  Otherwise the file is written, the pipeline runs
    on it with the lower-cased language, seeing the calls made so far,
    and the file is unlinked exactly once; a removal that fails is
    ignored.  The response is then made from the result of the pipeline
    alone, with status 200 for a success; when the pipeline rejected
    with an [Error] it is the response of the [catch] block, with the
    default message for a rejection that has no message; when the
    pipeline rejected with [undefined] or [null] the handler rejects with
    the [TypeError] of reading [message] on it. *)
Theorem old_POST_steps (Item Output : Type)
    (processPDFDocument : jsstring -> jsstring -> M Output)
    (read : Output -> jsstring + OldRoute.Shown Item)
    (Date_now : Route.Log -> N) (not_a_function undefined_name : JsError)
    (env : Env) (host : Route.Host) (file : Upload.File)
    (language : jsstring) (log0 : Route.Log) :
  language <> [] ->
  Route.has [str "spanish"; str "french"; str "mandarin"]
    (toLowerCase env language) = true ->
  Upload.endsWith (toLowerCase env (Upload.name file)) (str ".pdf") = true ->
  old_upload_path host Date_now file log0 <> [] ->
  exists steps o,
    OldRoute.handle processPDFDocument read Date_now not_a_function
      undefined_name env host
      (Route.mkNextRequest (inr (upload_form file language))) log0
    = (steps, o)
    /\ old_handled processPDFDocument read Date_now env host file language
         log0 steps o.
Proof.
  intros Hlang Hhas Hpdf Hpath.
  apply truthy_true in Hlang. apply truthy_true in Hpath.
  destruct (old_POST_valid Item Output processPDFDocument read Date_now
              not_a_function undefined_name env host file language log0
              Hlang Hhas Hpdf)
    as (steps & o & H & _ & Hh).
  exists steps, o. auto.
Qed.

Lemma old_POST_steps_witness :
  exists steps o,
    OldRoute.handle (OldRoute.processPDFDocument_js Samples.base_env)
      OldRoute.read_js MoreSamples.clock MoreSamples.not_a_function
      MoreSamples.undefined_name Samples.base_env MoreSamples.stubborn_host
      (Route.mkNextRequest
         (inr (upload_form MoreSamples.lease (str "Spanish")))) []
    = (steps, o)
    /\ old_handled (OldRoute.processPDFDocument_js Samples.base_env)
         OldRoute.read_js MoreSamples.clock Samples.base_env
         MoreSamples.stubborn_host MoreSamples.lease (str "Spanish") []
         steps o.
Proof.
  apply (old_POST_steps TranslationJs.ActionItem
           TranslationJs.ProcessingOutput
           (OldRoute.processPDFDocument_js Samples.base_env)
           OldRoute.read_js MoreSamples.clock MoreSamples.not_a_function
           MoreSamples.undefined_name Samples.base_env
           MoreSamples.stubborn_host MoreSamples.lease (str "Spanish") []);
    first [discriminate | reflexivity].
Defined.

(** The run of the witness: the file cannot be removed, and the earlier
    route answers 200 all the same. *)
Example old_route_ignores_cleanup_failure :
  match
    snd (OldRoute.handle (OldRoute.processPDFDocument_js Samples.base_env)
           OldRoute.read_js MoreSamples.clock MoreSamples.not_a_function
           MoreSamples.undefined_name Samples.base_env
           MoreSamples.stubborn_host
           (Route.mkNextRequest
              (inr (upload_form MoreSamples.lease (str "Spanish")))) [])
  with
  | Fulfilled response => OldRoute.status response = 200
  | Rejected _ => False
  end
  /\ last
       (fst (OldRoute.handle
               (OldRoute.processPDFDocument_js Samples.base_env)
               OldRoute.read_js MoreSamples.clock MoreSamples.not_a_function
               MoreSamples.undefined_name Samples.base_env
               MoreSamples.stubborn_host
               (Route.mkNextRequest
                  (inr (upload_form MoreSamples.lease (str "Spanish")))) []))
       (Route.Unlink [] None)
     = Route.Unlink MoreSamples.old_lease_path
         (Some (mkError (str "EBUSY: resource busy or locked"))).
Proof. split; vm_compute; reflexivity. Qed.

(** ** The language check of the earlier pipeline *)

(** X24.  The language check of [translation.js] lets through the names
    that every object inherits: for a language whose lower-case form is
    one of them, such as "constructor", [SUPPORTED_LANGUAGES[...]] is an
    inherited function, which is truthy, so the run does not stop on
    "Unsupported language" but goes on to extract the PDF.  When the
    extraction gives a text that is not blank, the calls of
    [translateText] for the summary follow, at least one, and every one
    of them carries that inherited value as its target; a summary of at
    most 25,000 code units is sent in exactly one such call.
    [getLanguageCode] of [languages.ts] finds no code for such a
    language. *)
Theorem js_inherited_language_passes (env : Env)
    (pdfPath targetLang : jsstring) (options : TranslationJs.Options)
    (h : Trace) :
  TranslationJs.mem (toLowerCase env targetLang)
    TranslationJs.Object_prototype_functions = true ->
  let inherited := LangInherited (toLowerCase env targetLang) in
  let r := TranslationJs.processPDFDocument env pdfPath targetLang options h
  in
  let e1 := EvExtract pdfPath (pdf_parse env h pdfPath) in
  getLanguageCode env targetLang = None
  /\ TranslationJs.lookup_language (toLowerCase env targetLang) = inherited
  /\ (exists evs, fst r = h ++ e1 :: evs)
  /\ forall fullText,
       pdf_parse env h pdfPath = PdfData fullText ->
       truthy (trim fullText) = true ->
       let summary :=
         TranslationJs.summarizeText fullText
           (TranslationJs.opt_summaryLength options) in
       let t :=
         TranslationJs.translateText env summary inherited
           (TranslationJs.opt_sourceLanguage options) (h ++ [e1]) in
       let tr1 := events_since (h ++ [e1]) (fst t) in
       tr1 <> []
       /\ Forall (translates (TranslationJs.opt_sourceLanguage options)
                    inherited) tr1
       /\ (exists tr2, fst r = h ++ e1 :: tr1 ++ tr2)
       /\ (length summary <= TranslationJs.maxChunkSize ->
           exists resp,
             tr1
             = [EvTranslate
                  (TranslationJs.request summary inherited
                     (TranslationJs.opt_sourceLanguage options) env)
                  resp]).
Proof.
  intros Hmem inherited r e1. unfold inherited, r, e1. clear inherited r e1.
  assert (Hkeys : TranslationJs.assoc TranslationJs.SUPPORTED_LANGUAGES
                    (toLowerCase env targetLang) = None
                  /\ getLanguageCode env targetLang = None).
  { unfold getLanguageCode. revert Hmem.
    generalize (toLowerCase env targetLang) as k. intros k Hmem.
    unfold TranslationJs.mem in Hmem. apply existsb_exists in Hmem.
    destruct Hmem as (w & Hin & Hw). rewrite jseqb_sym in Hw.
    apply jseqb_eq in Hw. subst k.
    repeat (destruct Hin as [<- | Hin]; [split; reflexivity|]).
    destruct Hin. }
  destruct Hkeys as [Hassoc Hnone]. split; [exact Hnone|].
  assert (Hlook : TranslationJs.lookup_language (toLowerCase env targetLang)
                  = LangInherited (toLowerCase env targetLang)).
  { unfold TranslationJs.lookup_language. rewrite Hassoc, Hmem. reflexivity. }
  split; [exact Hlook|].
  assert (Hlang : TranslationJs.lang_truthy
                    (TranslationJs.lookup_language
                       (toLowerCase env targetLang)) = true)
    by (rewrite Hlook; reflexivity).
  pose proof (js_pipeline_run env pdfPath targetLang options h Hlang) as Hrun.
  cbv zeta in Hrun. rewrite Hlook in Hrun.
  assert (Hdata : forall fullText,
             pdf_parse env h pdfPath = PdfData fullText ->
             truthy (trim fullText) = true ->
             let t :=
               TranslationJs.translateText env
                 (TranslationJs.summarizeText fullText
                    (TranslationJs.opt_summaryLength options))
                 (LangInherited (toLowerCase env targetLang))
                 (TranslationJs.opt_sourceLanguage options)
                 (h ++ [EvExtract pdfPath (pdf_parse env h pdfPath)]) in
             exists tr2,
               fst (TranslationJs.processPDFDocument env pdfPath targetLang
                      options h)
               = h ++ EvExtract pdfPath (pdf_parse env h pdfPath)
                      :: events_since
                           (h ++ [EvExtract pdfPath (pdf_parse env h pdfPath)])
                           (fst t)
                         ++ tr2).
  { intros fullText P B. rewrite P in *. rewrite B in Hrun. cbv zeta.
    destruct (js_translateText_trace env
                (LangInherited (toLowerCase env targetLang))
                (TranslationJs.opt_sourceLanguage options)
                (TranslationJs.summarizeText fullText
                   (TranslationJs.opt_summaryLength options))
                (h ++ [EvExtract pdfPath (PdfData fullText)]))
      as (tr1 & Hf1 & _).
    cbv zeta in Hf1.
    destruct (TranslationJs.translateText env _ _ _
                (h ++ [EvExtract pdfPath (PdfData fullText)]))
      as [h2 [translated | e]]; simpl in Hf1, Hrun; subst h2; simpl fst;
      rewrite events_since_app.
    - destruct Hrun as (plan & _ & ->). simpl fst.
      destruct (js_generateActionPlan_trace env
                  (TranslationJs.summarizeText fullText
                     (TranslationJs.opt_summaryLength options))
                  targetLang fullText
                  ((h ++ [EvExtract pdfPath (PdfData fullText)]) ++ tr1))
        as (Hf2 & _).
      cbv zeta in Hf2. eexists. rewrite Hf2 at 1.
      rewrite <- !app_assoc. reflexivity.
    - destruct Hrun as (msg & _ & ->). simpl fst. exists [].
      rewrite app_nil_r, <- app_assoc. reflexivity. }
  split.
  - destruct (pdf_parse env h pdfPath) as [[e | | v] | fullText] eqn:P.
    1-3: (rewrite Hrun; exists []; reflexivity).
    destruct (truthy (trim fullText)) eqn:B.
    2:{ rewrite Hrun. exists []. reflexivity. }
    destruct (Hdata fullText eq_refl B) as (tr2 & Hf).
    eexists. exact Hf.
  - intros fullText P B. cbv zeta.
    pose proof (js_translateText_calls_nonempty env
                  (LangInherited (toLowerCase env targetLang))
                  (TranslationJs.opt_sourceLanguage options)
                  (TranslationJs.summarizeText fullText
                     (TranslationJs.opt_summaryLength options))
                  (h ++ [EvExtract pdfPath (pdf_parse env h pdfPath)]))
      as Hne.
    split; [exact Hne|].
    destruct (js_translateText_trace env
                (LangInherited (toLowerCase env targetLang))
                (TranslationJs.opt_sourceLanguage options)
                (TranslationJs.summarizeText fullText
                   (TranslationJs.opt_summaryLength options))
                (h ++ [EvExtract pdfPath (pdf_parse env h pdfPath)]))
      as (tr1 & Hf1 & Hq1 & _).
    cbv zeta in Hf1.
    split; [|split; [exact (Hdata fullText P B)|]].
    + rewrite Hf1, events_since_app.
      apply (sequential_translates env _ _ _ _ Hq1).
    + intros Hlen. rewrite Hf1, events_since_app in Hne |- *.
      destruct Hq1 as [Hreq _]. unfold js_pieces in Hreq.
      apply Nat.leb_le in Hlen. rewrite Hlen in Hreq.
      destruct tr1 as [|ev [|ev' tr1]]; [contradiction| |discriminate].
      simpl in Hreq. injection Hreq as Hev.
      destruct ev as [? ? | ? ? | req resp]; try discriminate.
      simpl in Hev. injection Hev as ->. exists resp. reflexivity.
Qed.

Lemma js_inherited_language_passes_witness :
  let e1 := EvExtract Samples.upload (PdfData Samples.document) in
  let summary := TranslationJs.summarizeText Samples.document 1000 in
  getLanguageCode Samples.base_env (str "Constructor") = None
  /\ TranslationJs.lookup_language (str "constructor")
     = LangInherited (str "constructor")
  /\ (exists evs,
        fst (TranslationJs.processPDFDocument Samples.base_env Samples.upload
               (str "Constructor") TranslationJs.default_options [])
        = [] ++ e1 :: evs)
  /\ exists resp,
       events_since ([] ++ [e1])
         (fst (TranslationJs.translateText Samples.base_env summary
                 (LangInherited (str "constructor")) (str "en")
                 ([] ++ [e1])))
       = [EvTranslate
            (TranslationJs.request summary
               (LangInherited (str "constructor")) (str "en")
               Samples.base_env)
            resp].
Proof.
  intros e1 summary.
  destruct (js_inherited_language_passes Samples.base_env Samples.upload
              (str "Constructor") TranslationJs.default_options [] eq_refl)
    as (H1 & H2 & H3 & H4).
  split; [exact H1|]. split; [exact H2|]. split; [exact H3|].
  destruct (H4 Samples.document eq_refl eq_refl) as (_ & _ & _ & H5).
  apply H5. apply Nat.leb_le. reflexivity.
Defined.
